(** * Launcher base of the CPU launch module

    A shallow embedding of
    [intel_extension_for_pytorch/cpu/launch/launcher_base.py]: the
    [Launcher] class with its library resolver ([set_lib_bin_from_list],
    [add_lib_preload]), its environment composer ([add_env],
    [set_memory_allocator], [set_omp_runtime]), its logging helper
    ([verbose]) and the range-list parser ([parse_list_argument]).

    Conventions of the embedding.
    - A Python [str] is a [string] of ASCII characters.
    - A Python exception is a value of [exn]; a method that can raise
      returns a [result].
    - Methods that read or mutate [self] run in the monad [M]: a state
      monad over the launcher's attributes, with exceptions, that collects
      the output of the call.
    - The process environment and the file system are read only; they are
      the record [World]. *)

From Stdlib Require Import ZArith Ascii String List Lia Bool.
From Stdlib Require Import DecimalString DecimalNat.
From stdpp Require Import base gmap strings list.

Local Open Scope Z_scope.

(** ** Python strings *)

Module Str.

(** [c in "ABC...Z"] *)
Definition is_upper (c : ascii) : bool :=
  let n := nat_of_ascii c in ((65 <=? n) && (n <=? 90))%nat.

Definition lower_char (c : ascii) : ascii :=
  if is_upper c then ascii_of_nat (nat_of_ascii c + 32) else c.

(** [s.lower()] *)
Fixpoint lower (s : string) : string :=
  match s with
  | EmptyString => EmptyString
  | String c s' => String (lower_char c) (lower s')
  end.

(** [s.endswith(suffix)] *)
Definition endswith (s suffix : string) : bool :=
  let n := String.length s in
  let k := String.length suffix in
  ((k <=? n)%nat && String.eqb (substring (n - k) k s) suffix).

(** [s[:-1]] *)
Fixpoint drop_last (s : string) : string :=
  match s with
  | EmptyString => EmptyString
  | String c EmptyString => EmptyString
  | String c s' => String c (drop_last s')
  end.

(** The characters [str.isspace] accepts, among the ASCII ones. *)
Definition is_space (c : ascii) : bool :=
  let n := nat_of_ascii c in
  (((9 <=? n) && (n <=? 13)) || ((28 <=? n) && (n <=? 32)))%nat.

(** [s.lstrip()] *)
Fixpoint lstrip (s : string) : string :=
  match s with
  | EmptyString => EmptyString
  | String c s' => if is_space c then lstrip s' else s
  end.

(** [s.rstrip()] *)
Fixpoint rstrip (s : string) : string :=
  match s with
  | EmptyString => EmptyString
  | String c s' =>
      match rstrip s' with
      | EmptyString => if is_space c then EmptyString else String c EmptyString
      | r => String c r
      end
  end.

(** [s.strip()] *)
Definition strip (s : string) : string := rstrip (lstrip s).

(** [s.split(sep)] for a separator of one character: the pieces between
    the separators, empty pieces included; never the empty list. *)
Fixpoint split (sep : ascii) (s : string) : list string :=
  match s with
  | EmptyString => [EmptyString]
  | String c s' =>
      if Ascii.eqb c sep then EmptyString :: split sep s'
      else
        match split sep s' with
        | piece :: pieces => String c piece :: pieces
        | [] => [String c EmptyString]
        end
  end.

Definition is_digit (c : ascii) : bool :=
  let n := nat_of_ascii c in ((48 <=? n) && (n <=? 57))%nat.

Fixpoint all_digits (s : string) : bool :=
  match s with
  | EmptyString => true
  | String c s' => is_digit c && all_digits s'
  end.

(** [s.isdigit()]: at least one character, and all of them digits. *)
Definition isdigit (s : string) : bool :=
  match s with
  | EmptyString => false
  | _ => all_digits s
  end.

Definition digit_value (c : ascii) : Z := Z.of_nat (nat_of_ascii c - 48).

(** The digits of an [int] literal as [int(s)] reads them: decimal
    digits, where single underscores may separate two digits.  [after_digit]
    tells that the previous character was a digit. *)
Fixpoint int_digits (acc : Z) (after_digit : bool) (s : string) : option Z :=
  match s with
  | EmptyString => if after_digit then Some acc else None
  | String c s' =>
      if is_digit c then int_digits (10 * acc + digit_value c) true s'
      else if Ascii.eqb c "_" && after_digit then int_digits acc false s'
      else None
  end.

(** [int(s)] in base ten: surrounding white space, an optional sign, then
    the digits.  [None] stands for the [ValueError] that [int] raises. *)
Definition to_int (s : string) : option Z :=
  match strip s with
  | String "+" d => int_digits 0 false d
  | String "-" d => Z.opp <$> int_digits 0 false d
  | d => int_digits 0 false d
  end.

(** [sep.join(pieces)] *)
Fixpoint join (sep : string) (pieces : list string) : string :=
  match pieces with
  | [] => EmptyString
  | [p] => p
  | p :: ps => p +:+ sep +:+ join sep ps
  end.

(** [x in s] for strings: [x] occurs in [s] as a substring. *)
Fixpoint contains (s x : string) : bool :=
  String.prefix x s
  || match s with
     | EmptyString => false
     | String _ s' => contains s' x
     end.

Definition squote : ascii := ascii_of_nat 39.
Definition dquote : ascii := ascii_of_nat 34.
Definition backslash : ascii := ascii_of_nat 92.

Definition one (c : ascii) : string := String c EmptyString.

Definition hex_digit (n : nat) : ascii :=
  nth n (list_ascii_of_string "0123456789abcdef") "0"%char.

(** One character of [repr(s)] inside the quotes [quote]. *)
Definition repr_char (quote c : ascii) : string :=
  let n := nat_of_ascii c in
  if Ascii.eqb c backslash then String backslash (one backslash)
  else if Ascii.eqb c quote then String backslash (one quote)
  else if (n =? 9)%nat then String backslash "t"
  else if (n =? 10)%nat then String backslash "n"
  else if (n =? 13)%nat then String backslash "r"
  else if ((n <? 32) || (n =? 127))%nat then
    String backslash
      (String "x" (String (hex_digit (n / 16)) (one (hex_digit (n mod 16)))))
  else one c.

Fixpoint repr_chars (quote : ascii) (s : string) : string :=
  match s with
  | EmptyString => EmptyString
  | String c s' => repr_char quote c +:+ repr_chars quote s'
  end.

(** [repr(s)]: single quotes, unless [s] has a single quote and no
    double quote. *)
Definition repr (s : string) : string :=
  let quote :=
    if contains s (one squote) && negb (contains s (one dquote))
    then dquote else squote in
  one quote +:+ repr_chars quote s +:+ one quote.

(** [repr(l)], which is also [str(l)] and what an f-string prints for a
    list of strings. *)
Definition repr_list (l : list string) : string :=
  "[" +:+ join ", " (map repr l) +:+ "]".

End Str.

(** ** Exceptions and results *)

Inductive exn : Type :=
| AssertionError (msg : string)
| IndexError
| KeyError (key : string)
| ValueError.

Inductive result (A : Type) : Type :=
| Ok (a : A)
| Raise (e : exn).
Arguments Ok {A} a.
Arguments Raise {A} e.

Definition is_ok {A} (r : result A) : bool :=
  match r with Ok _ => true | Raise _ => false end.

(** ** The range-list parser *)

Module Parse.

Definition bind {A B} (r : result A) (k : A -> result B) : result B :=
  match r with
  | Ok a => k a
  | Raise e => Raise e
  end.

(** [int(s)], raising [ValueError]. *)
Definition int (s : string) : result Z :=
  match Str.to_int s with
  | Some z => Ok z
  | None => Raise ValueError
  end.

(** [[int(x.strip()) for x in parts]] *)
Fixpoint ints (parts : list string) : result (list Z) :=
  match parts with
  | [] => Ok []
  | x :: parts' =>
      bind (int (Str.strip x)) (fun z =>
      bind (ints parts') (fun zs => Ok (z :: zs)))
  end.

(** [list(range(b, e + 1))] *)
Definition range_incl (b e : Z) : list Z := seqZ b (e + 1 - b).

(** One turn of the loop over [txt.split(",")]: the integers the element
    adds to [ret]. *)
Definition parse_elem (elem : string) : result (list Z) :=
  let elem := Str.strip elem in
  if Str.isdigit elem then
    bind (int elem) (fun z => Ok [z])
  else
    bind (ints (Str.split "-" elem)) (fun core_range =>
      match core_range with
      | [b; e] =>
          if b <=? e then Ok (range_incl b e)
          else Raise (AssertionError
                        "Begining index of a range must be <= ending index.")
      | _ => Raise (AssertionError "Invalid range format detected.")
      end).

(** The loop [for elem in ...], threading [ret]. *)
Fixpoint parse_elems (elems : list string) (ret : list Z) : result (list Z) :=
  match elems with
  | [] => Ok ret
  | elem :: elems' =>
      bind (parse_elem elem) (fun zs => parse_elems elems' (ret ++ zs))
  end.

(** [Launcher.parse_list_argument].  The method returns [list(set(ret))],
    a list without duplicates whose order Python leaves open: the
    embedding returns the set. *)
Definition parse_list_argument (txt : string) : result (gset Z) :=
  let txt := Str.strip txt in
  bind (if String.eqb txt "" then Ok []
        else parse_elems (Str.split "," txt) [])
       (fun ret => Ok (list_to_set ret)).

End Parse.

(** ** The launcher's state *)

(** The trace of a call: the calls to the injected logger, the lines
    printed when no logger was injected, and the calls to the probe
    function [fn] of [set_lib_bin_from_list] with what each returned.  The
    source prints nothing for a probe; [Probe] only records that [fn] was
    called, so that a property can say which candidates were probed. *)
Inductive event : Type :=
| LoggerWarning (msg : string)
| LoggerInfo (msg : string)
| Print (msg : string)
| Probe (token : string) (found : bool).

(** The process environment [os.environ], the file system as [glob.glob]
    sees it, and the home directory [expanduser("~")]. *)
Record World : Type := {
  environ : gmap string string;
  glob : string -> list string;
  home : string
}.

(** The attributes of a [Launcher] instance.  [cpuinfo] is an object of the
    sibling module [cpu_info] and no method below reads it.  [logger] tells
    whether a (truthy) logger was injected. *)
Record Launcher : Type := {
  logger : bool;
  library_paths : list string;
  ma_supported : list string;
  omp_supported : list string;
  environ_set : gmap string string;
  ld_preload : list string
}.

Definition with_environ_set (e : gmap string string) (l : Launcher) : Launcher :=
  {| logger := logger l; library_paths := library_paths l;
     ma_supported := ma_supported l; omp_supported := omp_supported l;
     environ_set := e; ld_preload := ld_preload l |}.

Definition with_ld_preload (p : list string) (l : Launcher) : Launcher :=
  {| logger := logger l; library_paths := library_paths l;
     ma_supported := ma_supported l; omp_supported := omp_supported l;
     environ_set := environ_set l; ld_preload := p |}.

(** ** The monad of the methods *)

(** What a call leaves behind: the value returned or the exception raised,
    the launcher as the call left it, and the output of the call, oldest
    first. *)
Record Outcome (A : Type) : Type := {
  value : result A;
  after : Launcher;
  emitted : list event
}.
Arguments value {A} _.
Arguments after {A} _.
Arguments emitted {A} _.

Definition M (A : Type) : Type := Launcher -> Outcome A.

Definition ret {A} (a : A) : M A :=
  fun l => {| value := Ok a; after := l; emitted := [] |}.

Definition bind {A B} (m : M A) (k : A -> M B) : M B :=
  fun l =>
    let o := m l in
    match value o with
    | Ok a =>
        let o' := k a (after o) in
        {| value := value o'; after := after o';
           emitted := emitted o ++ emitted o' |}
    | Raise e =>
        {| value := Raise e; after := after o; emitted := emitted o |}
    end.

Definition raise {A} (e : exn) : M A :=
  fun l => {| value := Raise e; after := l; emitted := [] |}.

Definition get_self : M Launcher :=
  fun l => {| value := Ok l; after := l; emitted := [] |}.

Definition update_self (f : Launcher -> Launcher) : M unit :=
  fun l => {| value := Ok tt; after := f l; emitted := [] |}.

Definition emit (ev : event) : M unit :=
  fun l => {| value := Ok tt; after := l; emitted := [ev] |}.

Declare Scope py_scope.
Delimit Scope py_scope with py.
Notation "x <- m ;; k" := (bind m (fun x => k))
  (at level 100, m at next level, right associativity) : py_scope.
Notation "m ;;; k" := (bind m (fun _ => k))
  (at level 100, right associativity) : py_scope.
Local Open Scope py_scope.

(** [l[i]] *)
Definition getitem (l : list string) (i : nat) : M string :=
  match l !! i with
  | Some x => ret x
  | None => raise IndexError
  end.

(** [x in l] *)
Definition py_in (x : string) (l : list string) : bool := bool_decide (x ∈ l).
Arguments py_in : simpl never.

(** A Python [dict] with string keys, in insertion order. *)
Definition dict (V : Type) : Type := list (string * V).

Fixpoint dict_lookup {V} (d : dict V) (key : string) : option V :=
  match d with
  | [] => None
  | (k, v) :: d' => if String.eqb k key then Some v else dict_lookup d' key
  end.

(** [d[key]] *)
Definition dict_getitem {V} (d : dict V) (key : string) : M V :=
  match dict_lookup d key with
  | Some v => ret v
  | None => raise (KeyError key)
  end.

(** ** [Launcher.__init__] *)

Definition init (w : World) (logger : bool) : Launcher :=
  let conda :=
    match environ w !! "CONDA_PREFIX" with
    | Some p => [p +:+ "/lib/"]
    | None => []
    end in
  let venv :=
    match environ w !! "VIRTUAL_ENV" with
    | Some p => [p +:+ "/lib/"]
    | None => []
    end in
  {| logger := logger;
     library_paths :=
       (conda ++ venv)
       ++ [ home w +:+ "/.local/lib/";
            "/usr/local/lib/";
            "/usr/local/lib64/";
            "/usr/lib/";
            "/usr/lib64/";
            "/usr/lib/x86_64-linux-gnu/" ];
     ma_supported := ["auto"; "default"; "tcmalloc"; "jemalloc"];
     omp_supported := ["auto"; "default"; "intel"];
     environ_set := ∅;
     ld_preload :=
       match environ w !! "LD_PRELOAD" with
       | Some v => Str.split ":" v
       | None => []
       end |}.

(** ** [Launcher.verbose] *)

Definition verbose (level msg : string) : M unit :=
  slf <- get_self;;
  if logger slf then
    if String.eqb level "warning" then emit (LoggerWarning msg)
    else if String.eqb level "info" then emit (LoggerInfo msg)
    else raise (AssertionError
                  ("Unrecognized logging level " +:+ level
                   +:+ " is detected. Available levels are "
                   +:+ "dict_keys(['warning', 'info'])" +:+ "."))
  else emit (Print msg).

(** The event that [verbose level msg] produces for a recognised level. *)
Definition said (l : Launcher) (level msg : string) : event :=
  if logger l then
    if String.eqb level "warning" then LoggerWarning msg else LoggerInfo msg
  else Print msg.
Arguments said : simpl never.

Section Methods.

Variable w : World.

(** ** [Launcher.add_lib_preload] *)

(** [f"lib{lib_type}.so"] *)
Definition lib_so (lib_type : string) : string :=
  "lib" +:+ lib_type +:+ ".so".

(** The pattern handed to [glob.glob] for one search directory: the
    directory without its final slash, then [f"/lib{lib_type}.so"]. *)
Definition library_file (lib_path lib_type : string) : string :=
  let lib_path :=
    if Str.endswith lib_path "/" then Str.drop_last lib_path else lib_path in
  lib_path +:+ "/lib" +:+ lib_type +:+ ".so".

(** The loop over [self.library_paths]: the first match of the first
    directory that has one. *)
Fixpoint find_library (paths : list string) (lib_type : string) : option string :=
  match paths with
  | [] => None
  | lib_path :: paths' =>
      match glob w (library_file lib_path lib_type) with
      | m :: _ => Some m
      | [] => find_library paths' lib_type
      end
  end.

Definition add_lib_preload (lib_type : string) : M bool :=
  slf <- get_self;;
  let lib_set :=
    existsb (fun item => Str.endswith item (lib_so lib_type)) (ld_preload slf) in
  if lib_set then ret true
  else
    match find_library (library_paths slf) lib_type with
    | Some m =>
        update_self (with_ld_preload (ld_preload slf ++ [m]));;;
        ret true
    | None => ret false
    end.

(** ** [Launcher.add_env] *)

(** [os.environ[name]] *)
Definition environ_getitem (name : string) : M string :=
  match environ w !! name with
  | Some v => ret v
  | None => raise (KeyError name)
  end.

(** [os.getenv(name, "")] *)
Definition getenv (name : string) : string :=
  default "" (environ w !! name).

Definition env_conflict_msg (env_name ambient env_value : string) : string :=
  env_name +:+ " in environment variable is " +:+ ambient
  +:+ " while the value you would like to set                     is "
  +:+ env_value +:+ ". Use the exsiting value.".

Definition add_env (env_name env_value : string) : M unit :=
  let value := getenv env_name in
  if negb (String.eqb value "") && negb (String.eqb value env_value) then
    ambient <- environ_getitem env_name;;
    verbose "warning" (env_conflict_msg env_name ambient env_value);;;
    ambient' <- environ_getitem env_name;;
    slf <- get_self;;
    update_self (with_environ_set (<[env_name := ambient']> (environ_set slf)))
  else
    slf <- get_self;;
    update_self (with_environ_set (<[env_name := env_value]> (environ_set slf))).

(** ** [Launcher.set_lib_bin_from_list] *)

(** The argument [fn]: the bound method [self.add_lib_preload], or any
    other function from a search token to a boolean, which may update
    the launcher.  The comparison [fn == self.add_lib_preload] holds for
    the first only. *)
Inductive probe_fn : Type :=
| preload_probe
| other_probe (f : string -> Launcher -> bool * Launcher).

Definition is_add_lib_preload (fn : probe_fn) : bool :=
  match fn with
  | preload_probe => true
  | other_probe _ => false
  end.

(** [fn(token)], leaving a [Probe] event behind. *)
Definition call_fn (fn : probe_fn) (token : string) : M bool :=
  found <- match fn with
           | preload_probe => add_lib_preload token
           | other_probe f =>
               fun l =>
                 {| value := Ok (fst (f token l)); after := snd (f token l);
                    emitted := [] |}
           end;;
  emit (Probe token found);;;
  ret found.

(** A value of [name_map]: the search token and the install command. *)
Definition lib_entry : Type := (string * string)%type.

Definition unknown_msg (category name_input name_local : string)
    (supported : list string) : string :=
  "Designated " +:+ category +:+ " '" +:+ name_input
  +:+ "' is unknown. Changing it to '" +:+ name_local
  +:+ "'.                     Supported " +:+ category +:+ " are "
  +:+ Str.repr_list supported +:+ ".".

Definition not_applicable_msg (category name_input name_local : string)
    (supported : list string) : string :=
  "Designated " +:+ category +:+ " '" +:+ name_input
  +:+ "' is not applicable at this moment. Changing it to '" +:+ name_local
  +:+ "'                    . Please choose another " +:+ category
  +:+ " from " +:+ Str.repr_list supported +:+ ".".

Definition use_msg (name_local category extra : string) : string :=
  "Use '" +:+ name_local +:+ "' " +:+ category +:+ "." +:+ extra.

Definition use_auto_msg (name_local name category : string) : string :=
  "Use '" +:+ name_local +:+ "' => '" +:+ name +:+ "' " +:+ category +:+ ".".

Definition not_found_msg (supported : list string) (category : string)
    (paths : list string) : M string :=
  let rest := drop 2 supported in
  msg <- (if (length rest =? 1)%nat then
            s2 <- getitem supported 2;;
            ret ("'" +:+ s2 +:+ "' " +:+ category +:+ " is not found")
          else if (length rest <? 3)%nat then
            ret ("Neither of " +:+ Str.repr_list rest +:+ " " +:+ category
                 +:+ " is found")
          else
            ret ("None of " +:+ Str.repr_list rest +:+ " " +:+ category
                 +:+ " is found"));;
  ret (msg +:+ " in " +:+ Str.repr_list paths +:+ ".").

Definition install_guide (command : string) : string :=
  " You can install it with " +:+ Str.one Str.dquote +:+ command
  +:+ Str.one Str.dquote +:+ ".".

Definition unable_msg (name_local category : string) (paths : list string)
    (guide : string) : string :=
  "Unable to find the '" +:+ name_local +:+ "' " +:+ category
  +:+ " library file in " +:+ Str.repr_list paths
  +:+ ".                        " +:+ guide.

(** [f" {extra}"] when [extra] is not empty. *)
Definition spaced (extra : string) : string :=
  if negb (String.eqb extra "") then " " +:+ extra else extra.

(** Lines 163 to 177: the lower-cased name, sent back to [supported[0]]
    when it is unknown, and again when it is in [skip_list]. *)
Definition normalize (name_input category : string)
    (supported skip_list : list string) : M string :=
  let name_local := Str.lower name_input in
  name_local <-
    (if negb (py_in name_local supported) then
       name_local <- getitem supported 0;;
       verbose "warning" (unknown_msg category name_input name_local supported);;;
       ret name_local
     else ret name_local);;
  if py_in name_local skip_list then
    name_local <- getitem supported 0;;
    verbose "warning"
      (not_applicable_msg category name_input name_local supported);;;
    ret name_local
  else ret name_local.

(** Lines 179 to 185: the loop over [supported[2:]].  [name_local] is the
    name on entry; the result is the name on leaving the loop. *)
Fixpoint probe_candidates (name_map : dict lib_entry) (category : string)
    (fn : probe_fn) (skip_list : list string) (name_local : string)
    (names : list string) : M string :=
  match names with
  | [] => ret name_local
  | name :: names' =>
      if py_in name skip_list then
        probe_candidates name_map category fn skip_list name_local names'
      else
        entry <- dict_getitem name_map name;;
        found <- call_fn fn (fst entry);;
        if found then
          verbose "info" (use_auto_msg name_local name category);;;
          ret name
        else
          probe_candidates name_map category fn skip_list name_local names'
  end.

(** [list.remove(x)]: drops the first item equal to [x]; [None] stands
    for the [ValueError] raised when there is none. *)
Fixpoint list_remove (x : string) (l : list string) : option (list string) :=
  match l with
  | [] => None
  | y :: l' =>
      if String.eqb y x then Some l'
      else (fun r => y :: r) <$> list_remove x l'
  end.

(** Lines 234 to 236: [for item in self.ld_preload] with the removal in
    its body.  The list iterator holds an index [i] into the list as it
    is now; it stops when [i] is past the end.  The list never grows in
    the loop, so [fuel] turns are enough when [fuel] is its length at the
    start. *)
Fixpoint remove_matching (fuel : nat) (file : string) (i : nat) : M unit :=
  match fuel with
  | O => ret tt
  | S fuel' =>
      slf <- get_self;;
      match ld_preload slf !! i with
      | None => ret tt
      | Some item =>
          (if Str.endswith item file then
             match list_remove item (ld_preload slf) with
             | Some l' => update_self (with_ld_preload l')
             | None => raise ValueError
             end
           else ret tt);;;
          remove_matching fuel' file (S i)
      end
  end.

(** Lines 231 to 236: the loop over [name_map.items()]. *)
Fixpoint drop_other_libs (items : dict lib_entry) (name_local : string) : M unit :=
  match items with
  | [] => ret tt
  | (k, v) :: items' =>
      (if String.eqb k name_local then ret tt
       else
         slf <- get_self;;
         remove_matching (length (ld_preload slf)) (lib_so (fst v)) 0);;;
      drop_other_libs items' name_local
  end.

(** Lines 178 to 229: the choice, from the normalized name. *)
Definition resolve (name_local : string) (name_map : dict lib_entry)
    (category : string) (supported : list string) (fn : probe_fn)
    (skip_list : list string) (extra : string) : M string :=
  s0 <- getitem supported 0;;
  if String.eqb name_local s0 then
    name_local <- probe_candidates name_map category fn skip_list name_local
                    (drop 2 supported);;
    s0 <- getitem supported 0;;
    if String.eqb name_local s0 then
      name_local <- getitem supported 1;;
      (if (0 <? length (drop 2 supported))%nat then
         slf <- get_self;;
         msg <- not_found_msg supported category (library_paths slf);;
         verbose "warning" msg
       else ret tt);;;
      verbose "info" (use_msg name_local category (spaced extra));;;
      ret name_local
    else ret name_local
  else if py_in name_local (drop 2 supported) then
    entry <- dict_getitem name_map name_local;;
    found <- call_fn fn (fst entry);;
    if negb found then
      entry <- dict_getitem name_map name_local;;
      let guide :=
        if negb (String.eqb (snd entry) "") then install_guide (snd entry)
        else "" in
      slf <- get_self;;
      verbose "warning"
        (unable_msg name_local category (library_paths slf) guide);;;
      name_local <- getitem supported 1;;
      verbose "info" (use_msg name_local category (spaced extra));;;
      ret name_local
    else
      verbose "info" (use_msg name_local category "");;;
      ret name_local
  else
    verbose "info" (use_msg name_local category "");;;
    ret name_local.

Definition set_lib_bin_from_list (name_input : string)
    (name_map : dict lib_entry) (category : string)
    (supported : list string) (fn : probe_fn) (skip_list : list string)
    (extra_warning_msg_with_default_choice : string) : M string :=
  name_local <- normalize name_input category supported skip_list;;
  name_local <- resolve name_local name_map category supported fn skip_list
                  extra_warning_msg_with_default_choice;;
  (if is_add_lib_preload fn then drop_other_libs name_map name_local
   else ret tt);;;
  ret name_local.

(** ** [Launcher.set_memory_allocator] *)

Definition ma_lib_name : dict lib_entry :=
  [ ("jemalloc", ("jemalloc", "conda install -c conda-forge jemalloc"));
    ("tcmalloc", ("tcmalloc", "conda install -c conda-forge gperftools")) ].

Definition set_memory_allocator (memory_allocator : string)
    (benchmark : bool) (skip_list : list string) : M string :=
  slf <- get_self;;
  ma_local <- set_lib_bin_from_list memory_allocator ma_lib_name
                "memory allocator" (ma_supported slf) preload_probe
                skip_list "This may drop the performance.";;
  (if String.eqb ma_local "jemalloc" then
     if benchmark then
       add_env "MALLOC_CONF"
         "oversize_threshold:1,background_thread:false,metadata_thp:always,dirty_decay_ms:-1,muzzy_decay_ms:-1"
     else
       add_env "MALLOC_CONF"
         "oversize_threshold:1,background_thread:true,metadata_thp:auto"
   else ret tt);;;
  ret ma_local.

(** ** [Launcher.set_omp_runtime] *)

Definition omp_lib_name : dict lib_entry :=
  [ ("intel", ("iomp5", "conda install intel-openmp")) ].

Definition set_omp_runtime (omp_runtime : string) (set_kmp_affinity : bool)
    : M string :=
  slf <- get_self;;
  omp_local <- set_lib_bin_from_list omp_runtime omp_lib_name
                 "OpenMP runtime" (omp_supported slf) preload_probe [] "";;
  (if String.eqb omp_local "intel" then
     (if set_kmp_affinity then
        add_env "KMP_AFFINITY" "granularity=fine,compact,1,0"
      else ret tt);;;
     add_env "KMP_BLOCKTIME" "1"
   else if String.eqb omp_local "default" then
     add_env "OMP_SCHEDULE" "STATIC";;;
     add_env "OMP_PROC_BIND" "CLOSE"
   else ret tt);;;
  ret omp_local.

End Methods.

(** A file system without wild cards: [glob.glob] of a pattern that is the
    path of one of [files] returns that path, and nothing otherwise. *)
Definition glob_of_files (files : list string) (pattern : string) : list string :=
  if bool_decide (pattern ∈ files) then [pattern] else [].

(** The launcher after [add_env] wrote [value] under [name] in the overlay. *)
Definition recorded (name value : string) (l : Launcher) : Launcher :=
  with_environ_set (<[name := value]> (environ_set l)) l.

(** An outcome with [evs] emitted before it. *)
Definition prepend {A} (evs : list event) (o : Outcome A) : Outcome A :=
  {| value := value o; after := after o; emitted := evs ++ emitted o |}.

(** ** Sample worlds and launchers *)

(** No environment variable is set and no library is installed. *)
Definition bare_world : World :=
  {| environ := ∅; glob := glob_of_files []; home := "/root" |}.

(** The ambient environment already sets [OMP_SCHEDULE]. *)
Definition dynamic_world : World :=
  {| environ := {[ "OMP_SCHEDULE" := "DYNAMIC" ]};
     glob := glob_of_files []; home := "/root" |}.

(** The ambient environment sets [OMP_SCHEDULE] to the empty string. *)
Definition blank_world : World :=
  {| environ := {[ "OMP_SCHEDULE" := "" ]};
     glob := glob_of_files []; home := "/root" |}.

(** [libjemalloc.so] is installed under [/usr/lib/]. *)
Definition jemalloc_world : World :=
  {| environ := ∅; glob := glob_of_files ["/usr/lib/libjemalloc.so"];
     home := "/root" |}.

(** [libtcmalloc.so] is installed under [/usr/lib/]. *)
Definition tcmalloc_world : World :=
  {| environ := ∅; glob := glob_of_files ["/usr/lib/libtcmalloc.so"];
     home := "/root" |}.

(** [libjemalloc.so] is named by the ambient [LD_PRELOAD] and is in none
    of the search directories; [libtcmalloc.so] is installed. *)
Definition preset_world : World :=
  {| environ := {[ "LD_PRELOAD" := "/opt/je/libjemalloc.so" ]};
     glob := glob_of_files ["/usr/lib/libtcmalloc.so"];
     home := "/root" |}.

(** The ambient [LD_PRELOAD] names two copies of [libtcmalloc.so]. *)
Definition twin_tcmalloc_world : World :=
  {| environ := {[ "LD_PRELOAD" := "/a/libtcmalloc.so:/b/libtcmalloc.so" ]};
     glob := glob_of_files []; home := "/root" |}.

(** The ambient [LD_PRELOAD] names two copies of [libjemalloc.so]. *)
Definition twin_jemalloc_world : World :=
  {| environ := {[ "LD_PRELOAD" := "/a/libjemalloc.so:/b/libjemalloc.so" ]};
     glob := glob_of_files []; home := "/root" |}.

(** The ambient [LD_PRELOAD] names [libtcmalloc.so], and [libjemalloc.so]
    is installed under [/usr/lib/]. *)
Definition mixed_world : World :=
  {| environ := {[ "LD_PRELOAD" := "/a/libtcmalloc.so" ]};
     glob := glob_of_files ["/usr/lib/libjemalloc.so"];
     home := "/root" |}.

(** ** Vocabulary of the properties *)

(** The calls to [fn] among the events, in order, with what they returned. *)
Fixpoint probed (evs : list event) : list (string * bool) :=
  match evs with
  | [] => []
  | Probe token found :: evs' => (token, found) :: probed evs'
  | _ :: evs' => probed evs'
  end.

(** The message [msg] went out as a warning: to the logger's [warning], or
    to the console when there is no logger. *)
Definition warned (evs : list event) (msg : string) : Prop :=
  LoggerWarning msg ∈ evs \/ Print msg ∈ evs.

(** The search token that [name_map] gives for a candidate. *)
Definition token_of (name_map : dict lib_entry) (name : string) : string :=
  match dict_lookup name_map name with
  | Some entry => fst entry
  | None => ""
  end.

Arguments token_of : simpl never.

(** The candidates that [skip_list] leaves. *)
Definition allowed (skip_list names : list string) : list string :=
  filter (fun name => name ∉ skip_list) names.

(** Some entry of the preload list is a file [lib<token>.so]. *)
Definition preloaded (l : Launcher) (token : string) : bool :=
  existsb (fun item => Str.endswith item (lib_so token)) (ld_preload l).

(** What [add_lib_preload token] answers on the launcher [l]. *)
Definition available (w : World) (l : Launcher) (token : string) : bool :=
  preloaded l token
  || match find_library w (library_paths l) token with
     | Some _ => true
     | None => false
     end.

(** The launcher that [add_lib_preload token] leaves. *)
Definition probed_launcher (w : World) (l : Launcher) (token : string) : Launcher :=
  if preloaded l token then l
  else
    match find_library w (library_paths l) token with
    | Some m => with_ld_preload (ld_preload l ++ [m]) l
    | None => l
    end.

(** The list that [l.remove(x)] leaves when [x] is in [l]. *)
Fixpoint remove_first (x : string) (p : list string) : list string :=
  match p with
  | [] => []
  | y :: p' => if String.eqb y x then p' else y :: remove_first x p'
  end.

(** The preload list that the loop [remove_matching] leaves, started at
    index [i] on the list [p]. *)
Fixpoint swept (file : string) (fuel i : nat) (p : list string) : list string :=
  match fuel with
  | O => p
  | S fuel' =>
      match p !! i with
      | None => p
      | Some item =>
          swept file fuel' (S i)
            (if Str.endswith item file then remove_first item p else p)
      end
  end.

(** The preload list that [drop_other_libs] leaves. *)
Fixpoint cleaned (items : dict lib_entry) (name_local : string)
    (p : list string) : list string :=
  match items with
  | [] => p
  | (k, v) :: items' =>
      cleaned items' name_local
        (if String.eqb k name_local then p
         else swept (lib_so (fst v)) (length p) 0 p)
  end.

(** How the warning of the fallback names the candidates: the single
    candidate by its name, several candidates as a list. *)
Definition named (cands : list string) : string :=
  match cands with
  | [c] => c
  | _ => Str.repr_list cands
  end.

(** The install hint as the warning of a failed explicit request shows it. *)
Definition guide_of (entry : lib_entry) : string :=
  if negb (String.eqb (snd entry) "") then install_guide (snd entry) else "".

(** [add_env] meets a conflict: the ambient value is not empty and is not
    the desired one. *)
Definition conflicting (w : World) (name desired : string) : bool :=
  negb (String.eqb (getenv w name) "")
  && negb (String.eqb (getenv w name) desired).

(** The value that [add_env] writes to the overlay. *)
Definition settled (w : World) (name desired : string) : string :=
  if conflicting w name desired then getenv w name else desired.

(** The output of [add_env]. *)
Definition env_warning (w : World) (name desired : string) (l : Launcher)
    : list event :=
  if conflicting w name desired then
    [said l "warning" (env_conflict_msg name (getenv w name) desired)]
  else [].

(** The two presets of [MALLOC_CONF]. *)
Definition malloc_conf (benchmark : bool) : string :=
  if benchmark then
    "oversize_threshold:1,background_thread:false,metadata_thp:always,dirty_decay_ms:-1,muzzy_decay_ms:-1"
  else "oversize_threshold:1,background_thread:true,metadata_thp:auto".

(** What [set_memory_allocator] does to the launcher once the allocator is
    resolved to [r]. *)
Definition tuned_allocator (w : World) (benchmark : bool) (r : string)
    (l : Launcher) : Launcher :=
  if String.eqb r "jemalloc" then
    recorded "MALLOC_CONF" (settled w "MALLOC_CONF" (malloc_conf benchmark)) l
  else l.

(** What [set_omp_runtime] does to the launcher once the runtime is
    resolved to [r]. *)
Definition tuned_runtime (w : World) (set_kmp_affinity : bool) (r : string)
    (l : Launcher) : Launcher :=
  if String.eqb r "intel" then
    recorded "KMP_BLOCKTIME" (settled w "KMP_BLOCKTIME" "1")
      (if set_kmp_affinity then
         recorded "KMP_AFFINITY"
           (settled w "KMP_AFFINITY" "granularity=fine,compact,1,0") l
       else l)
  else if String.eqb r "default" then
    recorded "OMP_PROC_BIND" (settled w "OMP_PROC_BIND" "CLOSE")
      (recorded "OMP_SCHEDULE" (settled w "OMP_SCHEDULE" "STATIC") l)
  else l.

(** The number of entries of [p] that [f] accepts. *)
Fixpoint count_if (f : string -> bool) (p : list string) : nat :=
  match p with
  | [] => 0
  | x :: p' => (if f x then 1 else 0) + count_if f p'
  end.

(** The entries of [p] that are a file [file]. *)
Definition count_files (file : string) (p : list string) : nat :=
  count_if (fun x => Str.endswith x file) p.

(** The entry [x] is the library file of some candidate of [name_map]. *)
Definition is_lib_of (name_map : dict lib_entry) (x : string) : bool :=
  existsb (fun kv => Str.endswith x (lib_so (fst (snd kv)))) name_map.

(** The entries of [p] whose search token belongs to [name_map]. *)
Definition count_libs (name_map : dict lib_entry) (p : list string) : nat :=
  count_if (is_lib_of name_map) p.

(** ** The resolution policy, in the words of the specification *)

(** The first name of the list that is available. *)
Fixpoint first_available (av : string -> bool) (names : list string)
    : option string :=
  match names with
  | [] => None
  | name :: names' =>
      if av name then Some name else first_available av names'
  end.

(** Normalization and exclusion: the request in lower case; [auto] when
    that is not in the preference list, or is in the exclusion set. *)
Definition normalized_name (supported skip_list : list string)
    (name_input : string) : string :=
  let n := Str.lower name_input in
  if py_in n supported && negb (py_in n skip_list) then n else "auto".

(** The resolved choice for a normalized name [n], where [av] tells which
    candidates the probe finds: for [auto], the first candidate in priority
    order, excluded ones skipped, that the probe finds, and the default
    when there is none; for a candidate, that candidate when the probe
    finds it, and the default otherwise; for the default, the default. *)
Definition resolution_policy (av : string -> bool) (d : string)
    (cands skip_list : list string) (n : string) : string :=
  if String.eqb n "auto" then
    default d (first_available av (allowed skip_list cands))
  else if py_in n cands then
    if av n then n else d
  else d.

(** The launcher after the probes of a resolution with the preload search
    that chose [r]: only a chosen candidate has been added to the preload
    list, if it was not there. *)
Definition landing (w : World) (l : Launcher) (name_map : dict lib_entry)
    (cands : list string) (r : string) : Launcher :=
  if py_in r cands then probed_launcher w l (token_of name_map r) else l.

(** ** Range lists, as the parser's contract describes them *)

(** A token of a range list: one integer, or a pair low-high. *)
Inductive token : Type :=
| Single (n : nat)
| Span (lo hi : nat).

(** A natural number in decimal digits. *)
Definition decimal (n : nat) : string :=
  NilEmpty.string_of_uint (Nat.to_uint n).

Definition render_token (t : token) : string :=
  match t with
  | Single n => decimal n
  | Span lo hi => decimal lo +:+ "-" +:+ decimal hi
  end.

(** The text of a range list: its tokens, separated by commas. *)
Definition render (toks : list token) : string :=
  Str.join "," (map render_token toks).

(** The low bound of a pair does not exceed the high bound. *)
Definition ordered (t : token) : Prop :=
  match t with
  | Single _ => True
  | Span lo hi => (lo <= hi)%nat
  end.

(** The integers that a token names or spans, in order. *)
Definition spanned (t : token) : list Z :=
  match t with
  | Single n => [Z.of_nat n]
  | Span lo hi => Parse.range_incl (Z.of_nat lo) (Z.of_nat hi)
  end.

(** The set of all integers named or spanned by a range list. *)
Definition denoted (toks : list token) : gset Z :=
  list_to_set (concat (map spanned toks)).

(** Every character of [s] passes [f]. *)
Fixpoint every (f : ascii -> bool) (s : string) : bool :=
  match s with
  | EmptyString => true
  | String c s' => f c && every f s'
  end.

(** ** Vocabulary of the further properties *)

(** A home directory under a Conda prefix and a virtual environment;
    [libiomp5.so] is installed in both, and in [/usr/lib/]. *)
Definition conda_world : World :=
  {| environ := {[ "CONDA_PREFIX" := "/opt/conda"; "VIRTUAL_ENV" := "/venv";
                   "LD_PRELOAD" := "/a/libx.so:/b/liby.so" ]};
     glob := glob_of_files ["/usr/lib/libiomp5.so"; "/venv/lib/libiomp5.so";
                            "/opt/conda/lib/libiomp5.so"];
     home := "/root" |}.

(** The ambient environment sets [MALLOC_CONF], and [libjemalloc.so] is
    installed under [/usr/lib/]. *)
Definition tuned_world : World :=
  {| environ := {[ "MALLOC_CONF" := "narenas:1" ]};
     glob := glob_of_files ["/usr/lib/libjemalloc.so"]; home := "/root" |}.

(** The value of [name] in the process environment when it is set and not
    empty, and [preset] otherwise. *)
Definition ambient_or (w : World) (name preset : string) : string :=
  match environ w !! name with
  | Some a => if String.eqb a "" then preset else a
  | None => preset
  end.

(** The overlay [E] does not contradict the process environment: a name
    that the environment sets to a value that is not empty has that value
    in [E], when [E] has the name. *)
Definition agrees (w : World) (E : gmap string string) : Prop :=
  forall name v a,
    E !! name = Some v -> environ w !! name = Some a -> a <> "" -> v = a.

(** What the public methods keep of a fresh launcher: the two preference
    lists, the search directories, and an overlay that agrees with the
    process environment. *)
Definition sound (w : World) (l : Launcher) : Prop :=
  ma_supported l = ["auto"; "default"; "tcmalloc"; "jemalloc"]
  /\ omp_supported l = ["auto"; "default"; "intel"]
  /\ library_paths l = library_paths (init w (logger l))
  /\ agrees w (environ_set l).

(** The launchers that the public methods produce from a fresh one. *)
Inductive reachable (w : World) : Launcher -> Prop :=
| reach_init (logger : bool) : reachable w (init w logger)
| reach_add_lib_preload (lib_type : string) (l : Launcher) :
    reachable w l -> reachable w (after (add_lib_preload w lib_type l))
| reach_add_env (env_name env_value : string) (l : Launcher) :
    reachable w l -> reachable w (after (add_env w env_name env_value l))
| reach_set_memory_allocator (memory_allocator : string) (benchmark : bool)
    (skip_list : list string) (l : Launcher) :
    reachable w l ->
    reachable w
      (after (set_memory_allocator w memory_allocator benchmark skip_list l))
| reach_set_omp_runtime (omp_runtime : string) (set_kmp_affinity : bool)
    (l : Launcher) :
    reachable w l ->
    reachable w (after (set_omp_runtime w omp_runtime set_kmp_affinity l)).

(** The integer [z] is the one that the token names, or lies between its
    bounds, the bounds included. *)
Definition covers (t : token) (z : Z) : Prop :=
  match t with
  | Single n => z = Z.of_nat n
  | Span lo hi => Z.of_nat lo <= z <= Z.of_nat hi
  end.

(** * Properties *)

(** ** Strings *)

Section StrFacts.

Lemma append_nil (b : string) : "" +:+ b = b.
Proof. reflexivity. Qed.

Lemma append_cons (c : ascii) (x b : string) :
  String c x +:+ b = String c (x +:+ b).
Proof. reflexivity. Qed.

Lemma append_empty (x : string) : x +:+ "" = x.
Proof.
  induction x as [|c x IH]; [reflexivity|].
  rewrite append_cons. f_equal. exact IH.
Qed.

Lemma prefix_append (x b : string) : String.prefix x (x +:+ b) = true.
Proof.
  induction x as [|c x IH].
  - rewrite append_nil. now destruct b.
  - rewrite append_cons. simpl.
    destruct (ascii_dec c c) as [_|Hne]; [exact IH | now destruct Hne].
Qed.

Lemma contains_prefix (s x : string) :
  String.prefix x s = true -> Str.contains s x = true.
Proof. destruct s; simpl; intros ->; reflexivity. Qed.

Lemma contains_here (x b : string) : Str.contains (x +:+ b) x = true.
Proof. apply contains_prefix, prefix_append. Qed.

Lemma contains_later (a b x : string) :
  Str.contains b x = true -> Str.contains (a +:+ b) x = true.
Proof.
  intros H. induction a as [|c a IH]; [exact H|].
  rewrite append_cons. simpl. rewrite IH. apply orb_true_r.
Qed.

Lemma prefix_weaken (x a b : string) :
  String.prefix x a = true -> String.prefix x (a +:+ b) = true.
Proof.
  revert a. induction x as [|c x IH]; intros a H; [now destruct (a +:+ b)|].
  destruct a as [|c' a]; [discriminate|].
  rewrite append_cons. simpl in *.
  destruct (ascii_dec c c'); [now apply IH | discriminate].
Qed.

Lemma contains_left (a b x : string) :
  Str.contains a x = true -> Str.contains (a +:+ b) x = true.
Proof.
  induction a as [|c a IH]; intros H.
  - simpl in H. rewrite orb_false_r in H. rewrite append_nil.
    apply contains_prefix. destruct x; [now destruct b | discriminate].
  - rewrite append_cons.
    change (Str.contains (String c (a +:+ b)) x)
      with (String.prefix x (String c (a +:+ b)) || Str.contains (a +:+ b) x).
    change (Str.contains (String c a) x)
      with (String.prefix x (String c a) || Str.contains a x) in H.
    apply orb_true_iff in H as [H|H].
    + rewrite <- append_cons, (prefix_weaken _ _ _ H). reflexivity.
    + rewrite (IH H). apply orb_true_r.
Qed.

Lemma contains_last (x : string) : Str.contains x x = true.
Proof.
  pose proof (contains_here x "") as H.
  now rewrite append_empty in H.
Qed.

(** Two suffixes of one string that have the same length are equal. *)
Lemma endswith_same_length (x a b : string) :
  String.length a = String.length b ->
  Str.endswith x a = true -> Str.endswith x b = true -> a = b.
Proof.
  unfold Str.endswith. intros Hlen Ha Hb. rewrite <- Hlen in Hb.
  apply andb_true_iff in Ha as [_ Ha]. apply andb_true_iff in Hb as [_ Hb].
  apply String.eqb_eq in Ha, Hb. congruence.
Qed.

Lemma endswith_apart (x a b : string) :
  String.length a = String.length b -> a <> b ->
  Str.endswith x a = true -> Str.endswith x b = false.
Proof.
  intros Hlen Hne Ha. destruct (Str.endswith x b) eqn:Hb; [|reflexivity].
  destruct Hne. now apply (endswith_same_length x).
Qed.

End StrFacts.

(** Finds an interpolated value in a message built by [+:+]. *)
Ltac in_message :=
  solve [ apply contains_here
        | apply contains_last
        | apply contains_later; in_message
        | apply contains_left; in_message ].

(** ** Running the monad *)

Section Run.

Context {A B : Type}.

Lemma prepend_nil (o : Outcome A) : prepend [] o = o.
Proof. now destruct o. Qed.

Lemma prepend_prepend (e1 e2 : list event) (o : Outcome A) :
  prepend e1 (prepend e2 o) = prepend (e1 ++ e2) o.
Proof. unfold prepend. simpl. now rewrite app_assoc. Qed.

Lemma bind_ret (a : A) (k : A -> M B) (l : Launcher) :
  bind (ret a) k l = k a l.
Proof. unfold bind, ret. simpl. now destruct (k a l). Qed.

Lemma bind_raise (e : exn) (k : A -> M B) (l : Launcher) :
  bind (raise e) k l = raise e l.
Proof. reflexivity. Qed.

Lemma bind_get_self (k : Launcher -> M B) (l : Launcher) :
  bind get_self k l = k l l.
Proof. unfold bind, get_self. simpl. now destruct (k l l). Qed.

Lemma bind_update_self (f : Launcher -> Launcher) (k : unit -> M B)
    (l : Launcher) :
  bind (update_self f) k l = k tt (f l).
Proof. unfold bind, update_self. simpl. now destruct (k tt (f l)). Qed.

Lemma bind_emit (ev : event) (k : unit -> M B) (l : Launcher) :
  bind (emit ev) k l = prepend [ev] (k tt l).
Proof. reflexivity. Qed.

Lemma bind_ok (m : M A) (k : A -> M B) (l l' : Launcher) (a : A)
    (evs : list event) :
  m l = {| value := Ok a; after := l'; emitted := evs |} ->
  bind m k l = prepend evs (k a l').
Proof. intros H. unfold bind. now rewrite H. Qed.

Lemma bind_fail (m : M A) (k : A -> M B) (l l' : Launcher) (e : exn)
    (evs : list event) :
  m l = {| value := Raise e; after := l'; emitted := evs |} ->
  bind m k l = {| value := Raise e; after := l'; emitted := evs |}.
Proof. intros H. unfold bind. now rewrite H. Qed.

End Run.

Lemma bind_bind {A B C} (m : M A) (k : A -> M B) (h : B -> M C) (l : Launcher) :
  bind (bind m k) h l = bind m (fun a => bind (k a) h) l.
Proof.
  unfold bind. destruct (m l) as [[a|e] l1 e1]; simpl; [|reflexivity].
  destruct (k a l1) as [[b|e] l2 e2]; simpl; [|reflexivity].
  now rewrite app_assoc.
Qed.

(** ** Logging *)

Section Verbose.

Lemma verbose_warning (msg : string) (l : Launcher) :
  verbose "warning" msg l
  = {| value := Ok tt; after := l; emitted := [said l "warning" msg] |}.
Proof. unfold verbose, said, bind, get_self, emit. simpl. now destruct (logger l). Qed.

Lemma verbose_info (msg : string) (l : Launcher) :
  verbose "info" msg l
  = {| value := Ok tt; after := l; emitted := [said l "info" msg] |}.
Proof. unfold verbose, said, bind, get_self, emit. simpl. now destruct (logger l). Qed.

Lemma verbose_no_logger (level msg : string) (l : Launcher) :
  logger l = false ->
  verbose level msg l
  = {| value := Ok tt; after := l; emitted := [Print msg] |}.
Proof. intros H. unfold verbose, bind, get_self, emit. simpl. now rewrite H. Qed.

Lemma verbose_bad_level (level msg : string) (l : Launcher) :
  logger l = true -> level <> "warning" -> level <> "info" ->
  exists m,
    verbose level msg l
    = {| value := Raise (AssertionError m); after := l; emitted := [] |}
    /\ Str.contains m level = true.
Proof.
  intros H Hw Hi. apply String.eqb_neq in Hw, Hi.
  unfold verbose, bind, get_self, raise. simpl. rewrite H, Hw, Hi. simpl.
  eexists. split; [reflexivity|]. in_message.
Qed.

Lemma bind_verbose_warning {B} (msg : string) (k : unit -> M B) (l : Launcher) :
  bind (verbose "warning" msg) k l = prepend [said l "warning" msg] (k tt l).
Proof. apply bind_ok, verbose_warning. Qed.

Lemma bind_verbose_info {B} (msg : string) (k : unit -> M B) (l : Launcher) :
  bind (verbose "info" msg) k l = prepend [said l "info" msg] (k tt l).
Proof. apply bind_ok, verbose_info. Qed.

End Verbose.

Lemma getitem_0 (x : string) (xs : list string) : getitem (x :: xs) 0 = ret x.
Proof. reflexivity. Qed.

Lemma getitem_1 (x y : string) (xs : list string) :
  getitem (x :: y :: xs) 1 = ret y.
Proof. reflexivity. Qed.

Lemma drop_2 (x y : string) (xs : list string) : drop 2 (x :: y :: xs) = xs.
Proof. reflexivity. Qed.

Create Rewrite HintDb run.
#[local] Hint Rewrite getitem_0 getitem_1 drop_2 : run.
#[local] Hint Rewrite @bind_bind @bind_ret @bind_raise @bind_get_self @bind_update_self
  @bind_emit @bind_verbose_warning @bind_verbose_info @prepend_nil
  @prepend_prepend : run.

(** One step of a method, by the equations of the monad. *)
Ltac run := autorewrite with run.

(** The fields of an outcome that is known. *)
Ltac outcome :=
  unfold prepend, ret, raise; cbn [value after emitted].

(** ** The conflict rule of [add_env] *)

Section AddEnv.

Variable w : World.

Lemma add_env_conflict (name desired ambient : string) (l : Launcher) :
  environ w !! name = Some ambient ->
  ambient <> "" -> ambient <> desired ->
  add_env w name desired l
  = {| value := Ok tt;
       after := recorded name ambient l;
       emitted := [said l "warning" (env_conflict_msg name ambient desired)] |}.
Proof.
  intros Hamb Hne Hdiff.
  unfold add_env, getenv. rewrite Hamb.
  apply String.eqb_neq in Hne, Hdiff.
  change (default ""%string (Some ambient)) with ambient.
  rewrite Hne, Hdiff.
  change (negb false && negb false) with true. cbv iota.
  unfold environ_getitem. rewrite Hamb.
  rewrite bind_ret, (bind_ok _ _ _ _ _ _ (verbose_warning _ _)).
  now rewrite bind_ret, bind_get_self.
Qed.

Lemma add_env_no_conflict (name desired : string) (l : Launcher) :
  getenv w name = "" \/ getenv w name = desired ->
  add_env w name desired l
  = {| value := Ok tt; after := recorded name desired l; emitted := [] |}.
Proof.
  intros H. unfold add_env.
  replace (negb (String.eqb (getenv w name) "")
           && negb (String.eqb (getenv w name) desired)) with false.
  - reflexivity.
  - symmetry. destruct H as [H|H]; rewrite H.
    + reflexivity.
    + rewrite String.eqb_refl. apply andb_false_r.
Qed.

Lemma recorded_lookup (name desired : string) (l : Launcher) :
  environ_set (recorded name desired l) !! name = Some desired.
Proof. unfold recorded, with_environ_set. simpl. apply lookup_insert_eq. Qed.

Lemma add_env_spec (name desired : string) (l : Launcher) :
  add_env w name desired l
  = {| value := Ok tt;
       after := recorded name (settled w name desired) l;
       emitted := env_warning w name desired l |}.
Proof.
  unfold settled, env_warning, conflicting.
  destruct (negb (String.eqb (getenv w name) "")
            && negb (String.eqb (getenv w name) desired)) eqn:Hc.
  - apply andb_true_iff in Hc as [Hne Hdiff].
    apply negb_true_iff, String.eqb_neq in Hne, Hdiff.
    unfold getenv in *.
    destruct (environ w !! name) as [ambient|] eqn:Hamb; [|now destruct Hne].
    now apply add_env_conflict.
  - apply add_env_no_conflict.
    apply andb_false_iff in Hc as [Hc|Hc];
      apply negb_false_iff, String.eqb_eq in Hc; auto.
Qed.

End AddEnv.

(** C4. For every call [add_env name desired]: when the ambient environment
    has [name] set to a non-empty value different from [desired], the
    overlay records the ambient value as it is and the call emits exactly
    one warning, whose text holds both the ambient and the desired value;
    in every other case the overlay records the desired value.  In
    particular, with ambient [OMP_SCHEDULE=DYNAMIC] and the desired value
    [STATIC] the overlay records [DYNAMIC] and one warning is emitted. *)
Theorem add_env_conflict_rule (w : World) (name desired : string) (l : Launcher) :
  (forall ambient,
      environ w !! name = Some ambient ->
      ambient <> "" -> ambient <> desired ->
      exists msg,
        add_env w name desired l
        = {| value := Ok tt; after := recorded name ambient l;
             emitted := [said l "warning" msg] |}
        /\ environ_set (recorded name ambient l) !! name = Some ambient
        /\ Str.contains msg ambient = true
        /\ Str.contains msg desired = true)
  /\ (~ (exists ambient,
            environ w !! name = Some ambient
            /\ ambient <> "" /\ ambient <> desired) ->
      add_env w name desired l
      = {| value := Ok tt; after := recorded name desired l; emitted := [] |}
      /\ environ_set (recorded name desired l) !! name = Some desired)
  /\ (environ w !! "OMP_SCHEDULE" = Some "DYNAMIC" ->
      exists msg,
        add_env w "OMP_SCHEDULE" "STATIC" l
        = {| value := Ok tt; after := recorded "OMP_SCHEDULE" "DYNAMIC" l;
             emitted := [said l "warning" msg] |}
        /\ environ_set (recorded "OMP_SCHEDULE" "DYNAMIC" l) !! "OMP_SCHEDULE"
           = Some "DYNAMIC"
        /\ Str.contains msg "DYNAMIC" = true
        /\ Str.contains msg "STATIC" = true).
Proof.
  split; [|split].
  - intros ambient Hamb Hne Hdiff.
    exists (env_conflict_msg name ambient desired).
    split; [now apply add_env_conflict|].
    split; [apply recorded_lookup|].
    unfold env_conflict_msg. split; in_message.
  - intros Hno. split; [|apply recorded_lookup].
    apply add_env_no_conflict. unfold getenv.
    destruct (environ w !! name) as [ambient|] eqn:Hamb; [|now left].
    simpl. destruct (String.eqb_spec ambient ""); [now left|].
    destruct (String.eqb_spec ambient desired); [now right|].
    destruct Hno. now exists ambient.
  - intros Hamb.
    exists (env_conflict_msg "OMP_SCHEDULE" "DYNAMIC" "STATIC").
    split; [now apply add_env_conflict|].
    split; [apply recorded_lookup|].
    split; reflexivity.
Qed.

Lemma add_env_conflict_rule_witness :
  (exists msg,
      add_env dynamic_world "OMP_SCHEDULE" "STATIC" (init dynamic_world false)
      = {| value := Ok tt;
           after := recorded "OMP_SCHEDULE" "DYNAMIC" (init dynamic_world false);
           emitted := [Print msg] |})
  /\ value (add_env bare_world "OMP_SCHEDULE" "STATIC" (init bare_world false))
     = Ok tt.
Proof.
  pose proof (add_env_conflict_rule dynamic_world "OMP_SCHEDULE" "STATIC"
                (init dynamic_world false)) as [_ [_ Hdyn]].
  pose proof (add_env_conflict_rule bare_world "OMP_SCHEDULE" "STATIC"
                (init bare_world false)) as [_ [Hbare _]].
  split.
  - destruct (Hdyn eq_refl) as [msg [Hrun _]]. exists msg. exact Hrun.
  - destruct Hbare as [Hrun _].
    + intros [ambient [Hamb _]]. vm_compute in Hamb. discriminate Hamb.
    + now rewrite Hrun.
Defined.

(** C10. For every call [add_env name desired]: when the ambient variable
    [name] is unset, or set to the empty string, the overlay records the
    desired value and the call emits nothing; an ambient variable set to
    the empty string does not win over the desired value. *)
Theorem add_env_unset_or_empty (w : World) (name desired : string) (l : Launcher) :
  environ w !! name = None \/ environ w !! name = Some "" ->
  add_env w name desired l
  = {| value := Ok tt; after := recorded name desired l; emitted := [] |}
  /\ environ_set (recorded name desired l) !! name = Some desired.
Proof.
  intros H. split; [|apply recorded_lookup].
  apply add_env_no_conflict. left. unfold getenv.
  now destruct H as [-> | ->].
Qed.

Lemma add_env_unset_or_empty_witness :
  environ_set
    (after (add_env blank_world "OMP_SCHEDULE" "STATIC" (init blank_world false)))
  !! "OMP_SCHEDULE" = Some "STATIC"
  /\ emitted (add_env blank_world "OMP_SCHEDULE" "STATIC" (init blank_world false))
     = [].
Proof.
  destruct (add_env_unset_or_empty blank_world "OMP_SCHEDULE" "STATIC"
              (init blank_world false)) as [Hrun Hrec].
  - right. reflexivity.
  - rewrite Hrun. split; [exact Hrec | reflexivity].
Defined.


(** ** Normalizing the requested name *)

Section Normalize.

Lemma py_in_true (x : string) (l : list string) : py_in x l = true <-> x ∈ l.
Proof. unfold py_in. apply bool_decide_eq_true. Qed.

Lemma py_in_false (x : string) (l : list string) : py_in x l = false <-> x ∉ l.
Proof. unfold py_in. apply bool_decide_eq_false. Qed.

Variables (name_input category s0 : string) (rest skip_list : list string).
Variable l : Launcher.

Let supported := s0 :: rest.

Lemma normalize_known :
  Str.lower name_input ∈ supported ->
  Str.lower name_input ∉ skip_list ->
  normalize name_input category supported skip_list l
  = {| value := Ok (Str.lower name_input); after := l; emitted := [] |}.
Proof.
  intros Hin Hskip. unfold normalize.
  apply py_in_true in Hin. apply py_in_false in Hskip.
  rewrite Hin. simpl. run. now rewrite Hskip.
Qed.

Lemma normalize_unknown :
  Str.lower name_input ∉ supported ->
  s0 ∉ skip_list ->
  normalize name_input category supported skip_list l
  = {| value := Ok s0; after := l;
       emitted := [said l "warning"
                     (unknown_msg category name_input s0 supported)] |}.
Proof.
  intros Hin Hskip. unfold normalize.
  apply py_in_false in Hin. apply py_in_false in Hskip.
  rewrite Hin. simpl. unfold getitem. simpl. run.
  rewrite Hskip. reflexivity.
Qed.

Lemma normalize_unknown_skipped :
  Str.lower name_input ∉ supported ->
  s0 ∈ skip_list ->
  normalize name_input category supported skip_list l
  = {| value := Ok s0; after := l;
       emitted := [said l "warning"
                     (unknown_msg category name_input s0 supported);
                   said l "warning"
                     (not_applicable_msg category name_input s0 supported)] |}.
Proof.
  intros Hin Hskip. unfold normalize.
  apply py_in_false in Hin. apply py_in_true in Hskip.
  rewrite Hin. simpl. unfold getitem. simpl. run.
  rewrite Hskip. run. reflexivity.
Qed.

Lemma normalize_skipped :
  Str.lower name_input ∈ supported ->
  Str.lower name_input ∈ skip_list ->
  normalize name_input category supported skip_list l
  = {| value := Ok s0; after := l;
       emitted := [said l "warning"
                     (not_applicable_msg category name_input s0 supported)] |}.
Proof.
  intros Hin Hskip. unfold normalize.
  apply py_in_true in Hin. apply py_in_true in Hskip.
  rewrite Hin. simpl. run. rewrite Hskip.
  unfold getitem. simpl. run. reflexivity.
Qed.

(** Whatever the request, the name that leaves the normalization is the
    lower-cased request or [supported[0]], the launcher is left as it
    was, and nothing is raised. *)
Lemma normalize_total :
  exists n evs,
    normalize name_input category supported skip_list l
    = {| value := Ok n; after := l; emitted := evs |}
    /\ (n = s0 \/ (n = Str.lower name_input /\ n ∈ supported /\ n ∉ skip_list)).
Proof.
  destruct (decide (Str.lower name_input ∈ supported)) as [Hin|Hin];
    destruct (decide (Str.lower name_input ∈ skip_list)) as [Hsk|Hsk].
  - eexists _, _. split; [now apply normalize_skipped | now left].
  - eexists _, _. split; [now apply normalize_known | now right].
  - destruct (decide (s0 ∈ skip_list)).
    + eexists _, _. split; [now apply normalize_unknown_skipped | now left].
    + eexists _, _. split; [now apply normalize_unknown | now left].
  - destruct (decide (s0 ∈ skip_list)).
    + eexists _, _. split; [now apply normalize_unknown_skipped | now left].
    + eexists _, _. split; [now apply normalize_unknown | now left].
Qed.

End Normalize.

(** ** Probing *)

Section Probing.

Variable w : World.

Lemma probed_app (e1 e2 : list event) : probed (e1 ++ e2) = probed e1 ++ probed e2.
Proof.
  induction e1 as [|ev e1 IH]; [reflexivity|].
  destruct ev; simpl; now rewrite IH.
Qed.

Lemma probed_said (l : Launcher) (level msg : string) :
  probed [said l level msg] = [].
Proof.
  unfold said. destruct (logger l); [|reflexivity].
  now destruct (String.eqb level "warning").
Qed.

Lemma warned_said (l : Launcher) (msg : string) (evs : list event) :
  said l "warning" msg ∈ evs -> warned evs msg.
Proof.
  unfold said, warned. destruct (logger l); simpl; [now left | now right].
Qed.

Lemma add_lib_preload_spec (token : string) (l : Launcher) :
  add_lib_preload w token l
  = {| value := Ok (available w l token);
       after := probed_launcher w l token; emitted := [] |}.
Proof.
  unfold add_lib_preload, available, probed_launcher, preloaded. run.
  destruct (existsb _ (ld_preload l)); [reflexivity|].
  destruct (find_library w (library_paths l) token); [|reflexivity].
  run. reflexivity.
Qed.

(** A call to [fn] returns a boolean and leaves one [Probe] event. *)
Lemma call_fn_total (fn : probe_fn) (token : string) (l : Launcher) :
  exists found l',
    call_fn w fn token l
    = {| value := Ok found; after := l'; emitted := [Probe token found] |}.
Proof.
  unfold call_fn. destruct fn as [|f].
  - eexists _, _. rewrite (bind_ok _ _ _ _ _ _ (add_lib_preload_spec _ _)).
    run. reflexivity.
  - eexists _, _. erewrite bind_ok by reflexivity. run. reflexivity.
Qed.

Lemma call_fn_preload (token : string) (l : Launcher) :
  call_fn w preload_probe token l
  = {| value := Ok (available w l token);
       after := probed_launcher w l token;
       emitted := [Probe token (available w l token)] |}.
Proof.
  unfold call_fn.
  rewrite (bind_ok _ _ _ _ _ _ (add_lib_preload_spec _ _)). run. reflexivity.
Qed.

Lemma probed_launcher_unavailable (l : Launcher) (token : string) :
  available w l token = false -> probed_launcher w l token = l.
Proof.
  unfold available, probed_launcher.
  destruct (preloaded l token); [discriminate|].
  now destruct (find_library w (library_paths l) token).
Qed.

End Probing.

(** ** The allowed candidates and their tokens *)

Section Allowed.

Variable skip_list : list string.

Lemma allowed_skip (name : string) (names : list string) :
  name ∈ skip_list -> allowed skip_list (name :: names) = allowed skip_list names.
Proof. intros H. unfold allowed. rewrite filter_cons_False; [reflexivity | tauto]. Qed.

Lemma allowed_keep (name : string) (names : list string) :
  name ∉ skip_list ->
  allowed skip_list (name :: names) = name :: allowed skip_list names.
Proof. intros H. unfold allowed. now rewrite filter_cons_True. Qed.

Lemma allowed_elem (name : string) (names : list string) :
  name ∈ allowed skip_list names <-> name ∈ names /\ name ∉ skip_list.
Proof. unfold allowed. rewrite list_elem_of_filter. tauto. Qed.

Lemma token_of_entry (name_map : dict lib_entry) (name : string)
    (entry : lib_entry) :
  dict_lookup name_map name = Some entry -> token_of name_map name = fst entry.
Proof. intros H. unfold token_of. now rewrite H. Qed.

End Allowed.

(** ** The loop over the candidates *)

Section Candidates.

Variable w : World.
Variables (name_map : dict lib_entry) (category : string).
Variable skip_list : list string.

Let missed (x : string) : string * bool := (token_of name_map x, false).

(** The loop, for any probe function: it stops at the first allowed
    candidate whose probe answers true, and it has probed the allowed
    candidates before that one, and no other. *)
Lemma probe_candidates_spec (fn : probe_fn) (name_local : string)
    (names : list string) (l : Launcher) :
  let o := probe_candidates w name_map category fn skip_list name_local names l in
  (exists pre c post,
      allowed skip_list names = pre ++ c :: post
      /\ value o = Ok c
      /\ probed (emitted o) = map missed pre ++ [(token_of name_map c, true)])
  \/ (value o = Ok name_local
      /\ probed (emitted o) = map missed (allowed skip_list names))
  \/ (exists c,
         c ∈ allowed skip_list names
         /\ dict_lookup name_map c = None
         /\ value o = Raise (KeyError c)).
Proof.
  revert l. induction names as [|name names IH]; intros l; simpl.
  - right. left. split; reflexivity.
  - destruct (py_in name skip_list) eqn:Hskip.
    + apply py_in_true in Hskip. rewrite (allowed_skip _ _ _ Hskip). apply IH.
    + apply py_in_false in Hskip. rewrite (allowed_keep _ _ _ Hskip).
      unfold dict_getitem.
      destruct (dict_lookup name_map name) as [entry|] eqn:Hentry.
      * run. destruct (call_fn_total w fn (fst entry) l) as [found [l' Hcall]].
        rewrite (bind_ok _ _ _ _ _ _ Hcall).
        rewrite (token_of_entry _ _ _ Hentry) || idtac.
        destruct found.
        -- left. exists [], name, (allowed skip_list names).
           run. outcome. rewrite !probed_app, probed_said.
           rewrite (token_of_entry _ _ _ Hentry). repeat split; reflexivity.
        -- specialize (IH l'). simpl in IH.
           destruct IH as [[pre [c [post [Hsplit [Hval Hprobed]]]]]
                          |[[Hval Hprobed]|[c [Hin [Hnone Hval]]]]].
           ++ left. exists (name :: pre), c, post. outcome.
              rewrite Hsplit, Hval, probed_app, Hprobed. simpl. unfold missed.
              rewrite (token_of_entry _ _ _ Hentry). repeat split; reflexivity.
           ++ right. left. outcome. rewrite Hval, probed_app, Hprobed.
              simpl. unfold missed.
              rewrite (token_of_entry _ _ _ Hentry). split; reflexivity.
           ++ right. right. exists c. outcome. rewrite Hval.
              repeat split; [now right | assumption].
      * right. right. exists name. run. repeat split; [now left | assumption].
Qed.

(** The loop with the preload search as probe: failed probes leave the
    launcher as it was, so every probe is answered on the launcher the
    loop started from. *)
Lemma probe_candidates_preload (name_local : string) (names : list string)
    (l : Launcher) :
  (forall c, c ∈ allowed skip_list names -> is_Some (dict_lookup name_map c)) ->
  let o := probe_candidates w name_map category preload_probe skip_list
             name_local names l in
  (exists pre c post,
      allowed skip_list names = pre ++ c :: post
      /\ (forall x, x ∈ pre -> available w l (token_of name_map x) = false)
      /\ available w l (token_of name_map c) = true
      /\ value o = Ok c
      /\ after o = probed_launcher w l (token_of name_map c))
  \/ ((forall x, x ∈ allowed skip_list names ->
                 available w l (token_of name_map x) = false)
      /\ value o = Ok name_local
      /\ after o = l).
Proof.
  induction names as [|name names IH]; intros Hkeys; simpl.
  - right. repeat split. intros x Hx. inversion Hx.
  - destruct (py_in name skip_list) eqn:Hskip.
    + apply py_in_true in Hskip. rewrite (allowed_skip _ _ _ Hskip) in *.
      now apply IH.
    + apply py_in_false in Hskip. rewrite (allowed_keep _ _ _ Hskip) in *.
      destruct (Hkeys name) as [entry Hentry]; [now left|].
      unfold dict_getitem. rewrite Hentry. run.
      rewrite (bind_ok _ _ _ _ _ _ (call_fn_preload w _ _)).
      rewrite <- (token_of_entry _ _ _ Hentry).
      destruct (available w l (token_of name_map name)) eqn:Hav.
      * left. exists [], name, (allowed skip_list names). run. outcome.
        repeat split; [|assumption]. intros x Hx. inversion Hx.
      * rewrite (probed_launcher_unavailable _ _ _ Hav).
        destruct IH as [[pre [c [post [Hsplit [Hpre [Hc [Hval Haft]]]]]]]
                       |[Hall [Hval Haft]]].
        -- intros c Hc. apply Hkeys. now right.
        -- left. exists (name :: pre), c, post. outcome.
           rewrite Hsplit. repeat split; try assumption.
           intros x Hx. apply elem_of_cons in Hx as [->|Hx]; auto.
        -- right. outcome. repeat split; try assumption.
           intros x Hx. apply elem_of_cons in Hx as [->|Hx]; auto.
Qed.

End Candidates.

(** ** Dropping the other libraries from the preload list *)

Section Cleanup.

Lemma with_ld_preload_same (l : Launcher) : with_ld_preload (ld_preload l) l = l.
Proof. now destruct l. Qed.

Lemma with_ld_preload_twice (p q : list string) (l : Launcher) :
  with_ld_preload p (with_ld_preload q l) = with_ld_preload p l.
Proof. reflexivity. Qed.

Lemma list_remove_spec (x : string) (p : list string) :
  x ∈ p -> list_remove x p = Some (remove_first x p).
Proof.
  induction p as [|y p IH]; intros Hin; [inversion Hin|].
  simpl. destruct (String.eqb_spec y x) as [->|Hne]; [reflexivity|].
  apply elem_of_cons in Hin as [->|Hin]; [congruence|].
  now rewrite (IH Hin).
Qed.

(** The loop never raises, touches the preload list only, and emits
    nothing. *)
Lemma remove_matching_spec (file : string) (fuel i : nat) (l : Launcher) :
  remove_matching fuel file i l
  = {| value := Ok tt;
       after := with_ld_preload (swept file fuel i (ld_preload l)) l;
       emitted := [] |}.
Proof.
  revert i l. induction fuel as [|fuel IH]; intros i l; simpl.
  - now rewrite with_ld_preload_same.
  - run. destruct (ld_preload l !! i) as [item|] eqn:Hitem.
    + run. destruct (Str.endswith item file).
      * rewrite list_remove_spec by (eapply list_elem_of_lookup_2; eauto).
        run. rewrite IH. reflexivity.
      * run. apply IH.
    + unfold ret. now rewrite with_ld_preload_same.
Qed.

Lemma drop_other_libs_spec (items : dict lib_entry) (name_local : string)
    (l : Launcher) :
  drop_other_libs items name_local l
  = {| value := Ok tt;
       after := with_ld_preload (cleaned items name_local (ld_preload l)) l;
       emitted := [] |}.
Proof.
  revert l. induction items as [|[k v] items IH]; intros l; simpl.
  - unfold ret. now rewrite with_ld_preload_same.
  - run. destruct (String.eqb k name_local).
    + run. apply IH.
    + run. rewrite (bind_ok _ _ _ _ _ _ (remove_matching_spec _ _ _ _)).
      run. rewrite IH. reflexivity.
Qed.

End Cleanup.

(** ** The choice, from the normalized name *)

Section Resolve.

Variable w : World.
Variables (name_map : dict lib_entry) (category : string).
Variables (s0 d : string) (cands skip_list : list string).
Variable extra : string.

Local Abbreviation supported := (s0 :: d :: cands).
Let missed (x : string) : string * bool := (token_of name_map x, false).

Lemma not_found_msg_spec (l : Launcher) :
  cands <> [] ->
  exists msg,
    not_found_msg supported category (library_paths l) l
    = {| value := Ok msg; after := l; emitted := [] |}
    /\ Str.contains msg (named cands) = true
    /\ Str.contains msg (Str.repr_list (library_paths l)) = true.
Proof.
  intros Hne. unfold not_found_msg.
  change (drop 2 (s0 :: d :: cands)) with cands.
  destruct cands as [|c [|c' cands']]; [congruence| |].
  - change (length [c] =? 1)%nat with true. cbv iota.
    unfold getitem. change ([s0; d; c] !! 2%nat) with (Some c). run.
    eexists. split; [reflexivity|]. split; in_message.
  - change (length (c :: c' :: cands') =? 1)%nat with false. cbv iota.
    destruct (length (c :: c' :: cands') <? 3)%nat; run;
      (eexists; split; [reflexivity|]; split; in_message).
Qed.

(** What follows the loop over the candidates, from the outcome of the
    loop. *)
Lemma resolve_after_loop (fn : probe_fn) (l l' : Launcher) (c : string)
    (evs : list event) :
  probe_candidates w name_map category fn skip_list s0 cands l
  = {| value := Ok c; after := l'; emitted := evs |} ->
  (c <> s0 ->
   resolve w s0 name_map category supported fn skip_list extra l
   = {| value := Ok c; after := l'; emitted := evs |})
  /\ (c = s0 ->
      exists evs',
        resolve w s0 name_map category supported fn skip_list extra l
        = {| value := Ok d; after := l'; emitted := evs ++ evs' |}
        /\ probed evs' = []
        /\ (cands <> [] ->
            exists msg,
              warned evs' msg
              /\ Str.contains msg (named cands) = true
              /\ Str.contains msg (Str.repr_list (library_paths l')) = true)).
Proof.
  intros Hrun. unfold resolve. run. rewrite String.eqb_refl. run.
  rewrite (bind_ok _ _ _ _ _ _ Hrun). run. split.
  - intros Hne. apply String.eqb_neq in Hne. rewrite Hne. outcome.
    now rewrite app_nil_r.
  - intros ->. rewrite String.eqb_refl. run.
    destruct (0 <? length cands)%nat eqn:Hlen.
    + run. destruct (not_found_msg_spec l') as [msg [Hmsg [Hnamed Hpaths]]].
      { intros E. rewrite E in Hlen. discriminate Hlen. }
      rewrite (bind_ok _ _ _ _ _ _ Hmsg). run. outcome.
      rewrite ?app_nil_r, <- ?app_assoc.
      eexists. split; [reflexivity|]. split.
      * now rewrite ?app_nil_r, ?probed_app, ?probed_said.
      * intros _. exists msg. repeat split; try assumption.
        apply (warned_said l'). rewrite !elem_of_app, !elem_of_cons. tauto.
    + run. outcome. rewrite ?app_nil_r, <- ?app_assoc.
      eexists. split; [reflexivity|]. split.
      * now rewrite ?app_nil_r, ?probed_said.
      * intros Hne. exfalso. apply Hne.
        apply Nat.ltb_ge in Hlen. apply length_zero_iff_nil. lia.
Qed.

Lemma resolve_loop_fails (fn : probe_fn) (l l' : Launcher) (e : exn)
    (evs : list event) :
  probe_candidates w name_map category fn skip_list s0 cands l
  = {| value := Raise e; after := l'; emitted := evs |} ->
  resolve w s0 name_map category supported fn skip_list extra l
  = {| value := Raise e; after := l'; emitted := evs |}.
Proof.
  intros Hrun. unfold resolve. run. rewrite String.eqb_refl. run.
  now rewrite (bind_fail _ _ _ _ _ _ Hrun).
Qed.

(** The normalized name is [supported[0]]. *)
Lemma resolve_auto_spec (fn : probe_fn) (l : Launcher) :
  let o := resolve w s0 name_map category supported fn skip_list extra l in
  (exists pre c post,
      allowed skip_list cands = pre ++ c :: post
      /\ c <> s0
      /\ value o = Ok c
      /\ probed (emitted o) = map missed pre ++ [(token_of name_map c, true)])
  \/ (value o = Ok d
      /\ (s0 ∉ cands ->
          probed (emitted o) = map missed (allowed skip_list cands))
      /\ (cands <> [] ->
          exists msg,
            warned (emitted o) msg
            /\ Str.contains msg (named cands) = true
            /\ Str.contains msg (Str.repr_list (library_paths (after o))) = true))
  \/ (exists c,
         c ∈ allowed skip_list cands
         /\ dict_lookup name_map c = None
         /\ value o = Raise (KeyError c)).
Proof.
  cbv zeta.
  pose proof (probe_candidates_spec w name_map category skip_list fn s0 cands l)
    as Hloop. cbv zeta in Hloop.
  destruct (probe_candidates w name_map category fn skip_list s0 cands l)
    as [v l' evs] eqn:Hrun. cbn [value after emitted] in Hloop.
  assert (Hfallback :
    v = Ok s0 ->
    let o := resolve w s0 name_map category supported fn skip_list extra l in
    value o = Ok d
    /\ probed (emitted o) = probed evs
    /\ (cands <> [] ->
        exists msg,
          warned (emitted o) msg
          /\ Str.contains msg (named cands) = true
          /\ Str.contains msg (Str.repr_list (library_paths (after o))) = true)).
  { intros ->. cbv zeta.
    destruct (resolve_after_loop fn l l' s0 evs Hrun) as [_ Hsame].
    destruct (Hsame eq_refl) as [evs' [Hres [Hprobed Hwarn]]].
    rewrite Hres. cbn [value after emitted].
    split; [reflexivity|]. split; [now rewrite probed_app, Hprobed, app_nil_r|].
    intros Hne. destruct (Hwarn Hne) as [msg [Hw Hmsg]].
    exists msg. split; [|exact Hmsg].
    destruct Hw as [Hw|Hw]; [left | right]; apply elem_of_app; now right. }
  cbv zeta in Hfallback.
  destruct Hloop as [[pre [c [post [Hsplit [Hval Hprobed]]]]]
                    |[[Hval Hprobed]|[c [Hin [Hnone Hval]]]]];
    subst v.
  - destruct (String.eqb_spec c s0) as [->|Hne].
    + right. left. destruct (Hfallback eq_refl) as [Hv [Hp Hw]].
      split; [exact Hv|]. split; [|exact Hw].
      intros Hnot. exfalso. apply Hnot.
      assert (Hc : s0 ∈ allowed skip_list cands)
        by (rewrite Hsplit, elem_of_app, elem_of_cons; tauto).
      now apply allowed_elem in Hc.
    + left. exists pre, c, post.
      destruct (resolve_after_loop fn l l' c evs Hrun) as [Hres _].
      rewrite (Hres Hne). cbn [value after emitted]. auto.
  - right. left. destruct (Hfallback eq_refl) as [Hv [Hp Hw]].
    split; [exact Hv|]. split; [|exact Hw].
    intros _. etransitivity; [exact Hp | exact Hprobed].
  - right. right. exists c.
    rewrite (resolve_loop_fails fn l l' _ evs Hrun). auto.
Qed.

(** The normalized name is one of the candidates. *)
Lemma resolve_explicit (fn : probe_fn) (n : string) (entry : lib_entry)
    (l : Launcher) :
  n <> s0 -> n ∈ cands -> dict_lookup name_map n = Some entry ->
  exists found l',
    call_fn w fn (fst entry) l
    = {| value := Ok found; after := l';
         emitted := [Probe (fst entry) found] |}
    /\ resolve w n name_map category supported fn skip_list extra l
       = if found then
           {| value := Ok n; after := l';
              emitted := [Probe (fst entry) true;
                          said l' "info" (use_msg n category "")] |}
         else
           {| value := Ok d; after := l';
              emitted := [Probe (fst entry) false;
                          said l' "warning"
                            (unable_msg n category (library_paths l')
                               (guide_of entry));
                          said l' "info"
                            (use_msg d category (spaced extra))] |}.
Proof.
  intros Hne Hin Hentry.
  destruct (call_fn_total w fn (fst entry) l) as [found [l' Hcall]].
  exists found, l'. split; [exact Hcall|].
  unfold resolve. run.
  apply String.eqb_neq in Hne. rewrite Hne.
  apply py_in_true in Hin. rewrite Hin.
  unfold dict_getitem. rewrite Hentry. run.
  rewrite (bind_ok _ _ _ _ _ _ Hcall).
  destruct found; cbn [negb]; cbv iota; run; reflexivity.
Qed.

Lemma resolve_explicit_missing (fn : probe_fn) (n : string) (l : Launcher) :
  n <> s0 -> n ∈ cands -> dict_lookup name_map n = None ->
  resolve w n name_map category supported fn skip_list extra l
  = {| value := Raise (KeyError n); after := l; emitted := [] |}.
Proof.
  intros Hne Hin Hentry. unfold resolve. run.
  apply String.eqb_neq in Hne. rewrite Hne.
  apply py_in_true in Hin. rewrite Hin.
  unfold dict_getitem. rewrite Hentry. run. reflexivity.
Qed.

(** The normalized name is neither [supported[0]] nor a candidate: it is
    the default choice, which needs no probe. *)
Lemma resolve_default (fn : probe_fn) (n : string) (l : Launcher) :
  n <> s0 -> n ∉ cands ->
  resolve w n name_map category supported fn skip_list extra l
  = {| value := Ok n; after := l;
       emitted := [said l "info" (use_msg n category "")] |}.
Proof.
  intros Hne Hin. unfold resolve. run.
  apply String.eqb_neq in Hne. rewrite Hne.
  apply py_in_false in Hin. rewrite Hin. run. reflexivity.
Qed.

End Resolve.

(** ** [set_lib_bin_from_list] as a whole *)

Section Whole.

Variable w : World.
Variables (name_input : string) (name_map : dict lib_entry) (category : string).
Variables (supported : list string) (fn : probe_fn) (skip_list : list string).
Variable extra : string.

(** The three steps of the method: the normalization, the choice, and,
    for the preload search, the sweep of the preload list. *)
Lemma set_lib_bin_from_list_steps (l : Launcher) (n : string)
    (evs0 : list event) :
  normalize name_input category supported skip_list l
  = {| value := Ok n; after := l; emitted := evs0 |} ->
  let o := resolve w n name_map category supported fn skip_list extra l in
  let whole := set_lib_bin_from_list w name_input name_map category supported
                 fn skip_list extra l in
  value whole = value o
  /\ emitted whole = evs0 ++ emitted o
  /\ after whole
     = match value o with
       | Ok r =>
           if is_add_lib_preload fn then
             with_ld_preload (cleaned name_map r (ld_preload (after o))) (after o)
           else after o
       | Raise _ => after o
       end.
Proof.
  intros Hnorm. cbv zeta. unfold set_lib_bin_from_list.
  rewrite (bind_ok _ _ _ _ _ _ Hnorm).
  destruct (resolve w n name_map category supported fn skip_list extra l)
    as [[r|e] l1 e1] eqn:Hres.
  - rewrite (bind_ok _ _ _ _ _ _ Hres).
    destruct (is_add_lib_preload fn).
    + rewrite (bind_ok _ _ _ _ _ _ (drop_other_libs_spec _ _ _)).
      outcome. rewrite !app_nil_r. auto.
    + run. outcome. rewrite !app_nil_r. auto.
  - rewrite (bind_fail _ _ _ _ _ _ Hres). outcome. auto.
Qed.

End Whole.

(** C1. For every call to [set_lib_bin_from_list] with a supported list
    [["auto"; d; candidates...]], where the default entry [d] is not
    [auto]: a name the call returns is never [auto]; it is the default
    entry, or a candidate of the list whose probe answered true in this
    call.  And the call does return a name when [name_map] has an entry for
    every candidate that [skip_list] leaves. *)
Theorem resolved_name_never_auto (w : World) (name_input : string)
    (name_map : dict lib_entry) (category d : string)
    (cands skip_list : list string) (fn : probe_fn) (extra : string)
    (l : Launcher) :
  d <> "auto" ->
  let o := set_lib_bin_from_list w name_input name_map category
             ("auto" :: d :: cands) fn skip_list extra l in
  (forall r,
      value o = Ok r ->
      r <> "auto"
      /\ (r = d
          \/ (r ∈ cands /\ (token_of name_map r, true) ∈ probed (emitted o))))
  /\ ((forall c, c ∈ cands -> c ∉ skip_list -> is_Some (dict_lookup name_map c)) ->
      exists r, value o = Ok r).
Proof.
  intros Hd. cbv zeta.
  destruct (normalize_total name_input category "auto" (d :: cands) skip_list l)
    as [n [evs0 [Hnorm Hn]]].
  destruct (set_lib_bin_from_list_steps w name_input name_map category
              ("auto" :: d :: cands) fn skip_list extra l n evs0 Hnorm)
    as [Hvalue [Hemitted _]].
  rewrite Hvalue, Hemitted. clear Hvalue Hemitted Hnorm.
  assert (Hcase : n = "auto"
                  \/ (n <> "auto" /\ n ∈ cands /\ n ∉ skip_list)
                  \/ (n <> "auto" /\ (n ∉ cands) /\ n = d)).
  { destruct Hn as [->|[_ [Hin Hskip]]]; [now left|].
    destruct (decide (n = "auto")) as [->|Hne]; [now left|]. right.
    destruct (decide (n ∈ cands)) as [Hc|Hc]; [now left|]. right.
    repeat split; try assumption.
    apply elem_of_cons in Hin as [->|Hin]; [congruence|].
    apply elem_of_cons in Hin as [->|Hin]; [reflexivity | contradiction]. }
  clear Hn. destruct Hcase as [->|[[Hne [Hin Hskip]]|[Hne [Hin ->]]]].
  - pose proof (resolve_auto_spec w name_map category "auto" d cands skip_list
                  extra fn l) as Hauto. cbv zeta in Hauto.
    destruct Hauto as [[pre [c [post [Hsplit [Hc [Hval Hprobed]]]]]]
                      |[[Hval _]|[c [Hc [Hnone Hval]]]]].
    + split.
      * intros r Hr. rewrite Hval in Hr. injection Hr as <-.
        split; [exact Hc|]. right. split.
        -- assert (Hin : c ∈ allowed skip_list cands)
             by (rewrite Hsplit, elem_of_app, elem_of_cons; tauto).
           now apply allowed_elem in Hin.
        -- rewrite probed_app, Hprobed, !elem_of_app, elem_of_cons. tauto.
      * intros _. now exists c.
    + split.
      * intros r Hr. rewrite Hval in Hr. injection Hr as <-. auto.
      * intros _. now exists d.
    + split.
      * intros r Hr. rewrite Hval in Hr. discriminate Hr.
      * intros Hkeys. apply allowed_elem in Hc as [Hc Hskip].
        destruct (Hkeys c Hc Hskip) as [entry Hentry]. congruence.
  - destruct (dict_lookup name_map n) as [entry|] eqn:Hentry.
    + destruct (resolve_explicit w name_map category "auto" d cands skip_list
                  extra fn n entry l Hne Hin Hentry)
        as [found [l' [_ Hres]]].
      rewrite Hres. destruct found; outcome.
      * split; [|intros _; now exists n].
        intros r Hr. injection Hr as <-. split; [exact Hne|]. right.
        split; [exact Hin|].
        rewrite probed_app, (token_of_entry _ _ _ Hentry), elem_of_app.
        right. simpl. now left.
      * split; [|intros _; now exists d].
        intros r Hr. injection Hr as <-. auto.
    + rewrite (resolve_explicit_missing w name_map category "auto" d cands
                 skip_list extra fn n l Hne Hin Hentry). outcome.
      split; [intros r Hr; discriminate Hr|].
      intros Hkeys. destruct (Hkeys n Hin Hskip) as [entry' Hentry']. congruence.
  - rewrite (resolve_default w name_map category "auto" d cands skip_list
               extra fn d l Hne Hin). outcome.
    split; [|intros _; now exists d].
    intros r Hr. injection Hr as <-. auto.
Qed.

Lemma resolved_name_never_auto_witness :
  "default" <> "auto"
  /\ exists r,
       value (set_lib_bin_from_list jemalloc_world "auto" ma_lib_name
                "memory allocator" ["auto"; "default"; "tcmalloc"; "jemalloc"]
                preload_probe [] "" (init jemalloc_world false)) = Ok r
       /\ r <> "auto".
Proof.
  split; [discriminate|].
  destruct (resolved_name_never_auto jemalloc_world "auto" ma_lib_name
              "memory allocator" "default" ["tcmalloc"; "jemalloc"] []
              preload_probe "" (init jemalloc_world false))
    as [Hname Hreturns]; [discriminate|].
  destruct Hreturns as [r Hr].
  - intros c Hc _.
    apply elem_of_cons in Hc as [->|Hc]; [now eexists|].
    apply elem_of_cons in Hc as [->|Hc]; [now eexists|].
    inversion Hc.
  - exists r. split; [exact Hr|]. exact (proj1 (Hname r Hr)).
Defined.

(** ** Requests that fall back to [auto] *)

Section Fallback.

Variable w : World.
Variables (name_input category s0 : string) (rest skip_list : list string).
Variable l : Launcher.

(** The requests that leave the normalization as [supported[0]]. *)
Lemma normalize_to_first :
  Str.lower name_input = s0
  \/ Str.lower name_input ∉ s0 :: rest
  \/ Str.lower name_input ∈ skip_list ->
  exists evs,
    normalize name_input category (s0 :: rest) skip_list l
    = {| value := Ok s0; after := l; emitted := evs |}
    /\ probed evs = [].
Proof.
  intros H.
  assert (Htwo : forall a b c e, probed [said a b c; said a b e] = []).
  { intros a b c e. change [?x; ?y] with ([x] ++ [y]).
    now rewrite probed_app, !probed_said. }
  destruct (decide (Str.lower name_input ∈ s0 :: rest)) as [Hin|Hin];
    destruct (decide (Str.lower name_input ∈ skip_list)) as [Hsk|Hsk].
  - eexists. split; [now apply normalize_skipped | apply probed_said].
  - destruct H as [H|[H|H]]; try contradiction.
    pose proof (normalize_known name_input category s0 rest skip_list l
                  Hin Hsk) as Hk.
    rewrite H in Hk. eexists. split; [exact Hk | reflexivity].
  - destruct (decide (s0 ∈ skip_list)).
    + eexists. split; [now apply normalize_unknown_skipped | apply Htwo].
    + eexists. split; [now apply normalize_unknown | apply probed_said].
  - destruct (decide (s0 ∈ skip_list)).
    + eexists. split; [now apply normalize_unknown_skipped | apply Htwo].
    + eexists. split; [now apply normalize_unknown | apply probed_said].
Qed.

End Fallback.

(** C7, as stated, fails when [skip_list] holds [auto] itself.  With the
    excluded request [tcmalloc] and with the request [auto], both under
    [skip_list = ["tcmalloc"; "auto"]], the calls return the same name and
    leave the same launcher, but the first emits no event more than the
    second: each emits one warning about an excluded name, [tcmalloc] in
    the one and [auto] in the other. *)
Lemma excluded_auto_no_additional_warning :
  let run name :=
    set_lib_bin_from_list bare_world name ma_lib_name "memory allocator"
      ["auto"; "default"; "tcmalloc"; "jemalloc"] preload_probe
      ["tcmalloc"; "auto"] "" (init bare_world true) in
  Str.lower "tcmalloc" ∈ ["tcmalloc"; "auto"]
  /\ value (run "tcmalloc") = value (run "auto")
  /\ after (run "tcmalloc") = after (run "auto")
  /\ length (emitted (run "tcmalloc")) = length (emitted (run "auto"))
  /\ ~ (exists ev, emitted (run "tcmalloc") = ev :: emitted (run "auto")).
Proof.
  cbv zeta. split; [now left|].
  split; [reflexivity|]. split; [reflexivity|]. split; [reflexivity|].
  intros [ev Hev]. apply (f_equal length) in Hev. vm_compute in Hev.
  discriminate Hev.
Qed.

(** C7, amended.  Let the supported list start with [auto] and let
    [skip_list] not hold [auto].  For every requested name that, once in
    lower case, is not in the supported list or is in [skip_list],
    [set_lib_bin_from_list] returns (or raises) what it does for the request
    [auto] with the same [skip_list], and it leaves the same launcher, so
    the same preload list and the same overlay; its output is the output of
    the [auto] call after one warning, and that warning names the
    request. *)
Theorem unknown_or_excluded_as_auto (w : World) (name_input : string)
    (name_map : dict lib_entry) (category : string)
    (rest skip_list : list string) (fn : probe_fn) (extra : string)
    (l : Launcher) :
  "auto" ∉ skip_list ->
  Str.lower name_input ∉ "auto" :: rest \/ Str.lower name_input ∈ skip_list ->
  let run name :=
    set_lib_bin_from_list w name name_map category ("auto" :: rest) fn
      skip_list extra l in
  value (run name_input) = value (run "auto")
  /\ after (run name_input) = after (run "auto")
  /\ exists msg,
       emitted (run name_input) = said l "warning" msg :: emitted (run "auto")
       /\ Str.contains msg name_input = true.
Proof.
  intros Hauto Hname. cbv zeta.
  assert (Hnorm_auto :
    normalize "auto" category ("auto" :: rest) skip_list l
    = {| value := Ok "auto"; after := l; emitted := [] |}).
  { apply (normalize_known "auto" category "auto" rest skip_list l);
      [now left | exact Hauto]. }
  assert (Hnorm_name : exists msg,
    normalize name_input category ("auto" :: rest) skip_list l
    = {| value := Ok "auto"; after := l; emitted := [said l "warning" msg] |}
    /\ Str.contains msg name_input = true).
  { destruct (decide (Str.lower name_input ∈ "auto" :: rest)) as [Hin|Hin].
    - destruct Hname as [Hname|Hname]; [contradiction|].
      eexists. split; [now apply normalize_skipped|].
      unfold not_applicable_msg. in_message.
    - eexists. split; [now apply normalize_unknown|].
      unfold unknown_msg. in_message. }
  destruct Hnorm_name as [msg [Hnorm_name Hmsg]].
  destruct (set_lib_bin_from_list_steps w "auto" name_map category
              ("auto" :: rest) fn skip_list extra l _ _ Hnorm_auto)
    as [Hv1 [He1 Ha1]].
  destruct (set_lib_bin_from_list_steps w name_input name_map category
              ("auto" :: rest) fn skip_list extra l _ _ Hnorm_name)
    as [Hv2 [He2 Ha2]].
  rewrite Hv1, Hv2, Ha1, Ha2, He1, He2.
  split; [reflexivity|]. split; [reflexivity|].
  exists msg. split; [reflexivity | exact Hmsg].
Qed.

Lemma unknown_or_excluded_as_auto_witness :
  value (set_memory_allocator jemalloc_world "foobar" false []
           (init jemalloc_world false))
  = Ok "jemalloc"
  /\ exists msg,
       emitted (set_lib_bin_from_list jemalloc_world "foobar" ma_lib_name
                  "memory allocator" ["auto"; "default"; "tcmalloc"; "jemalloc"]
                  preload_probe [] "" (init jemalloc_world false))
       = Print msg
         :: emitted (set_lib_bin_from_list jemalloc_world "auto" ma_lib_name
                       "memory allocator"
                       ["auto"; "default"; "tcmalloc"; "jemalloc"]
                       preload_probe [] "" (init jemalloc_world false))
       /\ Str.contains msg "foobar" = true.
Proof.
  split; [reflexivity|].
  destruct (unknown_or_excluded_as_auto jemalloc_world "foobar" ma_lib_name
              "memory allocator" ["default"; "tcmalloc"; "jemalloc"] []
              preload_probe "" (init jemalloc_world false))
    as [_ [_ [msg [Hev Hmsg]]]].
  - intros Hin. inversion Hin.
  - left. vm_compute. intros Hin.
    repeat (apply elem_of_cons in Hin as [Hin|Hin]; [discriminate Hin|]).
    inversion Hin.
  - exists msg. split; [exact Hev | exact Hmsg].
Defined.

(** ** The policy for [auto] *)

(** C2, as stated, fails on a supported list without candidates, which the
    docstring of the method allows: no probe succeeds, the result is the
    default entry, and no warning is emitted, only the closing info line. *)
Lemma no_candidates_no_warning :
  let o := set_lib_bin_from_list bare_world "auto" [] "memory allocator"
             ["auto"; "default"] preload_probe [] "" (init bare_world true) in
  value o = Ok "default"
  /\ probed (emitted o) = []
  /\ emitted o = [LoggerInfo "Use 'default' memory allocator."]
  /\ forall msg, ~ warned (emitted o) msg.
Proof.
  cbv zeta. split; [reflexivity|]. split; [reflexivity|].
  split; [reflexivity|].
  intros msg [Hm|Hm]; vm_compute in Hm;
    apply elem_of_cons in Hm as [Hm|Hm]; try discriminate Hm; inversion Hm.
Qed.

Lemma resolve_no_candidates (w : World) (name_map : dict lib_entry)
    (category d : string) (fn : probe_fn) (skip_list : list string)
    (extra : string) (l : Launcher) :
  resolve w "auto" name_map category ["auto"; d] fn skip_list extra l
  = {| value := Ok d; after := l;
       emitted := [said l "info" (use_msg d category (spaced extra))] |}.
Proof.
  unfold resolve. run. cbn [String.eqb Ascii.eqb Bool.eqb].
  cbn [drop probe_candidates]. run. cbn [String.eqb Ascii.eqb Bool.eqb].
  run. cbn [length Nat.ltb Nat.leb]. run. reflexivity.
Qed.

(** C2, amended.  Let the supported list be [["auto"; d; candidates...]]
    with no candidate named [auto] and a [name_map] entry for every
    candidate that [skip_list] leaves, and let the normalized request be
    [auto]: the request is [auto], or is unknown, or is excluded.  Then
    [set_lib_bin_from_list] probes the candidates that [skip_list] leaves,
    in list order.  Either the call returns the first of them whose probe
    answers true, having probed those before it and none after it; or no
    probe succeeds, the call returns the default entry [d], and, when the
    list has at least one candidate, it emits a warning that names the
    candidates of the list and the search-path list.  When the list has no
    candidate, the call emits what the normalization of the request emits
    and then the closing line that names the default, and nothing else: no
    line at all before the closing one when the request is [auto] and
    [skip_list] does not name it. *)
Theorem auto_policy (w : World) (name_input : string)
    (name_map : dict lib_entry) (category d : string)
    (cands skip_list : list string) (fn : probe_fn) (extra : string)
    (l : Launcher) :
  "auto" ∉ cands ->
  (forall c, c ∈ cands -> c ∉ skip_list -> is_Some (dict_lookup name_map c)) ->
  Str.lower name_input = "auto"
  \/ Str.lower name_input ∉ "auto" :: d :: cands
  \/ Str.lower name_input ∈ skip_list ->
  let o := set_lib_bin_from_list w name_input name_map category
             ("auto" :: d :: cands) fn skip_list extra l in
  let missed c := (token_of name_map c, false) in
  (exists pre c post,
      allowed skip_list cands = pre ++ c :: post
      /\ value o = Ok c
      /\ probed (emitted o) = map missed pre ++ [(token_of name_map c, true)])
  \/ (value o = Ok d
      /\ probed (emitted o) = map missed (allowed skip_list cands)
      /\ (cands <> [] ->
          exists msg,
            warned (emitted o) msg
            /\ Str.contains msg (named cands) = true
            /\ Str.contains msg (Str.repr_list (library_paths (after o))) = true)
      /\ (cands = [] ->
          emitted o
          = emitted (normalize name_input category ("auto" :: d :: cands)
                       skip_list l)
            ++ [said l "info" (use_msg d category (spaced extra))]
          /\ (Str.lower name_input = "auto" -> "auto" ∉ skip_list ->
              emitted o
              = [said l "info" (use_msg d category (spaced extra))]))).
Proof.
  intros Hwf Hkeys Hname. cbv zeta.
  destruct (normalize_to_first name_input category "auto" (d :: cands)
              skip_list l Hname) as [evs0 [Hnorm Hprobed0]].
  destruct (set_lib_bin_from_list_steps w name_input name_map category
              ("auto" :: d :: cands) fn skip_list extra l _ _ Hnorm)
    as [Hvalue [Hemitted Hafter]].
  assert (Hbare : cands = [] ->
            emitted (set_lib_bin_from_list w name_input name_map category
                       ("auto" :: d :: cands) fn skip_list extra l)
            = emitted (normalize name_input category ("auto" :: d :: cands)
                         skip_list l)
              ++ [said l "info" (use_msg d category (spaced extra))]
            /\ (Str.lower name_input = "auto" -> "auto" ∉ skip_list ->
                emitted (set_lib_bin_from_list w name_input name_map category
                           ("auto" :: d :: cands) fn skip_list extra l)
                = [said l "info" (use_msg d category (spaced extra))])).
  { intros Hempty. rewrite Hemitted. subst cands.
    rewrite resolve_no_candidates. cbn [emitted].
    split; [now rewrite Hnorm|].
    intros Hlow Hskip.
    pose proof (normalize_known name_input category "auto" [d] skip_list l)
      as Hknown.
    rewrite Hlow in Hknown.
    rewrite (Hknown (list_elem_of_here _ _) Hskip) in Hnorm.
    injection Hnorm as <-. reflexivity. }
  rewrite Hvalue, Hemitted, Hafter, probed_app, Hprobed0. cbn [app].
  rewrite Hemitted in Hbare.
  clear Hvalue Hemitted Hafter.
  pose proof (resolve_auto_spec w name_map category "auto" d cands skip_list
                extra fn l) as Hauto. cbv zeta in Hauto.
  destruct Hauto as [[pre [c [post [Hsplit [Hc [Hval Hprobed]]]]]]
                    |[[Hval [Hprobed Hwarn]]|[c [Hc [Hnone Hval]]]]].
  - left. exists pre, c, post. auto.
  - right. split; [exact Hval|]. split; [now apply Hprobed|].
    split; [|exact Hbare].
    intros Hne. destruct (Hwarn Hne) as [msg [Hw [Hnamed Hpaths]]].
    exists msg. split; [|split; [exact Hnamed|]].
    + destruct Hw as [Hw|Hw]; [left | right]; apply elem_of_app; now right.
    + rewrite Hval. now destruct (is_add_lib_preload fn).
  - apply allowed_elem in Hc as [Hc Hskip].
    destruct (Hkeys c Hc Hskip) as [entry Hentry]. congruence.
Qed.

Lemma auto_policy_witness :
  exists pre c post,
    allowed [] ["tcmalloc"; "jemalloc"] = pre ++ c :: post
    /\ value (set_lib_bin_from_list jemalloc_world "auto" ma_lib_name
                "memory allocator" ["auto"; "default"; "tcmalloc"; "jemalloc"]
                preload_probe [] "" (init jemalloc_world false)) = Ok c
    /\ c = "jemalloc".
Proof.
  destruct (auto_policy jemalloc_world "auto" ma_lib_name "memory allocator"
              "default" ["tcmalloc"; "jemalloc"] [] preload_probe ""
              (init jemalloc_world false))
    as [[pre [c [post [Hsplit [Hval _]]]]]|[Hval _]].
  - intros Hin.
    repeat (apply elem_of_cons in Hin as [Hin|Hin]; [discriminate Hin|]).
    inversion Hin.
  - intros c Hc _.
    apply elem_of_cons in Hc as [->|Hc]; [now eexists|].
    apply elem_of_cons in Hc as [->|Hc]; [now eexists|].
    inversion Hc.
  - left. reflexivity.
  - exists pre, c, post. split; [exact Hsplit|]. split; [exact Hval|].
    vm_compute in Hval. now injection Hval as <-.
  - vm_compute in Hval. discriminate Hval.
Defined.

(** ** The environment composer *)

Section Composer.

Variable w : World.

Lemma set_memory_allocator_spec (memory_allocator : string) (benchmark : bool)
    (skip_list : list string) (l : Launcher) :
  let o := set_lib_bin_from_list w memory_allocator ma_lib_name
             "memory allocator" (ma_supported l) preload_probe skip_list
             "This may drop the performance." l in
  set_memory_allocator w memory_allocator benchmark skip_list l
  = match value o with
    | Ok r =>
        {| value := Ok r;
           after := tuned_allocator w benchmark r (after o);
           emitted :=
             emitted o
             ++ (if String.eqb r "jemalloc" then
                   env_warning w "MALLOC_CONF" (malloc_conf benchmark) (after o)
                 else []) |}
    | Raise e =>
        {| value := Raise e; after := after o; emitted := emitted o |}
    end.
Proof.
  cbv zeta. unfold set_memory_allocator, tuned_allocator. run.
  destruct (set_lib_bin_from_list w memory_allocator ma_lib_name
              "memory allocator" (ma_supported l) preload_probe skip_list
              "This may drop the performance." l) as [[r|e] l1 e1] eqn:Hrun;
    cbn [value after emitted].
  - rewrite (bind_ok _ _ _ _ _ _ Hrun).
    destruct (String.eqb r "jemalloc").
    + destruct benchmark;
        rewrite (bind_ok _ _ _ _ _ _ (add_env_spec w _ _ _)); outcome;
        now rewrite app_nil_r.
    + run. outcome. reflexivity.
  - now rewrite (bind_fail _ _ _ _ _ _ Hrun).
Qed.

Lemma set_omp_runtime_spec (omp_runtime : string) (set_kmp_affinity : bool)
    (l : Launcher) :
  let o := set_lib_bin_from_list w omp_runtime omp_lib_name "OpenMP runtime"
             (omp_supported l) preload_probe [] "" l in
  let whole := set_omp_runtime w omp_runtime set_kmp_affinity l in
  value whole = value o
  /\ after whole
     = match value o with
       | Ok r => tuned_runtime w set_kmp_affinity r (after o)
       | Raise _ => after o
       end.
Proof.
  cbv zeta. unfold set_omp_runtime, tuned_runtime. run.
  destruct (set_lib_bin_from_list w omp_runtime omp_lib_name "OpenMP runtime"
              (omp_supported l) preload_probe [] "" l) as [[r|e] l1 e1] eqn:Hrun;
    cbn [value after emitted].
  - rewrite (bind_ok _ _ _ _ _ _ Hrun).
    destruct (String.eqb r "intel").
    + destruct set_kmp_affinity.
      * run. rewrite (bind_ok _ _ _ _ _ _ (add_env_spec w _ _ _)).
        rewrite (bind_ok _ _ _ _ _ _ (add_env_spec w _ _ _)). now outcome.
      * run. rewrite (bind_ok _ _ _ _ _ _ (add_env_spec w _ _ _)). now outcome.
    + destruct (String.eqb r "default").
      * run. rewrite (bind_ok _ _ _ _ _ _ (add_env_spec w _ _ _)).
        rewrite (bind_ok _ _ _ _ _ _ (add_env_spec w _ _ _)). now outcome.
      * run. now outcome.
  - now rewrite (bind_fail _ _ _ _ _ _ Hrun).
Qed.

Lemma find_library_none (paths : list string) (lib_type : string) :
  (forall lib_path,
      lib_path ∈ paths -> glob w (library_file lib_path lib_type) = []) ->
  find_library w paths lib_type = None.
Proof.
  induction paths as [|lib_path paths IH]; intros H; [reflexivity|].
  simpl. rewrite (H lib_path) by now left.
  apply IH. intros p Hp. apply H. now right.
Qed.

End Composer.

(** ** The fallback of an explicit request *)

(** C3, as stated, fails in two ways.  First, with [jemalloc] in
    [skip_list]: the request is sent to [auto], [jemalloc] is not probed,
    [tcmalloc] is, and it is the result when it is installed.  Second, the
    overlay may hold a [MALLOC_CONF] entry from an earlier call, and the
    fallback leaves it there: here [jemalloc] is first found in the ambient
    preload list, then dropped from the list by a request for [tcmalloc],
    and the third call falls back to [default]. *)
Lemma jemalloc_fallback_counterexamples :
  (let l := init tcmalloc_world true in
   let o := set_memory_allocator tcmalloc_world "jemalloc" false ["jemalloc"] l in
   preloaded l "jemalloc" = false
   /\ find_library tcmalloc_world (library_paths l) "jemalloc" = None
   /\ value o = Ok "tcmalloc"
   /\ probed (emitted o) = [("tcmalloc", true)])
  /\ (let l0 := init preset_world true in
      let l1 := after (set_memory_allocator preset_world "jemalloc" false [] l0) in
      let l2 := after (set_memory_allocator preset_world "tcmalloc" false [] l1) in
      let o := set_memory_allocator preset_world "jemalloc" false [] l2 in
      preloaded l2 "jemalloc" = false
      /\ find_library preset_world (library_paths l2) "jemalloc" = None
      /\ value o = Ok "default"
      /\ environ_set (after o) !! "MALLOC_CONF"
         = Some "oversize_threshold:1,background_thread:true,metadata_thp:auto").
Proof.
  split; cbv zeta; repeat split; reflexivity.
Qed.

(** C3, amended.  On a launcher with the allocator list of [__init__], let
    the requested allocator be [jemalloc], in any case of letters, and not
    in [skip_list]; let no entry of the preload list be a file
    [libjemalloc.so], and let no search directory have one.  Then
    [set_memory_allocator] probes that candidate only, returns [default],
    emits a warning that holds the install hint of the candidate, and
    leaves the overlay as it was: it adds no [MALLOC_CONF] entry. *)
Theorem jemalloc_fallback (w : World) (memory_allocator : string)
    (benchmark : bool) (skip_list : list string) (l : Launcher) :
  Str.lower memory_allocator = "jemalloc" ->
  ma_supported l = ["auto"; "default"; "tcmalloc"; "jemalloc"] ->
  "jemalloc" ∉ skip_list ->
  preloaded l "jemalloc" = false ->
  (forall lib_path,
      lib_path ∈ library_paths l ->
      glob w (library_file lib_path "jemalloc") = []) ->
  let o := set_memory_allocator w memory_allocator benchmark skip_list l in
  value o = Ok "default"
  /\ probed (emitted o) = [("jemalloc", false)]
  /\ (exists msg,
         warned (emitted o) msg
         /\ Str.contains msg "conda install -c conda-forge jemalloc" = true)
  /\ environ_set (after o) = environ_set l
  /\ environ_set (after o) !! "MALLOC_CONF" = environ_set l !! "MALLOC_CONF".
Proof.
  intros Hname Hsupported Hskip Hpre Hfs. cbv zeta.
  assert (Havail : available w l "jemalloc" = false).
  { unfold available. rewrite Hpre, (find_library_none w _ _ Hfs). reflexivity. }
  assert (Hnorm :
    normalize memory_allocator "memory allocator"
      ["auto"; "default"; "tcmalloc"; "jemalloc"] skip_list l
    = {| value := Ok "jemalloc"; after := l; emitted := [] |}).
  { rewrite <- Hname at 2. apply normalize_known; rewrite Hname; [|exact Hskip].
    rewrite !elem_of_cons. tauto. }
  destruct (resolve_explicit w ma_lib_name "memory allocator" "auto" "default"
              ["tcmalloc"; "jemalloc"] skip_list "This may drop the performance."
              preload_probe "jemalloc"
              ("jemalloc", "conda install -c conda-forge jemalloc") l)
    as [found [l' [Hcall Hres]]];
    [discriminate | rewrite !elem_of_cons; tauto | reflexivity |].
  rewrite call_fn_preload in Hcall.
  injection Hcall as Hfound Hl' _.
  rewrite Havail in Hfound. subst found.
  rewrite (probed_launcher_unavailable w l _ Havail) in Hl'. subst l'.
  destruct (set_lib_bin_from_list_steps w memory_allocator ma_lib_name
              "memory allocator" ["auto"; "default"; "tcmalloc"; "jemalloc"]
              preload_probe skip_list "This may drop the performance." l _ _
              Hnorm) as [Hvalue [Hemitted Hafter]].
  rewrite Hres in Hvalue, Hemitted, Hafter.
  cbn [value after emitted app is_add_lib_preload] in Hvalue, Hemitted, Hafter.
  rewrite set_memory_allocator_spec, Hsupported, Hvalue, Hemitted, Hafter.
  cbn [value after emitted]. unfold tuned_allocator.
  change (String.eqb "default" "jemalloc") with false. cbv iota.
  rewrite app_nil_r.
  split; [reflexivity|]. split.
  { change [?a; ?b; ?c] with ([a] ++ [b] ++ [c]).
    now rewrite !probed_app, !probed_said. }
  split; [|split; reflexivity].
  eexists. split.
  - apply (warned_said l). rewrite !elem_of_cons. right. left. reflexivity.
  - unfold unable_msg, guide_of, install_guide. cbn [snd negb String.eqb].
    in_message.
Qed.

Lemma jemalloc_fallback_witness :
  value (set_memory_allocator tcmalloc_world "Jemalloc" true ["tcmalloc"]
           (init tcmalloc_world false)) = Ok "default"
  /\ environ_set (after (set_memory_allocator tcmalloc_world "Jemalloc" true
                           ["tcmalloc"] (init tcmalloc_world false))) = ∅.
Proof.
  destruct (jemalloc_fallback tcmalloc_world "Jemalloc" true ["tcmalloc"]
              (init tcmalloc_world false))
    as [Hvalue [_ [_ [Henv _]]]].
  - reflexivity.
  - reflexivity.
  - intros Hin. apply elem_of_cons in Hin as [Hin|Hin]; [discriminate Hin|].
    inversion Hin.
  - reflexivity.
  - intros lib_path Hin.
    repeat (apply elem_of_cons in Hin as [->|Hin]; [reflexivity|]).
    inversion Hin.
  - split; [exact Hvalue | exact Henv].
Defined.

(** ** Sweeping the preload list *)

Section Sweep.

Lemma count_if_app (f : string -> bool) (p q : list string) :
  count_if f (p ++ q) = (count_if f p + count_if f q)%nat.
Proof. induction p as [|x p IH]; simpl; [reflexivity | rewrite IH; lia]. Qed.

Lemma count_if_sublist (f : string -> bool) (p q : list string) :
  p `sublist_of` q -> (count_if f p <= count_if f q)%nat.
Proof. induction 1; simpl; lia. Qed.

Lemma count_if_zero (f : string -> bool) (p : list string) :
  count_if f p = 0%nat <-> forall x, x ∈ p -> f x = false.
Proof.
  induction p as [|y p IH]; simpl.
  - split; [intros _ x Hx; inversion Hx | reflexivity].
  - split.
    + intros H x Hx. destruct (f y) eqn:Hy; [lia|].
      apply elem_of_cons in Hx as [->|Hx]; [exact Hy|].
      apply IH; [lia | exact Hx].
    + intros H. rewrite (H y) by now left.
      apply IH. intros x Hx. apply H. now right.
Qed.

Lemma count_if_le (f g : string -> bool) (p : list string) :
  (forall x, x ∈ p -> f x = true -> g x = true) ->
  (count_if f p <= count_if g p)%nat.
Proof.
  induction p as [|y p IH]; intros H; simpl; [lia|].
  assert (IH' : (count_if f p <= count_if g p)%nat).
  { apply IH. intros x Hx. apply H. now right. }
  destruct (f y) eqn:Hy; [rewrite (H y) by (auto; now left)|]; simpl.
  - lia.
  - destruct (g y); lia.
Qed.

Lemma existsb_count (f : string -> bool) (p : list string) :
  existsb f p = false <-> count_if f p = 0%nat.
Proof.
  induction p as [|y p IH]; simpl; [tauto|].
  destruct (f y); simpl; [split; [discriminate | lia]|exact IH].
Qed.

Lemma remove_first_sublist (x : string) (p : list string) :
  remove_first x p `sublist_of` p.
Proof.
  induction p as [|y p IH]; simpl; [constructor|].
  destruct (String.eqb y x); [now apply sublist_cons | now apply sublist_skip].
Qed.

Lemma remove_first_keeps (x y : string) (p : list string) :
  y ∈ p -> y <> x -> y ∈ remove_first x p.
Proof.
  induction p as [|z p IH]; intros Hin Hne; [inversion Hin|].
  simpl. destruct (String.eqb_spec z x) as [->|Hz].
  - apply elem_of_cons in Hin as [->|Hin]; [congruence | exact Hin].
  - apply elem_of_cons in Hin as [->|Hin]; [now left | right; auto].
Qed.

(** Removing an entry that [f] accepts takes one from the count. *)
Lemma remove_first_count (f : string -> bool) (x : string) (p : list string) :
  x ∈ p -> f x = true ->
  S (count_if f (remove_first x p)) = count_if f p.
Proof.
  induction p as [|z p IH]; intros Hin Hf; [inversion Hin|].
  simpl. destruct (String.eqb_spec z x) as [->|Hz].
  - now rewrite Hf.
  - apply elem_of_cons in Hin as [->|Hin]; [congruence|].
    simpl. rewrite <- (IH Hin Hf). lia.
Qed.

Lemma swept_sublist (file : string) (fuel i : nat) (p : list string) :
  swept file fuel i p `sublist_of` p.
Proof.
  revert i p. induction fuel as [|fuel IH]; intros i p; simpl; [reflexivity|].
  destruct (p !! i) as [item|]; [|reflexivity].
  destruct (Str.endswith item file); [|apply IH].
  etransitivity; [apply IH | apply remove_first_sublist].
Qed.

Lemma swept_keeps (file : string) (fuel i : nat) (p : list string) (y : string) :
  y ∈ p -> Str.endswith y file = false -> y ∈ swept file fuel i p.
Proof.
  revert i p. induction fuel as [|fuel IH]; intros i p Hin Hy; simpl; [exact Hin|].
  destruct (p !! i) as [item|]; [|exact Hin].
  destruct (Str.endswith item file) eqn:Hitem; [|now apply IH].
  apply IH; [|exact Hy]. apply remove_first_keeps; [exact Hin|].
  intros ->. congruence.
Qed.

(** The loop does its work when at most one entry is a file [file]: it
    leaves none.  With two of them next to each other, the second is
    skipped. *)
Lemma swept_single (file : string) (fuel i : nat) (p : list string) :
  (count_files file p <= 1)%nat ->
  (forall j y, (j < i)%nat -> p !! j = Some y -> Str.endswith y file = false) ->
  (length p <= fuel + i)%nat ->
  count_files file (swept file fuel i p) = 0%nat.
Proof.
  revert i p. induction fuel as [|fuel IH]; intros i p Hone Hbefore Hfuel; simpl.
  - apply count_if_zero. intros x Hx.
    apply list_elem_of_lookup in Hx as [j Hj].
    apply (Hbefore j); [|exact Hj].
    apply lookup_lt_Some in Hj. lia.
  - destruct (p !! i) as [item|] eqn:Hitem.
    + destruct (Str.endswith item file) eqn:Hends.
      * assert (Hin : item ∈ p) by (eapply list_elem_of_lookup_2; eauto).
        pose proof (remove_first_count (fun x => Str.endswith x file) item p
                      Hin Hends) as Hcount.
        fold (count_files file p) in Hcount.
        fold (count_files file (remove_first item p)) in Hcount.
        assert (Hzero : count_files file (remove_first item p) = 0%nat) by lia.
        pose proof (count_if_sublist (fun x => Str.endswith x file) _ _
                      (swept_sublist file fuel (S i) (remove_first item p))) as Hle.
        unfold count_files in *. lia.
      * apply IH; [exact Hone | | lia].
        intros j y Hj Hy. destruct (decide (j = i)) as [->|Hne].
        -- congruence.
        -- apply (Hbefore j); [lia | exact Hy].
    + apply count_if_zero. intros x Hx.
      apply list_elem_of_lookup in Hx as [j Hj].
      apply (Hbefore j); [|exact Hj].
      apply lookup_ge_None in Hitem. apply lookup_lt_Some in Hj. lia.
Qed.

End Sweep.

(** ** The method refines the resolution policy *)

Section Policy.

Variable w : World.
Variables (name_map : dict lib_entry) (category d : string).
Variables (cands skip_list : list string).
Variable extra : string.

Local Abbreviation supported := ("auto" :: d :: cands).

Hypothesis auto_not_candidate : "auto" ∉ cands.
Hypothesis default_not_candidate : d ∉ cands.
Hypothesis candidates_mapped :
  forall c, c ∈ cands -> is_Some (dict_lookup name_map c).

Lemma normalize_value (name_input : string) (l : Launcher) :
  exists evs,
    normalize name_input category supported skip_list l
    = {| value := Ok (normalized_name supported skip_list name_input);
         after := l; emitted := evs |}.
Proof.
  unfold normalized_name.
  destruct (decide (Str.lower name_input ∈ supported)) as [Hin|Hin];
    destruct (decide (Str.lower name_input ∈ skip_list)) as [Hsk|Hsk].
  - rewrite (proj2 (py_in_true _ _) Hin), (proj2 (py_in_true _ _) Hsk).
    eexists. now apply normalize_skipped.
  - rewrite (proj2 (py_in_true _ _) Hin), (proj2 (py_in_false _ _) Hsk).
    eexists. now apply normalize_known.
  - rewrite (proj2 (py_in_false _ _) Hin).
    destruct (normalize_to_first name_input category "auto" (d :: cands)
                skip_list l) as [evs [Hnorm _]]; [tauto|].
    exists evs. exact Hnorm.
  - rewrite (proj2 (py_in_false _ _) Hin).
    destruct (normalize_to_first name_input category "auto" (d :: cands)
                skip_list l) as [evs [Hnorm _]]; [tauto|].
    exists evs. exact Hnorm.
Qed.

Lemma normalized_name_cases (name_input : string) :
  let n := normalized_name supported skip_list name_input in
  n = "auto" \/ (n <> "auto" /\ n ∈ cands /\ n ∉ skip_list) \/ n = d.
Proof.
  cbv zeta. unfold normalized_name.
  destruct (py_in (Str.lower name_input) supported) eqn:Hin; [|now left].
  destruct (py_in (Str.lower name_input) skip_list) eqn:Hsk; [now left|].
  apply py_in_true in Hin. apply py_in_false in Hsk. cbn [andb negb].
  apply elem_of_cons in Hin as [Hin|Hin]; [now left|].
  apply elem_of_cons in Hin as [Hin|Hin]; [now (right; right)|].
  right. left. repeat split; try assumption.
  intros E. rewrite E in Hin. contradiction.
Qed.

Lemma first_available_found (av : string -> bool) (pre post : list string)
    (c : string) :
  (forall x, x ∈ pre -> av x = false) -> av c = true ->
  first_available av (pre ++ c :: post) = Some c.
Proof.
  intros Hpre Hc. induction pre as [|x pre IH]; simpl.
  - now rewrite Hc.
  - rewrite (Hpre x) by now left. apply IH. intros y Hy. apply Hpre. now right.
Qed.

Lemma first_available_none (av : string -> bool) (names : list string) :
  (forall x, x ∈ names -> av x = false) -> first_available av names = None.
Proof.
  intros H. induction names as [|x names IH]; simpl; [reflexivity|].
  rewrite (H x) by now left. apply IH. intros y Hy. apply H. now right.
Qed.

(** The choice, with the preload search as probe: the resolved name is the
    one of the policy, and the probes leave the launcher [landing]. *)
Lemma resolve_preload_spec (n : string) (l : Launcher) :
  n = "auto" \/ (n <> "auto" /\ n ∈ cands /\ n ∉ skip_list) \/ n = d ->
  d <> "auto" ->
  let av c := available w l (token_of name_map c) in
  let r := resolution_policy av d cands skip_list n in
  let o := resolve w n name_map category supported preload_probe skip_list
             extra l in
  value o = Ok r /\ after o = landing w l name_map cands r.
Proof.
  intros Hn Hd. cbv zeta. unfold resolution_policy, landing.
  destruct Hn as [-> | [[Hne [Hin Hskip]] | ->]].
  - change (String.eqb "auto" "auto") with true. cbv iota.
    pose proof (probe_candidates_preload w name_map category skip_list "auto"
                  cands l) as Hloop.
    destruct (probe_candidates w name_map category preload_probe skip_list
                "auto" cands l) as [v l' evs] eqn:Hrun.
    cbv zeta in Hloop. cbn [value after emitted] in Hloop.
    destruct Hloop as [[pre [c [post [Hsplit [Hpre [Hc [Hval Haft]]]]]]]
                      |[Hall [Hval Haft]]].
    + intros c Hc. apply allowed_elem in Hc as [Hc _]. now apply candidates_mapped.
    + subst v l'. rewrite Hsplit.
      rewrite (first_available_found _ pre post c Hpre Hc).
    cbn [default from_option]. unfold id.
      assert (Hcand : c ∈ cands).
      { assert (Hin : c ∈ allowed skip_list cands)
          by (rewrite Hsplit, elem_of_app, elem_of_cons; tauto).
        now apply allowed_elem in Hin. }
      destruct (resolve_after_loop w name_map category "auto" d cands skip_list
                  extra preload_probe l _ c evs Hrun) as [Hres _].
      rewrite Hres by (intros ->; contradiction). cbn [value after].
      now rewrite (proj2 (py_in_true _ _) Hcand).
    + subst v l'. rewrite (first_available_none _ _ Hall).
    cbn [default from_option].
      destruct (resolve_after_loop w name_map category "auto" d cands skip_list
                  extra preload_probe l _ "auto" evs Hrun) as [_ Hres].
      destruct (Hres eq_refl) as [evs' [Hres' _]]. rewrite Hres'.
      cbn [value after].
      now rewrite (proj2 (py_in_false _ _) default_not_candidate).
  - apply String.eqb_neq in Hne. rewrite Hne.
    rewrite (proj2 (py_in_true _ _) Hin).
    destruct (candidates_mapped n Hin) as [entry Hentry].
    apply String.eqb_neq in Hne.
    destruct (resolve_explicit w name_map category "auto" d cands skip_list
                extra preload_probe n entry l Hne Hin Hentry)
      as [found [l' [Hcall Hres]]].
    rewrite call_fn_preload in Hcall. injection Hcall as Hfound Hl' _.
    rewrite (token_of_entry _ _ _ Hentry), Hres, <- Hfound, <- Hl'.
    destruct (available w l (fst entry)) eqn:Hav; cbn [value after].
    + now rewrite (proj2 (py_in_true _ _) Hin), (token_of_entry _ _ _ Hentry).
    + rewrite (proj2 (py_in_false _ _) default_not_candidate).
      now rewrite (probed_launcher_unavailable w l _ Hav).
  - apply String.eqb_neq in Hd. rewrite Hd.
    rewrite (proj2 (py_in_false _ _) default_not_candidate).
    apply String.eqb_neq in Hd.
    rewrite (resolve_default w name_map category "auto" d cands skip_list
               extra preload_probe d l Hd default_not_candidate).
    cbn [value after].
    now rewrite (proj2 (py_in_false _ _) default_not_candidate).
Qed.

Lemma with_ld_preload_probed (p : list string) (l : Launcher) (token : string) :
  with_ld_preload p (probed_launcher w l token) = with_ld_preload p l.
Proof.
  unfold probed_launcher. destruct (preloaded l token); [reflexivity|].
  now destruct (find_library w (library_paths l) token).
Qed.

Lemma with_ld_preload_landing (p : list string) (l : Launcher) (r : string) :
  with_ld_preload p (landing w l name_map cands r) = with_ld_preload p l.
Proof.
  unfold landing. destruct (py_in r cands); [|reflexivity].
  apply with_ld_preload_probed.
Qed.

(** The whole method, with the preload search as probe. *)
Lemma set_lib_bin_from_list_preload (name_input : string) (l : Launcher) :
  d <> "auto" ->
  let av c := available w l (token_of name_map c) in
  let r := resolution_policy av d cands skip_list
             (normalized_name supported skip_list name_input) in
  let o := set_lib_bin_from_list w name_input name_map category supported
             preload_probe skip_list extra l in
  value o = Ok r
  /\ after o
     = with_ld_preload
         (cleaned name_map r (ld_preload (landing w l name_map cands r))) l.
Proof.
  intros Hd. cbv zeta.
  destruct (normalize_value name_input l) as [evs0 Hnorm].
  destruct (set_lib_bin_from_list_steps w name_input name_map category
              supported preload_probe skip_list extra l _ _ Hnorm)
    as [Hvalue [_ Hafter]].
  destruct (resolve_preload_spec _ l (normalized_name_cases name_input) Hd)
    as [Hres Hland].
  rewrite Hvalue, Hafter, Hres. cbn [is_add_lib_preload]. rewrite Hland.
  split; [reflexivity|]. apply with_ld_preload_landing.
Qed.

End Policy.

(** ** The preload list after the sweep *)

Section Cleaned.

Lemma dict_lookup_elem {V} (items : dict V) (k : string) (v : V) :
  dict_lookup items k = Some v -> (k, v) ∈ items.
Proof.
  induction items as [|[k' v'] items IH]; simpl; [discriminate|].
  destruct (String.eqb_spec k' k) as [->|Hne].
  - intros [= ->]. now left.
  - intros H. right. now apply IH.
Qed.

Lemma dict_elem_lookup {V} (items : dict V) (k : string) (v : V) :
  (k, v) ∈ items -> is_Some (dict_lookup items k).
Proof.
  induction items as [|[k' v'] items IH]; intros Hin; [inversion Hin|].
  simpl. destruct (String.eqb_spec k' k) as [->|Hne]; [now eexists|].
  apply elem_of_cons in Hin as [Hin|Hin]; [congruence | now apply IH].
Qed.

Lemma dict_keys_unique {V} (items : dict V) (k : string) (v v' : V) :
  NoDup (map fst items) -> (k, v) ∈ items -> (k, v') ∈ items -> v = v'.
Proof.
  induction items as [|[k0 v0] items IH]; intros Hnd Hv Hv'; [inversion Hv|].
  apply NoDup_cons in Hnd as [Hfresh Hnd].
  assert (Hkey : forall u, (k0, u) ∈ items -> False).
  { intros u Hu. apply Hfresh.
    apply list_elem_of_fmap. exists (k0, u). split; [reflexivity | exact Hu]. }
  apply elem_of_cons in Hv as [Hv|Hv]; apply elem_of_cons in Hv' as [Hv'|Hv'].
  - congruence.
  - injection Hv as -> ->. destruct (Hkey _ Hv').
  - injection Hv' as -> ->. destruct (Hkey _ Hv).
  - now apply IH.
Qed.

Lemma cleaned_sublist (items : dict lib_entry) (name_local : string)
    (p : list string) :
  cleaned items name_local p `sublist_of` p.
Proof.
  revert p. induction items as [|[k v] items' IH]; intros p; simpl; [reflexivity|].
  destruct (String.eqb k name_local); [apply IH|].
  etransitivity; [apply IH | apply swept_sublist].
Qed.

Lemma cleaned_keeps (items : dict lib_entry) (name_local : string)
    (p : list string) (y : string) :
  y ∈ p ->
  (forall k v, (k, v) ∈ items -> k <> name_local ->
               Str.endswith y (lib_so (fst v)) = false) ->
  y ∈ cleaned items name_local p.
Proof.
  revert p. induction items as [|[k v] items' IH]; intros p Hin Hy; simpl;
    [exact Hin|].
  assert (Hy' : forall k0 v0, (k0, v0) ∈ items' -> k0 <> name_local ->
                              Str.endswith y (lib_so (fst v0)) = false).
  { intros k0 v0 H0. apply Hy. now right. }
  destruct (String.eqb_spec k name_local) as [->|Hne]; [now apply IH|].
  apply IH; [|exact Hy']. apply swept_keeps; [exact Hin|].
  apply (Hy k v); [now left | exact Hne].
Qed.

(** A candidate other than the resolved one that has at most one entry in
    the preload list has none after the sweep. *)
Lemma cleaned_others (items : dict lib_entry) (name_local : string)
    (p : list string) (k : string) (v : lib_entry) :
  (k, v) ∈ items -> k <> name_local ->
  (count_files (lib_so (fst v)) p <= 1)%nat ->
  count_files (lib_so (fst v)) (cleaned items name_local p) = 0%nat.
Proof.
  revert p. induction items as [|[k0 v0] items' IH]; intros p Hin Hne Hone;
    [inversion Hin|].
  simpl. apply elem_of_cons in Hin as [Hin|Hin].
  - injection Hin as <- <-.
    apply String.eqb_neq in Hne. rewrite Hne.
    assert (Hzero : count_files (lib_so (fst v))
                      (swept (lib_so (fst v)) (length p) 0 p) = 0%nat).
    { apply swept_single; [exact Hone | intros j y Hj; lia | lia]. }
    pose proof (count_if_sublist
                  (fun x => Str.endswith x (lib_so (fst v))) _ _
                  (cleaned_sublist items' name_local
                     (swept (lib_so (fst v)) (length p) 0 p))) as Hle.
    unfold count_files in *. lia.
  - apply IH; [exact Hin | exact Hne |].
    destruct (String.eqb k0 name_local); [exact Hone|].
    pose proof (count_if_sublist
                  (fun x => Str.endswith x (lib_so (fst v))) _ _
                  (swept_sublist (lib_so (fst v0)) (length p) 0 p)) as Hle.
    unfold count_files in *. lia.
Qed.

End Cleaned.

(** ** One competing library in the preload list *)

(** C5, as stated, fails in two ways.  By design, the entries of the
    resolved candidate itself are never removed: with two copies of
    [libjemalloc.so] in the ambient preload list and the request
    [jemalloc], both stay.  And the sweep of the other candidates removes
    entries from the list it is iterating over, so that the entry after a
    removed one is skipped: with two copies of [libtcmalloc.so] in the
    ambient preload list and the request [default], the second copy
    stays. *)
Lemma preload_exclusive_counterexamples :
  (let o := set_lib_bin_from_list twin_jemalloc_world "jemalloc" ma_lib_name
              "memory allocator" ["auto"; "default"; "tcmalloc"; "jemalloc"]
              preload_probe [] "" (init twin_jemalloc_world true) in
   value o = Ok "jemalloc"
   /\ ld_preload (after o) = ["/a/libjemalloc.so"; "/b/libjemalloc.so"]
   /\ count_libs ma_lib_name (ld_preload (after o)) = 2%nat)
  /\ (let o := set_lib_bin_from_list twin_tcmalloc_world "default" ma_lib_name
                 "memory allocator" ["auto"; "default"; "tcmalloc"; "jemalloc"]
                 preload_probe [] "" (init twin_tcmalloc_world true) in
      value o = Ok "default"
      /\ ld_preload (after o) = ["/b/libtcmalloc.so"]
      /\ Str.endswith "/b/libtcmalloc.so" (lib_so "tcmalloc") = true).
Proof.
  split; cbv zeta; repeat split; reflexivity.
Qed.

(** C5, amended.  Let [set_lib_bin_from_list] be called with
    [add_lib_preload] as probe, on a supported list
    [["auto"; d; candidates...]] whose candidates all have an entry in
    [name_map], where no string is the library file of two candidates and
    the search of a token finds files named [lib<token>.so].  If before the
    call the preload list holds at most one entry ending in
    [lib<token>.so] for each token of [name_map], then the call returns a
    name [r], and afterwards the preload list holds no entry ending in
    [lib<token>.so] for a token of a candidate other than [r], hence at
    most one entry whose token belongs to [name_map]. *)
Theorem preload_exclusive (w : World) (name_input : string)
    (name_map : dict lib_entry) (category d : string)
    (cands skip_list : list string) (extra : string) (l : Launcher) :
  "auto" ∉ cands ->
  d ∉ cands ->
  d <> "auto" ->
  (forall c, c ∈ cands -> is_Some (dict_lookup name_map c)) ->
  NoDup (map fst name_map) ->
  (forall k v k' v' x,
      (k, v) ∈ name_map -> (k', v') ∈ name_map -> k <> k' ->
      Str.endswith x (lib_so (fst v)) = true ->
      Str.endswith x (lib_so (fst v')) = false) ->
  (forall k v m,
      (k, v) ∈ name_map ->
      find_library w (library_paths l) (fst v) = Some m ->
      Str.endswith m (lib_so (fst v)) = true) ->
  (forall k v,
      (k, v) ∈ name_map ->
      (count_files (lib_so (fst v)) (ld_preload l) <= 1)%nat) ->
  let o := set_lib_bin_from_list w name_input name_map category
             ("auto" :: d :: cands) preload_probe skip_list extra l in
  exists r,
    value o = Ok r
    /\ (forall k v,
           (k, v) ∈ name_map -> k <> r ->
           count_files (lib_so (fst v)) (ld_preload (after o)) = 0%nat)
    /\ (count_libs name_map (ld_preload (after o)) <= 1)%nat.
Proof.
  intros Hauto Hdcand Hd Hkeys Hnodup Hapart Hglob Hone. cbv zeta.
  destruct (set_lib_bin_from_list_preload w name_map category d cands skip_list
              extra Hauto Hdcand Hkeys name_input l Hd) as [Hvalue Hafter].
  cbv zeta in Hvalue, Hafter.
  remember (resolution_policy
              (fun c => available w l (token_of name_map c)) d cands skip_list
              (normalized_name ("auto" :: d :: cands) skip_list name_input))
    as r eqn:Hr. clear Hr.
  exists r. split; [exact Hvalue|]. rewrite Hafter. cbn [ld_preload with_ld_preload].
  set (q := ld_preload (landing w l name_map cands r)).
  (* the list the sweep starts from *)
  assert (Hq : q = ld_preload l
               \/ exists entry m,
                    (r, entry) ∈ name_map
                    /\ preloaded l (fst entry) = false
                    /\ Str.endswith m (lib_so (fst entry)) = true
                    /\ q = ld_preload l ++ [m]).
  { subst q. unfold landing. destruct (py_in r cands) eqn:Hr; [|now left].
    apply py_in_true in Hr. destruct (Hkeys r Hr) as [entry Hentry].
    rewrite (token_of_entry _ _ _ Hentry). unfold probed_launcher.
    destruct (preloaded l (fst entry)) eqn:Hpre; [now left|].
    destruct (find_library w (library_paths l) (fst entry)) as [m|] eqn:Hfind;
      [|now left].
    right. exists entry, m. apply dict_lookup_elem in Hentry.
    repeat split; try assumption. now apply (Hglob r entry m). }
  assert (Hone_q : forall k v, (k, v) ∈ name_map -> k <> r ->
                               (count_files (lib_so (fst v)) q <= 1)%nat).
  { intros k v Hkv Hne.
    destruct Hq as [->|[entry [m [Hentry [_ [Hm ->]]]]]]; [now apply (Hone k)|].
    unfold count_files. rewrite count_if_app. simpl.
    rewrite (Hapart r entry k v m Hentry Hkv (not_eq_sym Hne) Hm).
    pose proof (Hone k v Hkv) as Hle. unfold count_files in Hle. lia. }
  assert (Hothers : forall k v, (k, v) ∈ name_map -> k <> r ->
                                count_files (lib_so (fst v))
                                  (cleaned name_map r q) = 0%nat).
  { intros k v Hkv Hne.
    apply (cleaned_others name_map r q k v); [exact Hkv | exact Hne |].
    now apply (Hone_q k v). }
  split; [exact Hothers|].
  (* what is left belongs to the resolved candidate *)
  destruct (dict_lookup name_map r) as [entry|] eqn:Hentry.
  - apply dict_lookup_elem in Hentry.
    transitivity (count_files (lib_so (fst entry)) (cleaned name_map r q)).
    + apply count_if_le. intros x Hx Hlib.
      apply existsb_exists in Hlib as [[k v] [Hkv Hends]]. cbn [fst snd] in Hends.
      apply (proj2 (list_elem_of_In _ _)) in Hkv.
      destruct (decide (k = r)) as [->|Hne].
      * now rewrite (dict_keys_unique _ _ _ _ Hnodup Hentry Hkv).
      * pose proof (proj1 (count_if_zero _ _) (Hothers k v Hkv Hne) x Hx) as Hno.
        cbv beta in Hno. congruence.
    + transitivity (count_files (lib_so (fst entry)) q).
      * apply count_if_sublist, cleaned_sublist.
      * destruct Hq as [->|[entry' [m [Hentry' [Hpre [_ ->]]]]]];
          [now apply (Hone r)|].
        rewrite (dict_keys_unique _ _ _ _ Hnodup Hentry Hentry').
        unfold count_files. rewrite count_if_app. simpl.
        apply existsb_count in Hpre. rewrite Hpre.
        destruct (Str.endswith m (lib_so (fst entry'))); lia.
  - assert (Hzero : count_libs name_map (cleaned name_map r q) = 0%nat); [|lia].
    apply count_if_zero. intros x Hx.
    destruct (is_lib_of name_map x) eqn:Hlib; [|reflexivity].
    apply existsb_exists in Hlib as [[k v] [Hkv Hends]]. cbn [fst snd] in Hends.
    apply (proj2 (list_elem_of_In _ _)) in Hkv.
    assert (Hne : k <> r).
    { intros ->. destruct (dict_elem_lookup _ _ _ Hkv) as [e He].
      discriminate (eq_trans (eq_sym He) Hentry). }
    pose proof (proj1 (count_if_zero _ _) (Hothers k v Hkv Hne) x Hx) as Hno.
    cbv beta in Hno. congruence.
Qed.

(** The two allocators of [ma_lib_name] have library files of one length,
    so no preload entry is the file of both. *)
Lemma ma_lib_name_apart (k : string) (v : lib_entry) (k' : string)
    (v' : lib_entry) (x : string) :
  (k, v) ∈ ma_lib_name -> (k', v') ∈ ma_lib_name -> k <> k' ->
  Str.endswith x (lib_so (fst v)) = true ->
  Str.endswith x (lib_so (fst v')) = false.
Proof.
  unfold ma_lib_name. intros Hkv Hkv' Hne.
  apply elem_of_cons in Hkv as [Hkv|Hkv];
    [|apply elem_of_cons in Hkv as [Hkv|Hkv]; [|inversion Hkv]];
    apply elem_of_cons in Hkv' as [Hkv'|Hkv'];
    try (apply elem_of_cons in Hkv' as [Hkv'|Hkv']; [|inversion Hkv']);
    injection Hkv as -> ->; injection Hkv' as -> ->;
    try congruence;
    apply endswith_apart; (reflexivity || discriminate).
Qed.

Lemma ma_lib_name_keys : NoDup (map fst ma_lib_name).
Proof.
  unfold ma_lib_name. cbn [map fst].
  apply NoDup_cons. split.
  - intros Hin. apply elem_of_cons in Hin as [Hin|Hin]; [discriminate Hin|].
    inversion Hin.
  - apply NoDup_cons. split; [intros Hin; inversion Hin | apply NoDup_nil_2].
Qed.

Lemma preload_exclusive_witness :
  exists r,
    value (set_lib_bin_from_list mixed_world "jemalloc" ma_lib_name
             "memory allocator" ["auto"; "default"; "tcmalloc"; "jemalloc"]
             preload_probe [] "" (init mixed_world false)) = Ok r
    /\ (count_libs ma_lib_name
          (ld_preload
             (after (set_lib_bin_from_list mixed_world "jemalloc" ma_lib_name
                       "memory allocator"
                       ["auto"; "default"; "tcmalloc"; "jemalloc"]
                       preload_probe [] "" (init mixed_world false))))
        <= 1)%nat.
Proof.
  destruct (preload_exclusive mixed_world "jemalloc" ma_lib_name
              "memory allocator" "default" ["tcmalloc"; "jemalloc"] [] ""
              (init mixed_world false)) as [r [Hr [_ Hcount]]].
  - intros Hin.
    repeat (apply elem_of_cons in Hin as [Hin|Hin]; [discriminate Hin|]).
    inversion Hin.
  - intros Hin.
    repeat (apply elem_of_cons in Hin as [Hin|Hin]; [discriminate Hin|]).
    inversion Hin.
  - discriminate.
  - intros c Hc.
    apply elem_of_cons in Hc as [->|Hc]; [now eexists|].
    apply elem_of_cons in Hc as [->|Hc]; [now eexists|].
    inversion Hc.
  - exact ma_lib_name_keys.
  - exact ma_lib_name_apart.
  - intros k v m Hkv.
    apply elem_of_cons in Hkv as [Hkv|Hkv];
      [|apply elem_of_cons in Hkv as [Hkv|Hkv]; [|inversion Hkv]];
      injection Hkv as -> ->; vm_compute; intros Hm;
      [now injection Hm as <- | discriminate Hm].
  - intros k v Hkv.
    apply elem_of_cons in Hkv as [Hkv|Hkv];
      [|apply elem_of_cons in Hkv as [Hkv|Hkv]; [|inversion Hkv]];
      injection Hkv as -> ->; vm_compute; lia.
  - exists r. split; [exact Hr | exact Hcount].
Defined.

(** ** Resolving twice *)

Section Twice.

Variable w : World.
Variables (name_map : dict lib_entry) (d : string).
Variables (cands skip_list : list string).

Hypothesis default_not_candidate : d ∉ cands.
Hypothesis candidates_mapped :
  forall c, c ∈ cands -> is_Some (dict_lookup name_map c).
Hypothesis files_apart :
  forall k v k' v' x,
    (k, v) ∈ name_map -> (k', v') ∈ name_map -> k <> k' ->
    Str.endswith x (lib_so (fst v)) = true ->
    Str.endswith x (lib_so (fst v')) = false.

(** A candidate that the policy chooses is available. *)
Lemma policy_candidate_available (av : string -> bool) (n : string) :
  let r := resolution_policy av d cands skip_list n in
  r ∈ cands -> av r = true.
Proof.
  cbv zeta. unfold resolution_policy.
  destruct (String.eqb n "auto").
  - induction (allowed skip_list cands) as [|x xs IH]; simpl.
    + intros H. destruct (default_not_candidate H).
    + destruct (av x) eqn:Hx; [intros _; exact Hx | exact IH].
  - destruct (py_in n cands).
    + destruct (av n) eqn:Hn; [intros _; exact Hn|].
      intros H. destruct (default_not_candidate H).
    + intros H. destruct (default_not_candidate H).
Qed.

Lemma first_available_elem (av : string -> bool) (xs : list string) (c : string) :
  first_available av xs = Some c -> c ∈ xs /\ av c = true.
Proof.
  induction xs as [|x xs IH]; simpl; [discriminate|].
  destruct (av x) eqn:Hx.
  - intros [= ->]. split; [now left | exact Hx].
  - intros H. destruct (IH H) as [Hin Hc]. split; [now right | exact Hc].
Qed.

Lemma first_available_stable (av av' : string -> bool) (xs : list string) :
  (forall x, x ∈ xs -> av x = false -> av' x = false) ->
  (forall c, first_available av xs = Some c -> av' c = true) ->
  first_available av' xs = first_available av xs.
Proof.
  induction xs as [|x xs IH]; intros Hfalse Htrue; simpl in *; [reflexivity|].
  destruct (av x) eqn:Hx.
  - now rewrite (Htrue x eq_refl).
  - rewrite (Hfalse x) by (auto; now left).
    apply IH; [intros y Hy; apply Hfalse; now right | exact Htrue].
Qed.

(** The policy gives the same name when the candidates that were
    unavailable still are and the chosen one still is available. *)
Lemma policy_stable (av av' : string -> bool) (n : string) :
  let r := resolution_policy av d cands skip_list n in
  (forall x, x ∈ cands -> av x = false -> av' x = false) ->
  (r ∈ cands -> av' r = true) ->
  resolution_policy av' d cands skip_list n = r.
Proof.
  cbv zeta. unfold resolution_policy. intros Hfalse Htrue.
  destruct (String.eqb n "auto").
  - rewrite (first_available_stable av av'); [reflexivity | |].
    + intros x Hx. apply Hfalse. now apply allowed_elem in Hx.
    + intros c Hc. rewrite Hc in Htrue. apply Htrue.
      apply first_available_elem in Hc as [Hc _].
      now apply allowed_elem in Hc.
  - destruct (py_in n cands) eqn:Hn; [|reflexivity].
    apply py_in_true in Hn. destruct (av n) eqn:Hav.
    + now rewrite (Htrue Hn).
    + now rewrite (Hfalse n Hn Hav).
Qed.

Lemma available_false (l : Launcher) (token : string) :
  available w l token = false
  <-> count_files (lib_so token) (ld_preload l) = 0%nat
      /\ find_library w (library_paths l) token = None.
Proof.
  unfold available, preloaded, count_files. rewrite orb_false_iff, existsb_count.
  destruct (find_library w (library_paths l) token); split;
    intros [H1 H2]; split; congruence.
Qed.

(** After a resolution that chose [r], on any launcher with the preload
    list the resolution left and the same search paths, the policy chooses
    [r] again. *)
Lemma resolution_twice (l l2 : Launcher) (n : string) :
  let av c := available w l (token_of name_map c) in
  let av2 c := available w l2 (token_of name_map c) in
  let r := resolution_policy av d cands skip_list n in
  ld_preload l2 = cleaned name_map r (ld_preload (landing w l name_map cands r)) ->
  library_paths l2 = library_paths l ->
  resolution_policy av2 d cands skip_list n = r.
Proof.
  cbv zeta. intros Hpre Hpaths.
  pose proof (policy_candidate_available
                (fun c => available w l (token_of name_map c)) n) as Hchosen.
  cbv zeta in Hchosen.
  remember (resolution_policy
              (fun c => available w l (token_of name_map c)) d cands skip_list n)
    as r eqn:Hr.
  rewrite Hr. apply policy_stable; rewrite <- ?Hr.
  - (* an unavailable candidate stays unavailable *)
    intros x Hx Hav.
    assert (Hne : x <> r).
    { intros ->. rewrite (Hchosen Hx) in Hav. discriminate Hav. }
    destruct (candidates_mapped x Hx) as [entry Hentry].
    rewrite (token_of_entry _ _ _ Hentry) in *.
    apply available_false in Hav as [Hcount Hfind].
    apply available_false. rewrite Hpaths. split; [|exact Hfind].
    rewrite Hpre. apply dict_lookup_elem in Hentry.
    apply (cleaned_others name_map r _ x entry); [exact Hentry | exact Hne |].
    unfold landing. destruct (py_in r cands); [|lia].
    unfold probed_launcher. destruct (preloaded l (token_of name_map r)); [lia|].
    destruct (find_library w (library_paths l) (token_of name_map r)); [|lia].
    cbn [ld_preload with_ld_preload]. unfold count_files in *.
    rewrite count_if_app, Hcount. simpl.
    destruct (Str.endswith s (lib_so (fst entry))); lia.
  - (* the chosen candidate stays available *)
    intros Hin. specialize (Hchosen Hin). cbv beta in Hchosen.
    destruct (candidates_mapped r Hin) as [entry Hentry].
    rewrite (token_of_entry _ _ _ Hentry) in Hchosen |- *.
    unfold available in *. rewrite Hpaths.
    destruct (find_library w (library_paths l) (fst entry)) as [m|] eqn:Hfind;
      [apply orb_true_r|].
    rewrite orb_false_r in *. unfold preloaded in *.
    apply existsb_exists in Hchosen as [e [He Hends]].
    apply existsb_exists. exists e. split; [|exact Hends].
    apply list_elem_of_In. rewrite Hpre. apply list_elem_of_In in He.
    pose proof Hentry as Hlookup. apply dict_lookup_elem in Hentry.
    apply cleaned_keeps.
    + unfold landing. rewrite (proj2 (py_in_true _ _) Hin).
      unfold probed_launcher. rewrite (token_of_entry _ _ _ Hlookup).
      assert (Hp : preloaded l (fst entry) = true).
      { apply existsb_exists. exists e. split; [now apply list_elem_of_In | exact Hends]. }
      now rewrite Hp.
    + intros k v Hkv Hne. apply (files_apart r entry k v e); auto.
Qed.

End Twice.

(** ** Idempotence of the two stages *)

Section Idempotence.

Variable w : World.

Lemma tuned_allocator_fields (benchmark : bool) (r : string) (l : Launcher) :
  ld_preload (tuned_allocator w benchmark r l) = ld_preload l
  /\ library_paths (tuned_allocator w benchmark r l) = library_paths l
  /\ ma_supported (tuned_allocator w benchmark r l) = ma_supported l.
Proof. unfold tuned_allocator. now destruct (String.eqb r "jemalloc"). Qed.

Lemma tuned_allocator_twice (benchmark : bool) (r : string) (l : Launcher)
    (p : list string) :
  environ_set
    (tuned_allocator w benchmark r
       (with_ld_preload p (tuned_allocator w benchmark r l)))
  = environ_set (tuned_allocator w benchmark r l).
Proof.
  unfold tuned_allocator. destruct (String.eqb r "jemalloc"); [|reflexivity].
  unfold recorded. cbn [environ_set with_environ_set with_ld_preload].
  apply insert_insert_eq.
Qed.

Lemma tuned_runtime_fields (set_kmp_affinity : bool) (r : string) (l : Launcher) :
  ld_preload (tuned_runtime w set_kmp_affinity r l) = ld_preload l
  /\ library_paths (tuned_runtime w set_kmp_affinity r l) = library_paths l
  /\ omp_supported (tuned_runtime w set_kmp_affinity r l) = omp_supported l.
Proof.
  unfold tuned_runtime.
  destruct (String.eqb r "intel"); [now destruct set_kmp_affinity|].
  now destruct (String.eqb r "default").
Qed.

Lemma insert_twice_two (E : gmap string string) (a b x y : string) :
  a <> b ->
  <[b := y]> (<[a := x]> (<[b := y]> (<[a := x]> E))) = <[b := y]> (<[a := x]> E).
Proof.
  intros Hne. apply map_eq. intros k.
  destruct (decide (k = b)) as [->|Hb]; [now rewrite !lookup_insert_eq|].
  rewrite !(lookup_insert_ne _ b) by congruence.
  destruct (decide (k = a)) as [->|Ha]; [now rewrite !lookup_insert_eq|].
  rewrite !(lookup_insert_ne _ a) by congruence.
  rewrite (lookup_insert_ne _ b) by congruence.
  now rewrite (lookup_insert_ne _ a) by congruence.
Qed.

Lemma tuned_runtime_twice (set_kmp_affinity : bool) (r : string) (l : Launcher)
    (p : list string) :
  environ_set
    (tuned_runtime w set_kmp_affinity r
       (with_ld_preload p (tuned_runtime w set_kmp_affinity r l)))
  = environ_set (tuned_runtime w set_kmp_affinity r l).
Proof.
  unfold tuned_runtime. destruct (String.eqb r "intel").
  - destruct set_kmp_affinity; unfold recorded;
      cbn [environ_set with_environ_set with_ld_preload].
    + apply insert_twice_two. discriminate.
    + apply insert_insert_eq.
  - destruct (String.eqb r "default"); [|reflexivity].
    unfold recorded. cbn [environ_set with_environ_set with_ld_preload].
    apply insert_twice_two. discriminate.
Qed.

Lemma omp_lib_name_apart (k : string) (v : lib_entry) (k' : string)
    (v' : lib_entry) (x : string) :
  (k, v) ∈ omp_lib_name -> (k', v') ∈ omp_lib_name -> k <> k' ->
  Str.endswith x (lib_so (fst v)) = true ->
  Str.endswith x (lib_so (fst v')) = false.
Proof.
  unfold omp_lib_name. intros Hkv Hkv' Hne.
  apply elem_of_cons in Hkv as [Hkv|Hkv]; [|inversion Hkv].
  apply elem_of_cons in Hkv' as [Hkv'|Hkv']; [|inversion Hkv'].
  congruence.
Qed.

Lemma ma_candidates_mapped (c : string) :
  c ∈ ["tcmalloc"; "jemalloc"] -> is_Some (dict_lookup ma_lib_name c).
Proof.
  intros Hc.
  apply elem_of_cons in Hc as [->|Hc]; [now eexists|].
  apply elem_of_cons in Hc as [->|Hc]; [now eexists|].
  inversion Hc.
Qed.

Lemma omp_candidates_mapped (c : string) :
  c ∈ ["intel"] -> is_Some (dict_lookup omp_lib_name c).
Proof.
  intros Hc. apply elem_of_cons in Hc as [->|Hc]; [now eexists|]. inversion Hc.
Qed.

Lemma not_in_two (x a b : string) : x <> a -> x <> b -> x ∉ [a; b].
Proof.
  intros Ha Hb Hin.
  apply elem_of_cons in Hin as [Hin|Hin]; [congruence|].
  apply elem_of_cons in Hin as [Hin|Hin]; [congruence|].
  inversion Hin.
Qed.

Lemma not_in_one (x a : string) : x <> a -> x ∉ [a].
Proof.
  intros Ha Hin.
  apply elem_of_cons in Hin as [Hin|Hin]; [congruence|]. inversion Hin.
Qed.

End Idempotence.

(** C9.  On a launcher with the lists of [__init__], and with the ambient
    environment and the file system unchanged: a second call to
    [set_memory_allocator] with the arguments of the first, on the launcher
    the first call left, returns the same resolved name and leaves the
    overlay as it was after the first call; and so does a second call to
    [set_omp_runtime]. *)
Theorem resolving_twice (w : World) (l : Launcher) :
  ma_supported l = ["auto"; "default"; "tcmalloc"; "jemalloc"] ->
  omp_supported l = ["auto"; "default"; "intel"] ->
  (forall memory_allocator benchmark skip_list,
      let o1 := set_memory_allocator w memory_allocator benchmark skip_list l in
      let o2 := set_memory_allocator w memory_allocator benchmark skip_list
                  (after o1) in
      (exists r, value o1 = Ok r /\ value o2 = Ok r)
      /\ environ_set (after o2) = environ_set (after o1))
  /\ (forall omp_runtime set_kmp_affinity,
         let o1 := set_omp_runtime w omp_runtime set_kmp_affinity l in
         let o2 := set_omp_runtime w omp_runtime set_kmp_affinity (after o1) in
         (exists r, value o1 = Ok r /\ value o2 = Ok r)
         /\ environ_set (after o2) = environ_set (after o1)).
Proof.
  intros Hma Homp. split.
  - intros name benchmark skip_list. cbv zeta.
    assert (Hauto : "auto" ∉ ["tcmalloc"; "jemalloc"])
      by (apply not_in_two; discriminate).
    assert (Hdef : "default" ∉ ["tcmalloc"; "jemalloc"])
      by (apply not_in_two; discriminate).
    assert (Hd : "default" <> "auto") by discriminate.
    pose proof (fun l0 => set_lib_bin_from_list_preload w ma_lib_name
                  "memory allocator" "default" ["tcmalloc"; "jemalloc"]
                  skip_list "This may drop the performance." Hauto Hdef
                  ma_candidates_mapped name l0 Hd) as Hslb.
    cbv zeta in Hslb.
    destruct (Hslb l) as [Hv1 Ha1].
    rewrite (set_memory_allocator_spec w name benchmark skip_list l).
    cbv zeta. rewrite Hma, Hv1, Ha1. cbn [value after].
    match goal with
    | |- context [tuned_allocator w benchmark ?r _] => set (r1 := r)
    end.
    match goal with
    | |- context [tuned_allocator w benchmark r1 ?x] =>
        set (l1 := tuned_allocator w benchmark r1 x)
    end.
    destruct (tuned_allocator_fields w benchmark r1
                (with_ld_preload
                   (cleaned ma_lib_name r1
                      (ld_preload (landing w l ma_lib_name
                                     ["tcmalloc"; "jemalloc"] r1))) l))
      as [Hpre [Hpaths Hsup]].
    fold l1 in Hpre, Hpaths, Hsup. cbn [ld_preload library_paths ma_supported
                                         with_ld_preload] in Hpre, Hpaths, Hsup.
    destruct (Hslb l1) as [Hv2 Ha2].
    rewrite (resolution_twice w ma_lib_name "default" ["tcmalloc"; "jemalloc"]
               skip_list Hdef ma_candidates_mapped
               ma_lib_name_apart l l1 _ Hpre Hpaths) in Hv2, Ha2.
    fold r1 in Hv2, Ha2.
    rewrite (set_memory_allocator_spec w name benchmark skip_list l1).
    cbv zeta. rewrite Hsup, Hma, Hv2, Ha2. cbn [value after].
    split; [now exists r1|].
    unfold l1. apply tuned_allocator_twice.
  - intros name set_kmp_affinity. cbv zeta.
    assert (Hauto : "auto" ∉ ["intel"]) by (apply not_in_one; discriminate).
    assert (Hdef : "default" ∉ ["intel"]) by (apply not_in_one; discriminate).
    assert (Hd : "default" <> "auto") by discriminate.
    pose proof (fun l0 => set_lib_bin_from_list_preload w omp_lib_name
                  "OpenMP runtime" "default" ["intel"] [] "" Hauto Hdef
                  omp_candidates_mapped name l0 Hd) as Hslb.
    cbv zeta in Hslb.
    destruct (Hslb l) as [Hv1 Ha1].
    destruct (set_omp_runtime_spec w name set_kmp_affinity l) as [Hval1 Haft1].
    rewrite Homp in Hval1, Haft1. rewrite Hv1 in Hval1, Haft1.
    rewrite Ha1 in Haft1. rewrite Hval1, Haft1.
    match goal with
    | |- context [tuned_runtime w set_kmp_affinity ?r _] => set (r1 := r) in *
    end.
    match goal with
    | |- context [tuned_runtime w set_kmp_affinity r1 ?x] =>
        set (l1 := tuned_runtime w set_kmp_affinity r1 x) in *
    end.
    destruct (tuned_runtime_fields w set_kmp_affinity r1
                (with_ld_preload
                   (cleaned omp_lib_name r1
                      (ld_preload (landing w l omp_lib_name ["intel"] r1))) l))
      as [Hpre [Hpaths Hsup]].
    fold l1 in Hpre, Hpaths, Hsup. cbn [ld_preload library_paths omp_supported
                                         with_ld_preload] in Hpre, Hpaths, Hsup.
    destruct (Hslb l1) as [Hv2 Ha2].
    rewrite (resolution_twice w omp_lib_name "default" ["intel"] []
               Hdef omp_candidates_mapped
               omp_lib_name_apart l l1 _ Hpre Hpaths) in Hv2, Ha2.
    fold r1 in Hv2, Ha2.
    destruct (set_omp_runtime_spec w name set_kmp_affinity l1) as [Hval2 Haft2].
    rewrite Hsup, Homp in Hval2, Haft2. rewrite Hv2 in Hval2, Haft2.
    rewrite Ha2 in Haft2. rewrite Hval2, Haft2.
    split; [now exists r1|].
    unfold l1. apply tuned_runtime_twice.
Qed.

Lemma resolving_twice_witness :
  exists r,
    value (set_memory_allocator jemalloc_world "auto" false []
             (init jemalloc_world false)) = Ok r
    /\ value (set_memory_allocator jemalloc_world "auto" false []
                (after (set_memory_allocator jemalloc_world "auto" false []
                          (init jemalloc_world false)))) = Ok r.
Proof.
  destruct (resolving_twice jemalloc_world (init jemalloc_world false)
              eq_refl eq_refl) as [Hma _].
  destruct (Hma "auto" false []) as [[r [H1 H2]] _].
  exists r. split; [exact H1 | exact H2].
Defined.

(** ** The range-list parser *)

Section Parser.

Lemma digit_is_plain (c : ascii) :
  Str.is_digit c = true ->
  Str.is_space c = false
  /\ Ascii.eqb c "," = false
  /\ Ascii.eqb c "-" = false
  /\ Ascii.eqb c "+" = false.
Proof.
  destruct c as [[] [] [] [] [] [] [] []]; vm_compute;
    intros H; try discriminate H; repeat split.
Qed.

Lemma every_append (f : ascii -> bool) (a b : string) :
  every f (a +:+ b) = every f a && every f b.
Proof.
  induction a as [|c a IH]; [reflexivity|].
  rewrite append_cons. simpl. rewrite IH. apply andb_assoc.
Qed.

Lemma every_weaken (f g : ascii -> bool) (s : string) :
  (forall c, f c = true -> g c = true) -> every f s = true -> every g s = true.
Proof.
  intros Hfg. induction s as [|c s IH]; simpl; [reflexivity|].
  intros H. apply andb_true_iff in H as [Hc Hs].
  now rewrite (Hfg c Hc), IH.
Qed.

Lemma all_digits_every (s : string) : Str.all_digits s = every Str.is_digit s.
Proof. induction s as [|c s IH]; simpl; [reflexivity | now rewrite IH]. Qed.

(** *** Decimal numbers *)

Lemma uint_all_digits (d : Decimal.uint) :
  every Str.is_digit (NilEmpty.string_of_uint d) = true.
Proof. induction d; simpl; [reflexivity | exact IHd ..]. Qed.

Lemma to_uint_not_nil (n : nat) : Nat.to_uint n <> Decimal.Nil.
Proof.
  rewrite <- (DecimalNat.Unsigned.of_to n) at 1.
  rewrite DecimalNat.Unsigned.to_of. apply DecimalFacts.unorm_nonnil.
Qed.

Lemma decimal_digits (n : nat) : every Str.is_digit (decimal n) = true.
Proof. apply uint_all_digits. Qed.

Lemma decimal_cons (n : nat) :
  exists c rest, decimal n = String c rest /\ Str.is_digit c = true.
Proof.
  pose proof (decimal_digits n) as Hall. unfold decimal in *.
  pose proof (to_uint_not_nil n) as Hnil.
  destruct (Nat.to_uint n); [now destruct Hnil | ..];
    (eexists _, _; split; [reflexivity | reflexivity]).
Qed.

Lemma decimal_isdigit (n : nat) : Str.isdigit (decimal n) = true.
Proof.
  destruct (decimal_cons n) as [c [rest [Heq _]]].
  pose proof (decimal_digits n) as Hall. rewrite Heq in *.
  unfold Str.isdigit. now rewrite all_digits_every.
Qed.

Lemma int_digits_uint (d : Decimal.uint) (acc : nat) (flag : bool) :
  d <> Decimal.Nil \/ flag = true ->
  Str.int_digits (Z.of_nat acc) flag (NilEmpty.string_of_uint d)
  = Some (Z.of_nat (Nat.of_uint_acc d acc)).
Proof.
  revert acc flag.
  induction d; intros acc flag Hstart;
    [destruct Hstart as [H| ->]; [now destruct H | reflexivity]
    | simpl NilEmpty.string_of_uint; simpl Nat.of_uint_acc ..];
    (change (Str.int_digits (Z.of_nat acc) flag (String ?c ?s))
       with (Str.int_digits (10 * Z.of_nat acc + Str.digit_value c) true s);
     rewrite <- (IHd _ true) by (now right); f_equal;
     rewrite ?Nat2Z.inj_succ, Nat.tail_mul_spec, Nat2Z.inj_mul;
     vm_compute Str.digit_value; simpl Z.of_nat; lia).
Qed.

Lemma strip_plain (s : string) :
  every (fun c => negb (Str.is_space c)) s = true -> Str.strip s = s.
Proof.
  intros H. unfold Str.strip.
  assert (Hl : Str.lstrip s = s).
  { destruct s as [|c s]; [reflexivity|]. simpl in *.
    apply andb_true_iff in H as [Hc _]. apply negb_true_iff in Hc.
    now rewrite Hc. }
  rewrite Hl. clear Hl. induction s as [|c s IH]; [reflexivity|].
  simpl in *. apply andb_true_iff in H as [Hc Hs]. apply negb_true_iff in Hc.
  rewrite (IH Hs), Hc. now destruct s.
Qed.

Lemma digits_spaceless (s : string) :
  every Str.is_digit s = true ->
  every (fun c => negb (Str.is_space c)) s = true.
Proof.
  apply every_weaken. intros c Hc.
  destruct (digit_is_plain c Hc) as [-> _]. reflexivity.
Qed.

Lemma to_int_decimal (n : nat) : Str.to_int (decimal n) = Some (Z.of_nat n).
Proof.
  unfold Str.to_int.
  rewrite (strip_plain _ (digits_spaceless _ (decimal_digits n))).
  destruct (decimal_cons n) as [c [rest [Heq Hc]]].
  assert (Hbody : Str.int_digits 0 false (decimal n) = Some (Z.of_nat n)).
  { unfold decimal.
    pose proof (int_digits_uint (Nat.to_uint n) 0 false
                  (or_introl (to_uint_not_nil n))) as H.
    change (Z.of_nat 0) with 0 in H. rewrite H.
    f_equal. f_equal. apply DecimalNat.Unsigned.of_to. }
  rewrite Heq in *.
  destruct c as [[] [] [] [] [] [] [] []]; try discriminate Hc; exact Hbody.
Qed.

(** *** Splitting *)

Lemma split_plain (sep : ascii) (s : string) :
  every (fun c => negb (Ascii.eqb c sep)) s = true -> Str.split sep s = [s].
Proof.
  induction s as [|c s IH]; [reflexivity|]. simpl. intros H.
  apply andb_true_iff in H as [Hc Hs]. apply negb_true_iff in Hc.
  now rewrite Hc, (IH Hs).
Qed.

Lemma split_append (sep : ascii) (a b : string) :
  every (fun c => negb (Ascii.eqb c sep)) a = true ->
  Str.split sep (a +:+ String sep b) = a :: Str.split sep b.
Proof.
  induction a as [|c a IH]; intros H.
  - rewrite append_nil. simpl. now rewrite Ascii.eqb_refl.
  - rewrite append_cons. simpl in *.
    apply andb_true_iff in H as [Hc Ha]. apply negb_true_iff in Hc.
    now rewrite Hc, (IH Ha).
Qed.

Lemma digits_free (sep : ascii) (s : string) :
  Str.is_digit sep = false ->
  every Str.is_digit s = true ->
  every (fun c => negb (Ascii.eqb c sep)) s = true.
Proof.
  intros Hsep. apply every_weaken. intros c Hc.
  destruct (Ascii.eqb_spec c sep) as [->|_]; [congruence | reflexivity].
Qed.

(** *** One token *)

Lemma parse_single (n : nat) :
  Parse.parse_elem (decimal n) = Ok [Z.of_nat n].
Proof.
  unfold Parse.parse_elem.
  rewrite (strip_plain _ (digits_spaceless _ (decimal_digits n))).
  rewrite decimal_isdigit. unfold Parse.int. now rewrite to_int_decimal.
Qed.

Lemma span_text (lo hi : nat) :
  decimal lo +:+ "-" +:+ decimal hi = decimal lo +:+ String "-" (decimal hi).
Proof. reflexivity. Qed.

Lemma span_spaceless (lo hi : nat) :
  every (fun c => negb (Str.is_space c)) (decimal lo +:+ String "-" (decimal hi))
  = true.
Proof.
  rewrite every_append. simpl.
  now rewrite !(digits_spaceless _ (decimal_digits _)).
Qed.

Lemma span_not_isdigit (lo hi : nat) :
  Str.isdigit (decimal lo +:+ String "-" (decimal hi)) = false.
Proof.
  unfold Str.isdigit.
  destruct (decimal lo +:+ String "-" (decimal hi)) eqn:E; [reflexivity|].
  rewrite <- E, all_digits_every, every_append. simpl. apply andb_false_r.
Qed.

Lemma span_ints (lo hi : nat) :
  Parse.ints (Str.split "-" (decimal lo +:+ String "-" (decimal hi)))
  = Ok [Z.of_nat lo; Z.of_nat hi].
Proof.
  rewrite split_append
    by (apply digits_free; [reflexivity | apply decimal_digits]).
  rewrite split_plain
    by (apply digits_free; [reflexivity | apply decimal_digits]).
  simpl. unfold Parse.int.
  rewrite !(strip_plain _ (digits_spaceless _ (decimal_digits _))).
  now rewrite !to_int_decimal.
Qed.

Lemma parse_span (lo hi : nat) :
  Parse.parse_elem (render_token (Span lo hi))
  = if (lo <=? hi)%nat then Ok (spanned (Span lo hi))
    else Raise (AssertionError
                  "Begining index of a range must be <= ending index.").
Proof.
  unfold Parse.parse_elem, render_token. rewrite span_text.
  rewrite (strip_plain _ (span_spaceless lo hi)).
  rewrite span_not_isdigit, span_ints. simpl Parse.bind.
  destruct (Nat.leb_spec lo hi) as [Hle|Hgt].
  - rewrite (proj2 (Z.leb_le _ _)) by lia. reflexivity.
  - rewrite (proj2 (Z.leb_gt _ _)) by lia. reflexivity.
Qed.

Lemma parse_token (t : token) :
  ordered t -> Parse.parse_elem (render_token t) = Ok (spanned t).
Proof.
  destruct t as [n|lo hi]; intros Hord; [apply parse_single|].
  rewrite parse_span. simpl in Hord.
  now rewrite (proj2 (Nat.leb_le _ _) Hord).
Qed.

(** *** A whole list *)

Lemma token_comma_free (t : token) :
  every (fun c => negb (Ascii.eqb c ",")) (render_token t) = true.
Proof.
  destruct t as [n|lo hi]; simpl.
  - apply digits_free; [reflexivity | apply decimal_digits].
  - rewrite span_text, every_append. simpl.
    now rewrite !(digits_free "," _ eq_refl (decimal_digits _)).
Qed.

Lemma token_spaceless (t : token) :
  every (fun c => negb (Str.is_space c)) (render_token t) = true.
Proof.
  destruct t as [n|lo hi]; simpl.
  - apply digits_spaceless, decimal_digits.
  - rewrite span_text. apply span_spaceless.
Qed.

Lemma render_cons (t t' : token) (toks : list token) :
  render (t :: t' :: toks)
  = render_token t +:+ String "," (render (t' :: toks)).
Proof. reflexivity. Qed.

Lemma split_render (t : token) (toks : list token) :
  Str.split "," (render (t :: toks)) = map render_token (t :: toks).
Proof.
  revert t. induction toks as [|t' toks IH]; intros t.
  - apply split_plain, token_comma_free.
  - rewrite render_cons, split_append by apply token_comma_free.
    now rewrite IH.
Qed.

Lemma render_spaceless (toks : list token) :
  every (fun c => negb (Str.is_space c)) (render toks) = true.
Proof.
  destruct toks as [|t toks]; [reflexivity|]. revert t.
  induction toks as [|t' toks IH]; intros t.
  - apply token_spaceless.
  - rewrite render_cons, every_append, token_spaceless. simpl. apply IH.
Qed.

Lemma render_not_empty (t : token) (toks : list token) :
  String.eqb (render (t :: toks)) "" = false.
Proof.
  assert (Hcons : exists c rest, render (t :: toks) = String c rest).
  { assert (Htok : exists c rest, render_token t = String c rest).
    { destruct t as [n|lo hi]; simpl.
      - destruct (decimal_cons n) as [c [rest [-> _]]]. now eexists _, _.
      - destruct (decimal_cons lo) as [c [rest [-> _]]].
        rewrite append_cons. now eexists _, _. }
    destruct Htok as [c [rest Htok]]. destruct toks as [|t' toks].
    - now exists c, rest.
    - rewrite render_cons, Htok, append_cons. now eexists _, _. }
  destruct Hcons as [c [rest ->]]. reflexivity.
Qed.

Lemma parse_elems_rendered (toks : list token) (ret : list Z) :
  Forall ordered toks ->
  Parse.parse_elems (map render_token toks) ret
  = Ok (ret ++ concat (map spanned toks)).
Proof.
  intros Hord. revert ret. induction Hord as [|t toks Ht _ IH]; intros ret.
  - simpl. now rewrite app_nil_r.
  - simpl. rewrite (parse_token t Ht). simpl Parse.bind.
    rewrite IH. now rewrite <- app_assoc.
Qed.

(** The first element that raises ends the loop. *)
Lemma parse_elems_raises (pre post : list string) (elem : string) (e : exn)
    (ret : list Z) :
  (forall x, x ∈ pre -> is_ok (Parse.parse_elem x) = true) ->
  Parse.parse_elem elem = Raise e ->
  Parse.parse_elems (pre ++ elem :: post) ret = Raise e.
Proof.
  revert ret. induction pre as [|x pre IH]; intros ret Hpre Helem; simpl.
  - now rewrite Helem.
  - pose proof (Hpre x ltac:(now left)) as Hx.
    destruct (Parse.parse_elem x) as [zs|e']; [|discriminate Hx].
    simpl. apply IH; [|exact Helem]. intros y Hy. apply Hpre. now right.
Qed.

End Parser.

Lemma parse_rendered (t : token) (toks : list token) :
  Parse.parse_list_argument (render (t :: toks))
  = Parse.bind (Parse.parse_elems (map render_token (t :: toks)) [])
      (fun ret => Ok (list_to_set ret)).
Proof.
  unfold Parse.parse_list_argument.
  rewrite (strip_plain _ (render_spaceless (t :: toks))).
  now rewrite render_not_empty, split_render.
Qed.

(** ** The integers of a range list *)

Section Members.

Lemma parse_render_denoted (toks : list token) :
  Forall ordered toks ->
  Parse.parse_list_argument (render toks) = Ok (denoted toks).
Proof.
  intros Hord. destruct toks as [|t toks]; [reflexivity|].
  rewrite parse_rendered, (parse_elems_rendered _ _ Hord). reflexivity.
Qed.

Lemma spanned_covers (t : token) (z : Z) : z ∈ spanned t <-> covers t z.
Proof.
  destruct t as [n | lo hi]; cbn [spanned covers].
  - apply list_elem_of_singleton.
  - unfold Parse.range_incl. rewrite elem_of_seqZ. lia.
Qed.

Lemma concat_covers (toks : list token) (z : Z) :
  z ∈ concat (map spanned toks) <-> exists t, t ∈ toks /\ covers t z.
Proof.
  induction toks as [|t toks IH]; cbn [map concat].
  - split; [intros H; inversion H | intros (t & Ht & _); inversion Ht].
  - rewrite elem_of_app, spanned_covers, IH. split.
    + intros [H | (t' & Ht' & H)].
      * exists t. split; [apply list_elem_of_here | exact H].
      * exists t'. split; [now apply list_elem_of_further | exact H].
    + intros (t' & Ht' & H). apply elem_of_cons in Ht' as [-> | Ht'].
      * now left.
      * right. now exists t'.
Qed.

Lemma denoted_covers (toks : list token) (z : Z) :
  z ∈ denoted toks <-> exists t, t ∈ toks /\ covers t z.
Proof. unfold denoted. rewrite elem_of_list_to_set. apply concat_covers. Qed.

Lemma denoted_app (a b : list token) :
  denoted (a ++ b) = denoted a ∪ denoted b.
Proof.
  unfold denoted. now rewrite map_app, concat_app, list_to_set_app_L.
Qed.

Lemma denoted_perm (a b : list token) : a ≡ₚ b -> denoted a = denoted b.
Proof.
  intros Hperm. apply set_eq. intros z. rewrite !denoted_covers.
  split; intros (t & Ht & Hz); exists t; split; try exact Hz.
  - now rewrite <- Hperm.
  - now rewrite Hperm.
Qed.

End Members.

(** C6.  [parse_list_argument] maps the text of a range list, whose tokens
    are non-negative integers in decimal digits and pairs low-high with
    low <= high, separated by commas, to the set of all integers named or
    spanned: an integer is in the result exactly when some token is that
    integer, or is a pair whose bounds it lies between, the bounds
    included.  So ["0,2-4,7"] gives {0,2,3,4,7}, ["1,1,1"] gives {1} and
    the empty text gives the empty set.  It raises when a pair has its low
    bound above its high bound, as in ["5-3"]; and it raises when an
    element that is not a string of digits does not split at its hyphens
    into exactly two integers: an element that raises makes the whole call
    raise. *)
Theorem parse_list_argument_spec :
  (forall toks,
      Forall ordered toks ->
      exists ret,
        Parse.parse_list_argument (render toks) = Ok ret
        /\ forall z, z ∈ ret <-> exists t, t ∈ toks /\ covers t z)
  /\ Parse.parse_list_argument "0,2-4,7" = Ok ({[0; 2; 3; 4; 7]} : gset Z)
  /\ Parse.parse_list_argument "1,1,1" = Ok ({[1]} : gset Z)
  /\ Parse.parse_list_argument "" = Ok (∅ : gset Z)
  /\ Parse.parse_list_argument "5-3"
     = Raise (AssertionError
                "Begining index of a range must be <= ending index.")
  /\ (forall pre lo hi post,
         Forall ordered pre -> (hi < lo)%nat ->
         Parse.parse_list_argument (render (pre ++ Span lo hi :: post))
         = Raise (AssertionError
                    "Begining index of a range must be <= ending index."))
  /\ (forall elem,
         Str.isdigit (Str.strip elem) = false ->
         (forall b e,
             Parse.ints (Str.split "-" (Str.strip elem)) <> Ok [b; e]) ->
         exists e, Parse.parse_elem elem = Raise e)
  /\ (forall txt pre elem post e,
         String.eqb (Str.strip txt) "" = false ->
         Str.split "," (Str.strip txt) = pre ++ elem :: post ->
         (forall x, x ∈ pre -> is_ok (Parse.parse_elem x) = true) ->
         Parse.parse_elem elem = Raise e ->
         Parse.parse_list_argument txt = Raise e).
Proof.
  split.
  { intros toks Hord. exists (denoted toks).
    split; [now apply parse_render_denoted | apply denoted_covers]. }
  split; [vm_compute; reflexivity|].
  split; [vm_compute; reflexivity|].
  split; [vm_compute; reflexivity|].
  split; [vm_compute; reflexivity|].
  split.
  { intros pre lo hi post Hord Hgt.
    assert (Hlist : exists t toks, pre ++ Span lo hi :: post = t :: toks).
    { destruct pre as [|t pre]; simpl; now eexists _, _. }
    destruct Hlist as [t [toks Hlist]].
    rewrite Hlist, parse_rendered, <- Hlist, map_app. cbn [map].
    rewrite (parse_elems_raises _ _ _
               (AssertionError
                  "Begining index of a range must be <= ending index."));
      [reflexivity | |].
    - intros x Hx. apply list_elem_of_fmap in Hx as [tok [-> Htok]].
      rewrite parse_token; [reflexivity|].
      rewrite Forall_forall in Hord. now apply Hord.
    - rewrite parse_span. now rewrite (proj2 (Nat.leb_gt _ _) Hgt). }
  split.
  { intros elem Hdigit Hparts. unfold Parse.parse_elem. rewrite Hdigit.
    destruct (Parse.ints (Str.split "-" (Str.strip elem)))
      as [[|b [|e [|x rest]]]|exn] eqn:Hints; simpl; try (now eexists).
    destruct (Hparts b e eq_refl). }
  intros txt pre elem post e Hne Hsplit Hpre Helem.
  unfold Parse.parse_list_argument. rewrite Hne, Hsplit.
  now rewrite (parse_elems_raises pre post elem e [] Hpre Helem).
Qed.

Lemma parse_list_argument_spec_witness :
  (exists ret,
      Parse.parse_list_argument (render [Single 0; Span 2 4; Single 7]) = Ok ret
      /\ 3 ∈ ret /\ 5 ∉ ret)
  /\ Parse.parse_list_argument (render [Single 1; Span 9 8])
     = Raise (AssertionError
                "Begining index of a range must be <= ending index.")
  /\ (exists e, Parse.parse_elem "1-2-3" = Raise e)
  /\ Parse.parse_list_argument "1,1-2-3"
     = Raise (AssertionError "Invalid range format detected.").
Proof.
  destruct parse_list_argument_spec
    as [Hround [_ [_ [_ [_ [Hinverted [Hparts Hwhole]]]]]]].
  split.
  { destruct (Hround [Single 0; Span 2 4; Single 7]) as (ret & Hret & Hin);
      [repeat constructor|].
    exists ret. split; [exact Hret|]. split.
    - apply Hin. exists (Span 2 4). split; [repeat constructor|].
      cbn [covers]. lia.
    - intros H. apply Hin in H as (t & Ht & Hz).
      repeat (apply elem_of_cons in Ht as [-> | Ht]);
        [cbn [covers] in Hz; lia .. | inversion Ht]. }
  split.
  { apply (Hinverted [Single 1] 9%nat 8%nat []); [repeat constructor | lia]. }
  split.
  { apply Hparts; [reflexivity|]. intros b e H. vm_compute in H. discriminate H. }
  apply (Hwhole "1,1-2-3" ["1"] "1-2-3" []); try reflexivity.
  intros x Hx. apply elem_of_cons in Hx as [->|Hx]; [reflexivity | inversion Hx].
Defined.

(** ** The methods return *)

Section Returns.

Variable w : World.

Lemma set_memory_allocator_returns (memory_allocator : string)
    (benchmark : bool) (skip_list : list string) (l : Launcher) :
  ma_supported l = ["auto"; "default"; "tcmalloc"; "jemalloc"] ->
  exists r,
    value (set_memory_allocator w memory_allocator benchmark skip_list l) = Ok r.
Proof.
  intros Hma.
  assert (Hauto : "auto" ∉ ["tcmalloc"; "jemalloc"])
    by (apply not_in_two; discriminate).
  assert (Hdef : "default" ∉ ["tcmalloc"; "jemalloc"])
    by (apply not_in_two; discriminate).
  assert (Hd : "default" <> "auto") by discriminate.
  destruct (set_lib_bin_from_list_preload w ma_lib_name "memory allocator"
              "default" ["tcmalloc"; "jemalloc"] skip_list
              "This may drop the performance." Hauto Hdef
              ma_candidates_mapped memory_allocator l Hd)
    as [Hvalue _].
  rewrite set_memory_allocator_spec. cbv zeta. rewrite Hma, Hvalue.
  now eexists.
Qed.

Lemma set_omp_runtime_returns (omp_runtime : string) (set_kmp_affinity : bool)
    (l : Launcher) :
  omp_supported l = ["auto"; "default"; "intel"] ->
  exists r, value (set_omp_runtime w omp_runtime set_kmp_affinity l) = Ok r.
Proof.
  intros Homp.
  assert (Hauto : "auto" ∉ ["intel"]) by (apply not_in_one; discriminate).
  assert (Hdef : "default" ∉ ["intel"]) by (apply not_in_one; discriminate).
  assert (Hd : "default" <> "auto") by discriminate.
  destruct (set_lib_bin_from_list_preload w omp_lib_name "OpenMP runtime"
              "default" ["intel"] [] "" Hauto Hdef
              omp_candidates_mapped omp_runtime l Hd)
    as [Hvalue _].
  destruct (set_omp_runtime_spec w omp_runtime set_kmp_affinity l) as [Hv _].
  rewrite Hv, Homp, Hvalue. now eexists.
Qed.

End Returns.

(** ** Logging levels *)

(** C8, as stated, fails on a launcher without a logger: [verbose] with
    the level [debug] does not raise, and it prints the message. *)
Lemma verbose_bad_level_without_logger :
  logger (init bare_world false) = false
  /\ verbose "debug" "hello" (init bare_world false)
     = {| value := Ok tt; after := init bare_world false;
          emitted := [Print "hello"] |}
  /\ ~ (exists e, value (verbose "debug" "hello" (init bare_world false)) = Raise e).
Proof.
  split; [reflexivity|]. split; [reflexivity|].
  intros [e He]. discriminate He.
Qed.

(** C8, amended.  On a launcher with a logger, [verbose] with a level other
    than [warning] and [info] raises an assertion error that names the
    level, and emits nothing.  On a launcher without a logger it prints the
    message whatever the level is, and does not raise.  With the levels
    [warning] and [info], the only ones the launcher's own methods use,
    [verbose] never raises: it hands the message to the logger, or prints
    it when there is none.  So the recoverable conditions never raise:
    [add_env] always returns, whatever the ambient environment, and on a
    launcher with the lists of [__init__] so do [set_memory_allocator] and
    [set_omp_runtime], whatever is requested, excluded or installed. *)
Theorem verbose_levels (l : Launcher) (level msg : string) :
  (logger l = true -> level <> "warning" -> level <> "info" ->
   exists m,
     verbose level msg l
     = {| value := Raise (AssertionError m); after := l; emitted := [] |}
     /\ Str.contains m level = true)
  /\ (logger l = false ->
      verbose level msg l
      = {| value := Ok tt; after := l; emitted := [Print msg] |})
  /\ verbose "warning" msg l
     = {| value := Ok tt; after := l;
          emitted := [if logger l then LoggerWarning msg else Print msg] |}
  /\ verbose "info" msg l
     = {| value := Ok tt; after := l;
          emitted := [if logger l then LoggerInfo msg else Print msg] |}
  /\ (forall w name desired, value (add_env w name desired l) = Ok tt)
  /\ (ma_supported l = ["auto"; "default"; "tcmalloc"; "jemalloc"] ->
      forall w memory_allocator benchmark skip_list,
      exists r,
        value (set_memory_allocator w memory_allocator benchmark skip_list l)
        = Ok r)
  /\ (omp_supported l = ["auto"; "default"; "intel"] ->
      forall w omp_runtime set_kmp_affinity,
      exists r,
        value (set_omp_runtime w omp_runtime set_kmp_affinity l) = Ok r).
Proof.
  split; [apply verbose_bad_level|].
  split; [apply verbose_no_logger|].
  split; [rewrite verbose_warning; unfold said; now destruct (logger l)|].
  split; [rewrite verbose_info; unfold said; now destruct (logger l)|].
  split; [intros w name desired; now rewrite add_env_spec|].
  split.
  - intros Hma w memory_allocator benchmark skip_list.
    now apply set_memory_allocator_returns.
  - intros Homp w omp_runtime set_kmp_affinity.
    now apply set_omp_runtime_returns.
Qed.

Lemma verbose_levels_witness :
  (exists m,
      verbose "debug" "hello" (init bare_world true)
      = {| value := Raise (AssertionError m); after := init bare_world true;
           emitted := [] |})
  /\ verbose "debug" "hello" (init bare_world false)
     = {| value := Ok tt; after := init bare_world false;
          emitted := [Print "hello"] |}
  /\ exists r,
       value (set_memory_allocator bare_world "foobar" false []
                (init bare_world false)) = Ok r.
Proof.
  split; [|split].
  - destruct (verbose_levels (init bare_world true) "debug" "hello")
      as [Hbad _].
    destruct Hbad as [m [Hrun _]]; [reflexivity | discriminate | discriminate |].
    exists m. exact Hrun.
  - destruct (verbose_levels (init bare_world false) "debug" "hello")
      as [_ [Hprint _]].
    apply Hprint. reflexivity.
  - destruct (verbose_levels (init bare_world false) "debug" "hello")
      as [_ [_ [_ [_ [_ [Hma _]]]]]].
    apply (Hma eq_refl).
Defined.

(** * Further properties of the launcher *)

(** ** More on strings *)

Section MoreStrFacts.

Lemma append_assoc (a b c : string) : (a +:+ b) +:+ c = a +:+ (b +:+ c).
Proof.
  induction a as [|x a IH]; [now rewrite !append_nil|].
  now rewrite !append_cons, IH.
Qed.

Lemma length_append (a b : string) :
  String.length (a +:+ b) = (String.length a + String.length b)%nat.
Proof.
  induction a as [|x a IH]; [now rewrite append_nil|].
  rewrite append_cons. cbn [String.length]. now rewrite IH.
Qed.

Lemma substring_all (b : string) : substring 0 (String.length b) b = b.
Proof. induction b as [|x b IH]; [reflexivity|]. cbn. now rewrite IH. Qed.

Lemma substring_append (a b : string) :
  substring (String.length a) (String.length b) (a +:+ b) = b.
Proof.
  induction a as [|x a IH].
  - rewrite append_nil. apply substring_all.
  - rewrite append_cons. cbn [String.length substring]. exact IH.
Qed.

Lemma endswith_append (a b : string) : Str.endswith (a +:+ b) b = true.
Proof.
  unfold Str.endswith. rewrite length_append.
  replace (String.length a + String.length b - String.length b)%nat
    with (String.length a) by lia.
  rewrite substring_append, String.eqb_refl, andb_true_r.
  apply Nat.leb_le. lia.
Qed.

Lemma drop_last_append (a : string) (c : ascii) :
  Str.drop_last (a +:+ Str.one c) = a.
Proof.
  induction a as [|x a IH]; [reflexivity|].
  rewrite append_cons. cbn [Str.drop_last].
  destruct (a +:+ Str.one c) as [|y r] eqn:E.
  - destruct a; rewrite ?append_nil, ?append_cons in E; discriminate E.
  - now rewrite IH.
Qed.

End MoreStrFacts.

(** ** The search for a library file *)

Section Search.

Variable w : World.

Lemma find_library_found (paths : list string) (lib_type m : string) :
  find_library w paths lib_type = Some m <->
  exists pre lib_path post rest,
    paths = pre ++ lib_path :: post
    /\ (forall q, q ∈ pre -> glob w (library_file q lib_type) = [])
    /\ glob w (library_file lib_path lib_type) = m :: rest.
Proof.
  split.
  - induction paths as [|q paths IH]; [discriminate|].
    cbn [find_library].
    destruct (glob w (library_file q lib_type)) as [|m' rest] eqn:Hq.
    + intros H. destruct (IH H) as (pre & p & post & rest & -> & Hpre & Hp).
      exists (q :: pre), p, post, rest. split; [reflexivity|].
      split; [|exact Hp].
      intros x Hx. apply elem_of_cons in Hx as [-> | Hx]; auto.
    + intros [= ->]. exists [], q, paths, rest.
      split; [reflexivity|]. split; [|exact Hq].
      intros x Hx. inversion Hx.
  - intros (pre & p & post & rest & -> & Hpre & Hp).
    induction pre as [|q pre IH]; cbn [app find_library].
    + now rewrite Hp.
    + rewrite (Hpre q) by apply list_elem_of_here.
      apply IH. intros x Hx. apply Hpre. now apply list_elem_of_further.
Qed.

Lemma find_library_missing (paths : list string) (lib_type : string) :
  find_library w paths lib_type = None <->
  forall lib_path,
    lib_path ∈ paths -> glob w (library_file lib_path lib_type) = [].
Proof.
  split.
  - induction paths as [|q paths IH]; intros H x Hx; [inversion Hx|].
    cbn [find_library] in H.
    destruct (glob w (library_file q lib_type)) as [|m rest] eqn:Hq;
      [|discriminate].
    apply elem_of_cons in Hx as [-> | Hx]; auto.
  - apply find_library_none.
Qed.

End Search.

(** X1 -- When an entry of the preload list is already a file
    [lib<type>.so], [add_lib_preload] returns [True] without searching and
    leaves the launcher as it was.  Otherwise it searches the directories
    in the order of [library_paths]: it returns [True] and appends the file
    [m] to the preload list exactly when [m] is the first match that [glob]
    reports for the first directory that has a match, whatever the later
    directories hold; and it returns [False], leaving the launcher as it
    was, exactly when no directory has a match. *)
Theorem add_lib_preload_first_match (w : World) (lib_type : string)
    (l : Launcher) :
  let o := add_lib_preload w lib_type l in
  (preloaded l lib_type = true ->
   o = {| value := Ok true; after := l; emitted := [] |})
  /\ (preloaded l lib_type = false ->
      (forall m,
          value o = Ok true
          /\ after o = with_ld_preload (ld_preload l ++ [m]) l
          <-> exists pre lib_path post rest,
                library_paths l = pre ++ lib_path :: post
                /\ (forall q,
                       q ∈ pre -> glob w (library_file q lib_type) = [])
                /\ glob w (library_file lib_path lib_type) = m :: rest)
      /\ (value o = Ok false
          <-> forall lib_path,
                lib_path ∈ library_paths l ->
                glob w (library_file lib_path lib_type) = [])
      /\ (value o = Ok false -> after o = l)
      /\ emitted o = []).
Proof.
  cbv zeta. rewrite add_lib_preload_spec. cbn [value after emitted].
  unfold available, probed_launcher.
  split; [now intros ->|].
  intros ->. cbn [orb].
  destruct (find_library w (library_paths l) lib_type) as [m'|] eqn:Hfind.
  - split; [|split; [|split]]; [| |discriminate|reflexivity].
    + intros m. split.
      * intros [_ Hafter]. apply (f_equal ld_preload) in Hafter.
        cbn [ld_preload with_ld_preload] in Hafter.
        apply app_inv_head in Hafter. injection Hafter as ->.
        now apply find_library_found.
      * intros Hfirst. apply find_library_found in Hfirst.
        rewrite Hfind in Hfirst. injection Hfirst as ->. now split.
    + split; [discriminate|].
      intros Hnone. apply find_library_missing in Hnone.
      rewrite Hfind in Hnone. discriminate Hnone.
  - split; [|split; [|split]]; [| |reflexivity|reflexivity].
    + intros m. split; [intros [Hv _]; discriminate Hv|].
      intros Hfirst. apply find_library_found in Hfirst.
      rewrite Hfind in Hfirst. discriminate Hfirst.
    + split; [intros _; now apply find_library_missing | reflexivity].
Qed.

Lemma add_lib_preload_first_match_witness :
  let o := add_lib_preload conda_world "iomp5" (init conda_world false) in
  value o = Ok true
  /\ ld_preload (after o)
     = ["/a/libx.so"; "/b/liby.so"; "/opt/conda/lib/libiomp5.so"].
Proof.
  intros o.
  destruct (add_lib_preload_first_match conda_world "iomp5"
              (init conda_world false)) as [_ Hsearch].
  destruct (Hsearch eq_refl) as [Hfound _].
  destruct (proj2 (Hfound "/opt/conda/lib/libiomp5.so")) as [Hv Ha].
  - exists [], "/opt/conda/lib/",
      (tail (library_paths (init conda_world false))), [].
    split; [reflexivity|]. split; [|reflexivity].
    intros q Hq. inversion Hq.
  - split; [exact Hv|]. fold o in Ha. now rewrite Ha.
Defined.

(** ** Probing twice *)

Section Again.

Variable w : World.

Lemma preloaded_app (l : Launcher) (token m : string) :
  preloaded (with_ld_preload (ld_preload l ++ [m]) l) token
  = preloaded l token || Str.endswith m (lib_so token).
Proof.
  unfold preloaded. cbn [ld_preload with_ld_preload].
  rewrite existsb_app. cbn [existsb]. now rewrite orb_false_r.
Qed.

Lemma probed_launcher_preloaded (l : Launcher) (token : string) :
  (forall m,
      find_library w (library_paths l) token = Some m ->
      Str.endswith m (lib_so token) = true) ->
  preloaded (probed_launcher w l token) token = available w l token.
Proof.
  intros Hglob. unfold probed_launcher, available.
  destruct (preloaded l token) eqn:Hp; [now rewrite Hp|].
  destruct (find_library w (library_paths l) token) as [m|] eqn:Hf.
  - rewrite preloaded_app, Hp, (Hglob m eq_refl). reflexivity.
  - now rewrite Hp.
Qed.

Lemma probed_launcher_paths (l : Launcher) (token : string) :
  library_paths (probed_launcher w l token) = library_paths l.
Proof.
  unfold probed_launcher.
  destruct (preloaded l token); [reflexivity|].
  now destruct (find_library w (library_paths l) token).
Qed.

Lemma probed_launcher_again (l : Launcher) (token : string) :
  (forall m,
      find_library w (library_paths l) token = Some m ->
      Str.endswith m (lib_so token) = true) ->
  available w (probed_launcher w l token) token = available w l token
  /\ probed_launcher w (probed_launcher w l token) token
     = probed_launcher w l token.
Proof.
  intros Hglob.
  pose proof (probed_launcher_preloaded l token Hglob) as Hp.
  split.
  - unfold available at 1. rewrite Hp, probed_launcher_paths.
    unfold available. destruct (preloaded l token); [reflexivity|].
    cbn [orb]. now destruct (find_library w (library_paths l) token).
  - unfold probed_launcher at 1. rewrite Hp, probed_launcher_paths.
    unfold available.
    destruct (preloaded l token) eqn:Hl; [reflexivity|]. cbn [orb].
    destruct (find_library w (library_paths l) token) as [m|] eqn:Hf;
      [reflexivity|].
    unfold probed_launcher. now rewrite Hl, Hf.
Qed.

End Again.

(** X2 -- [add_lib_preload] called a second time for the same library
    answers as the first call did and leaves the preload list as the first
    call left it: the library is never added twice.  It answers [True]
    exactly when the preload list then holds a file [lib<type>.so], it
    leaves a list that already holds one untouched, and otherwise it
    appends at most one entry behind the existing ones.  This needs that
    the file [glob] reports bears the name searched for. *)
Theorem add_lib_preload_again (w : World) (lib_type : string) (l : Launcher) :
  (forall m,
      find_library w (library_paths l) lib_type = Some m ->
      Str.endswith m (lib_so lib_type) = true) ->
  let o1 := add_lib_preload w lib_type l in
  let o2 := add_lib_preload w lib_type (after o1) in
  value o2 = value o1
  /\ after o2 = after o1
  /\ (value o1 = Ok true <-> preloaded (after o1) lib_type = true)
  /\ (preloaded l lib_type = true -> after o1 = l)
  /\ (ld_preload (after o1) = ld_preload l
      \/ exists m, ld_preload (after o1) = ld_preload l ++ [m]).
Proof.
  intros Hglob o1 o2. subst o1 o2.
  rewrite (add_lib_preload_spec w lib_type l). cbn [value after].
  rewrite add_lib_preload_spec. cbn [value after].
  destruct (probed_launcher_again w l lib_type Hglob) as [Hav Hl].
  rewrite Hav, Hl, (probed_launcher_preloaded w l lib_type Hglob).
  split; [reflexivity|]. split; [reflexivity|].
  split; [split; [now intros [= ->] | now intros ->]|].
  unfold probed_launcher. split.
  - now intros ->.
  - destruct (preloaded l lib_type); [now left|].
    destruct (find_library w (library_paths l) lib_type) as [m|];
      [right; now exists m | now left].
Qed.

Lemma add_lib_preload_again_witness :
  let l := init jemalloc_world false in
  let o1 := add_lib_preload jemalloc_world "jemalloc" l in
  let o2 := add_lib_preload jemalloc_world "jemalloc" (after o1) in
  value o1 = Ok true
  /\ ld_preload (after o1) = ["/usr/lib/libjemalloc.so"]
  /\ after o2 = after o1.
Proof.
  intros l o1 o2.
  split; [reflexivity|]. split; [reflexivity|].
  apply (add_lib_preload_again jemalloc_world "jemalloc" l).
  intros m Hm. vm_compute in Hm. injection Hm as <-. reflexivity.
Defined.

(** ** The pattern of the search *)

Section Pattern.

Lemma library_file_with_slash (a lib_type : string) :
  library_file (a +:+ "/") lib_type = (a +:+ "/") +:+ lib_so lib_type.
Proof.
  unfold library_file, lib_so.
  rewrite (endswith_append a "/").
  change "/"%string with (Str.one "/") at 1.
  rewrite drop_last_append, append_assoc.
  change ("/" +:+ "lib" +:+ lib_type +:+ ".so")
    with ("/lib" +:+ lib_type +:+ ".so").
  reflexivity.
Qed.

Lemma library_file_without_slash (a lib_type : string) :
  Str.endswith a "/" = false ->
  library_file a lib_type = a +:+ "/" +:+ lib_so lib_type.
Proof.
  intros H. unfold library_file, lib_so. rewrite H. reflexivity.
Qed.

Lemma init_library_paths_slash (w : World) (logger : bool) (p : string) :
  p ∈ library_paths (init w logger) -> exists a, p = a +:+ "/".
Proof.
  unfold init. cbn [library_paths]. intros H.
  repeat (apply elem_of_app in H as [H | H]).
  - destruct (environ w !! "CONDA_PREFIX") as [c|]; [|inversion H].
    apply list_elem_of_singleton in H as ->.
    exists (c +:+ "/lib"). now rewrite append_assoc.
  - destruct (environ w !! "VIRTUAL_ENV") as [c|]; [|inversion H].
    apply list_elem_of_singleton in H as ->.
    exists (c +:+ "/lib"). now rewrite append_assoc.
  - repeat (apply elem_of_cons in H as [-> | H]).
    + exists (home w +:+ "/.local/lib"). now rewrite append_assoc.
    + now exists "/usr/local/lib".
    + now exists "/usr/local/lib64".
    + now exists "/usr/lib".
    + now exists "/usr/lib64".
    + now exists "/usr/lib/x86_64-linux-gnu".
    + inversion H.
Qed.

End Pattern.

(** X3 -- The pattern that [add_lib_preload] hands to [glob] is the search
    directory followed by the file name [lib<type>.so], with exactly one
    slash between them whether or not the directory is written with a
    final slash.  Every search directory of a fresh launcher ends with a
    slash, so the pattern there is the directory followed by the file
    name. *)
Theorem library_file_trailing_slash :
  (forall a lib_type,
      library_file (a +:+ "/") lib_type = (a +:+ "/") +:+ lib_so lib_type)
  /\ (forall a lib_type,
         Str.endswith a "/" = false ->
         library_file a lib_type = library_file (a +:+ "/") lib_type)
  /\ (forall w logger lib_path lib_type,
         lib_path ∈ library_paths (init w logger) ->
         Str.endswith lib_path "/" = true
         /\ library_file lib_path lib_type = lib_path +:+ lib_so lib_type).
Proof.
  split; [apply library_file_with_slash|]. split.
  - intros a lib_type H.
    rewrite library_file_with_slash, (library_file_without_slash a lib_type H).
    now rewrite append_assoc.
  - intros w logger p lib_type Hp.
    destruct (init_library_paths_slash w logger p Hp) as [a ->].
    split; [apply endswith_append | apply library_file_with_slash].
Qed.

Lemma library_file_trailing_slash_witness :
  library_file "/opt/lib" "iomp5" = library_file "/opt/lib/" "iomp5"
  /\ library_file "/opt/conda/lib/" "iomp5" = "/opt/conda/lib/libiomp5.so".
Proof.
  destruct library_file_trailing_slash as [_ [Hno Hinit]].
  split.
  - apply (Hno "/opt/lib" "iomp5"). reflexivity.
  - apply (Hinit conda_world false "/opt/conda/lib/" "iomp5").
    vm_compute. apply list_elem_of_here.
Defined.

(** ** The preload list of a fresh launcher *)

Section Pieces.

Variable sep : ascii.

Lemma split_not_nil (s : string) : Str.split sep s <> [].
Proof.
  destruct s as [|c s]; cbn [Str.split]; [discriminate|].
  destruct (Ascii.eqb c sep); [discriminate|].
  destruct (Str.split sep s); discriminate.
Qed.

Lemma join_cons (p q : string) (ps : list string) :
  Str.join (Str.one sep) (p :: q :: ps)
  = p +:+ String sep (Str.join (Str.one sep) (q :: ps)).
Proof. reflexivity. Qed.

Lemma join_split (s : string) : Str.join (Str.one sep) (Str.split sep s) = s.
Proof.
  induction s as [|c s IH]; [reflexivity|].
  cbn [Str.split].
  destruct (Ascii.eqb c sep) eqn:Hc.
  - apply Ascii.eqb_eq in Hc as ->.
    destruct (Str.split sep s) as [|q qs] eqn:Hs;
      [now apply split_not_nil in Hs|].
    now rewrite join_cons, IH, append_nil.
  - destruct (Str.split sep s) as [|q qs] eqn:Hs;
      [now apply split_not_nil in Hs|].
    destruct qs as [|q' qs].
    + cbn [Str.join] in *. now rewrite IH.
    + rewrite join_cons in *. now rewrite append_cons, IH.
Qed.

Lemma split_pieces_free (s x : string) :
  x ∈ Str.split sep s -> every (fun c => negb (Ascii.eqb c sep)) x = true.
Proof.
  revert x. induction s as [|c s IH]; intros x; cbn [Str.split].
  - intros H. now apply list_elem_of_singleton in H as ->.
  - destruct (Ascii.eqb c sep) eqn:Hc.
    + intros H. apply elem_of_cons in H as [-> | H]; [reflexivity | auto].
    + destruct (Str.split sep s) as [|q qs] eqn:Hs;
        [now apply split_not_nil in Hs|].
      intros H. apply elem_of_cons in H as [-> | H].
      * cbn [every]. rewrite Hc. cbn [negb andb].
        apply IH, list_elem_of_here.
      * apply IH. now apply list_elem_of_further.
Qed.

Lemma free_not_contains (x : string) :
  every (fun c => negb (Ascii.eqb c sep)) x = true ->
  Str.contains x (Str.one sep) = false.
Proof.
  induction x as [|c x IH]; [reflexivity|].
  cbn [every]. intros H. apply andb_true_iff in H as [Hc Hx].
  cbn [Str.contains]. rewrite (IH Hx), orb_false_r.
  unfold Str.one. cbn [String.prefix].
  destruct (ascii_dec sep c) as [-> |]; [|reflexivity].
  now rewrite Ascii.eqb_refl in Hc.
Qed.

End Pieces.

(** X4 -- The preload list of a fresh launcher is the value of
    [LD_PRELOAD] cut at its colons: joining the entries with colons gives
    the value back, and no entry has a colon.  The list is empty only when
    [LD_PRELOAD] is not set at all; a variable that is set, even to the
    empty string, gives at least one entry. *)
Theorem init_ld_preload (w : World) (logger : bool) :
  (ld_preload (init w logger) = [] <-> environ w !! "LD_PRELOAD" = None)
  /\ (forall v,
         environ w !! "LD_PRELOAD" = Some v ->
         Str.join ":" (ld_preload (init w logger)) = v
         /\ forall entry,
              entry ∈ ld_preload (init w logger) ->
              Str.contains entry ":" = false)
  /\ (environ w !! "LD_PRELOAD" = Some "" -> ld_preload (init w logger) = [""]).
Proof.
  unfold init. cbn [ld_preload].
  destruct (environ w !! "LD_PRELOAD") as [v|] eqn:Hv.
  - split; [|split].
    + split; [|discriminate]. intros H. now apply split_not_nil in H.
    + intros v' [= <-]. split; [apply (join_split ":")|].
      intros entry H. apply (free_not_contains ":").
      now apply (split_pieces_free ":" v).
    + intros [= ->]. reflexivity.
  - split; [|split]; [tauto | discriminate | discriminate].
Qed.

Lemma init_ld_preload_witness :
  Str.join ":" (ld_preload (init conda_world false)) = "/a/libx.so:/b/liby.so"
  /\ ld_preload (init conda_world false) = ["/a/libx.so"; "/b/liby.so"]
  /\ ld_preload (init bare_world false) = [].
Proof.
  destruct (init_ld_preload conda_world false) as [_ [Hjoin _]].
  destruct (init_ld_preload bare_world false) as [[_ Hnone] _].
  split; [|split].
  - apply (Hjoin "/a/libx.so:/b/liby.so"). reflexivity.
  - reflexivity.
  - apply Hnone. reflexivity.
Defined.

(** ** The letter case of the request *)

Section LetterCase.

Variable w : World.

Lemma bind_same {A B} (m1 m2 : M A) (k : A -> M B) (l l' : Launcher)
    (v : result A) (e1 e2 : list event) :
  m1 l = {| value := v; after := l'; emitted := e1 |} ->
  m2 l = {| value := v; after := l'; emitted := e2 |} ->
  exists o : Outcome B,
    bind m1 k l = prepend e1 o /\ bind m2 k l = prepend e2 o.
Proof.
  intros H1 H2. unfold bind. rewrite H1, H2. cbn [value after emitted].
  destruct v as [a|e].
  - exists (k a l'). split; reflexivity.
  - exists {| value := Raise e; after := l'; emitted := [] |}.
    unfold prepend. cbn [value after emitted]. now rewrite !app_nil_r.
Qed.

Lemma normalize_lower (a b category : string) (supported skip_list : list string)
    (l : Launcher) :
  Str.lower a = Str.lower b ->
  exists v e1 e2,
    normalize a category supported skip_list l
    = {| value := v; after := l; emitted := e1 |}
    /\ normalize b category supported skip_list l
       = {| value := v; after := l; emitted := e2 |}
    /\ probed e1 = [] /\ probed e2 = []
    /\ (Str.lower a ∈ supported -> Str.lower a ∉ skip_list ->
        e1 = [] /\ e2 = []).
Proof.
  intros H. unfold normalize. rewrite H.
  destruct (py_in (Str.lower b) supported) eqn:Hin; cbn [negb].
  - run. destruct (py_in (Str.lower b) skip_list) eqn:Hskip.
    + destruct supported as [|s0 rest];
        [apply py_in_true in Hin; inversion Hin|].
      run. outcome. do 3 eexists. split; [reflexivity|].
      split; [reflexivity|].
      rewrite !app_nil_r, !probed_said.
      split; [reflexivity|]. split; [reflexivity|].
      intros _ Hno. apply py_in_true in Hskip. contradiction.
    + outcome. do 3 eexists. repeat (split; [reflexivity|]). tauto.
  - apply py_in_false in Hin.
    destruct supported as [|s0 rest].
    + unfold getitem. cbn [lookup list_lookup]. run. outcome.
      do 3 eexists. repeat (split; [reflexivity|]). tauto.
    + run. destruct (py_in s0 skip_list); run; outcome;
        do 3 eexists; (split; [reflexivity|]); (split; [reflexivity|]);
        rewrite ?app_nil_r, ?probed_app, ?probed_said; (split; [reflexivity|]);
        (split; [reflexivity|]); intros Hyes; contradiction.
Qed.

End LetterCase.

(** X5 -- [set_lib_bin_from_list] reads the requested name without regard
    to letter case: two requests that agree once in lower case return the
    same name, leave the same launcher and probe the same libraries.  When
    the lower-case name is supported and not in [skip_list], the two calls
    also print the same; otherwise they differ only in the warning that
    quotes the request as it was typed. *)
Theorem request_case_insensitive (w : World) (a b : string)
    (name_map : dict lib_entry) (category : string)
    (supported : list string) (fn : probe_fn) (skip_list : list string)
    (extra : string) (l : Launcher) :
  Str.lower a = Str.lower b ->
  let run name :=
    set_lib_bin_from_list w name name_map category supported fn skip_list
      extra l in
  value (run a) = value (run b)
  /\ after (run a) = after (run b)
  /\ probed (emitted (run a)) = probed (emitted (run b))
  /\ length (emitted (run a)) = length (emitted (run b))
  /\ (Str.lower a ∈ supported -> Str.lower a ∉ skip_list -> run a = run b).
Proof.
  intros H run.
  destruct (normalize_lower a b category supported skip_list l H)
    as (v & e1 & e2 & Ha & Hb & Hp1 & Hp2 & Hknown).
  assert (Hlen : length e1 = length e2).
  { clear - H Ha Hb. unfold normalize in Ha, Hb. rewrite H in Ha.
    destruct (py_in (Str.lower b) supported); cbn [negb] in Ha, Hb;
      destruct supported as [|s0 rest];
      unfold getitem in Ha, Hb; cbn [lookup list_lookup] in Ha, Hb;
      revert Ha Hb; run; try destruct (py_in _ skip_list); run; outcome;
      rewrite ?app_nil_r; intros [= _ <-] [= _ <-]; reflexivity. }
  pose proof (fun k => bind_same (B := string) _ _ k l l v e1 e2 Ha Hb) as Hsame.
  subst run. cbv beta. unfold set_lib_bin_from_list.
  match goal with
  | |- context [bind (normalize a _ _ _) ?k l] =>
      destruct (Hsame k) as (o & -> & ->)
  end.
  unfold prepend. cbn [value after emitted].
  rewrite !probed_app, Hp1, Hp2, !length_app, Hlen.
  repeat (split; [reflexivity|]).
  intros Hin Hskip. destruct (Hknown Hin Hskip) as [-> ->]. reflexivity.
Qed.

Lemma request_case_insensitive_witness :
  set_lib_bin_from_list jemalloc_world "JeMalloc" ma_lib_name
    "memory allocator" ["auto"; "default"; "tcmalloc"; "jemalloc"]
    preload_probe [] "" (init jemalloc_world false)
  = set_lib_bin_from_list jemalloc_world "jemalloc" ma_lib_name
      "memory allocator" ["auto"; "default"; "tcmalloc"; "jemalloc"]
      preload_probe [] "" (init jemalloc_world false).
Proof.
  apply (request_case_insensitive jemalloc_world "JeMalloc" "jemalloc").
  - reflexivity.
  - change (Str.lower "JeMalloc") with "jemalloc". repeat constructor.
  - apply not_elem_of_nil.
Defined.

(** X6 -- A candidate named in [skip_list] is never the result of
    [set_lib_bin_from_list], whatever is requested and whatever the probe
    answers: the name returned is the default choice or a candidate that
    [skip_list] leaves. *)
Theorem excluded_never_chosen (w : World) (name_input : string)
    (name_map : dict lib_entry) (category s0 d : string)
    (cands skip_list : list string) (fn : probe_fn) (extra : string)
    (l : Launcher) (r : string) :
  value (set_lib_bin_from_list w name_input name_map category
           (s0 :: d :: cands) fn skip_list extra l) = Ok r ->
  r = d \/ (r ∈ cands /\ r ∉ skip_list).
Proof.
  intros Hr.
  destruct (normalize_total name_input category s0 (d :: cands) skip_list l)
    as (n & evs & Hn & Hcase).
  destruct (set_lib_bin_from_list_steps w name_input name_map category
              (s0 :: d :: cands) fn skip_list extra l n evs Hn) as [Hv _].
  rewrite Hv in Hr. clear Hv.
  destruct (decide (n = s0)) as [-> | Hne].
  - pose proof (resolve_auto_spec w name_map category s0 d cands skip_list
                  extra fn l) as Hauto.
    cbv zeta in Hauto.
    destruct Hauto as [(pre & c & post & Hsplit & _ & Hc & _)
                      | [(Hd & _) | (c & _ & _ & Hraise)]].
    + rewrite Hc in Hr. injection Hr as <-. right.
      apply (allowed_elem skip_list c cands).
      rewrite Hsplit, elem_of_app, elem_of_cons. tauto.
    + left. congruence.
    + congruence.
  - destruct Hcase as [? | (_ & Hin & Hskip)]; [contradiction|].
    apply elem_of_cons in Hin as [? | Hin]; [contradiction|].
    destruct (decide (n ∈ cands)) as [Hc | Hc].
    + destruct (dict_lookup name_map n) as [entry|] eqn:Hentry.
      * destruct (resolve_explicit w name_map category s0 d cands skip_list
                    extra fn n entry l Hne Hc Hentry)
          as (found & l' & _ & Hres).
        rewrite Hres in Hr. destruct found; cbn [value] in Hr;
          injection Hr as <-; [right; now split | now left].
      * rewrite (resolve_explicit_missing w name_map category s0 d cands
                   skip_list extra fn n l Hne Hc Hentry) in Hr.
        discriminate Hr.
    + rewrite (resolve_default w name_map category s0 d cands skip_list extra
                 fn n l Hne Hc) in Hr.
      cbn [value] in Hr. injection Hr as <-.
      apply elem_of_cons in Hin as [-> | Hin]; [now left | contradiction].
Qed.

Lemma excluded_never_chosen_witness :
  "jemalloc" = "default"
  \/ ("jemalloc" ∈ ["tcmalloc"; "jemalloc"] /\ "jemalloc" ∉ ["tcmalloc"]).
Proof.
  apply (excluded_never_chosen jemalloc_world "tcmalloc" ma_lib_name
           "memory allocator" "auto" "default" ["tcmalloc"; "jemalloc"]
           ["tcmalloc"] preload_probe "" (init jemalloc_world false)
           "jemalloc").
  reflexivity.
Defined.

(** ** What a resolution does to the preload list *)

Section Frame.

Variable w : World.
Variables (name_map : dict lib_entry) (cands : list string).

Lemma landing_preload (l : Launcher) (r : string) :
  landing w l name_map cands r = l
  \/ exists m,
       r ∈ cands
       /\ preloaded l (token_of name_map r) = false
       /\ find_library w (library_paths l) (token_of name_map r) = Some m
       /\ landing w l name_map cands r
          = with_ld_preload (ld_preload l ++ [m]) l.
Proof.
  unfold landing. destruct (py_in r cands) eqn:Hr; [|now left].
  apply py_in_true in Hr. unfold probed_launcher.
  destruct (preloaded l (token_of name_map r)) eqn:Hp; [now left|].
  destruct (find_library w (library_paths l) (token_of name_map r)) as [m|];
    [|now left].
  right. now exists m.
Qed.

Lemma landing_chosen (l : Launcher) (r : string) :
  r ∈ cands ->
  available w l (token_of name_map r) = true ->
  (forall m,
      find_library w (library_paths l) (token_of name_map r) = Some m ->
      Str.endswith m (lib_so (token_of name_map r)) = true) ->
  exists entry,
    entry ∈ ld_preload (landing w l name_map cands r)
    /\ Str.endswith entry (lib_so (token_of name_map r)) = true.
Proof.
  intros Hr Hav Hglob.
  assert (Hp : preloaded (landing w l name_map cands r) (token_of name_map r)
               = true).
  { unfold landing. apply py_in_true in Hr. rewrite Hr.
    now rewrite (probed_launcher_preloaded w l _ Hglob). }
  apply existsb_exists in Hp as (entry & Hin & Hends).
  exists entry. split; [now apply list_elem_of_In | exact Hends].
Qed.

End Frame.

(** X7 -- A resolution with the preload search changes nothing of the
    launcher but its preload list, and there it adds at most the file found
    for the chosen candidate, behind the existing entries, whose order it
    keeps.  An entry that is not the library file of another candidate of
    [name_map] is never removed: resolving the memory allocator leaves the
    OpenMP library and every unrelated library preloaded. *)
Theorem preload_list_frame (w : World) (name_input : string)
    (name_map : dict lib_entry) (category d : string)
    (cands skip_list : list string) (extra : string) (l : Launcher) :
  "auto" ∉ cands ->
  d ∉ cands ->
  d <> "auto" ->
  (forall c, c ∈ cands -> is_Some (dict_lookup name_map c)) ->
  let o := set_lib_bin_from_list w name_input name_map category
             ("auto" :: d :: cands) preload_probe skip_list extra l in
  exists r added,
    value o = Ok r
    /\ after o = with_ld_preload (ld_preload (after o)) l
    /\ ld_preload (after o) `sublist_of` ld_preload l ++ added
    /\ (added = []
        \/ exists m,
             r ∈ cands
             /\ find_library w (library_paths l) (token_of name_map r) = Some m
             /\ added = [m])
    /\ (forall entry,
           entry ∈ ld_preload l ->
           (forall k v, (k, v) ∈ name_map -> k <> r ->
                        Str.endswith entry (lib_so (fst v)) = false) ->
           entry ∈ ld_preload (after o)).
Proof.
  intros Hauto Hdcand Hd Hkeys. cbv zeta.
  destruct (set_lib_bin_from_list_preload w name_map category d cands skip_list
              extra Hauto Hdcand Hkeys name_input l Hd) as [Hvalue Hafter].
  cbv zeta in Hvalue, Hafter.
  remember (resolution_policy
              (fun c => available w l (token_of name_map c)) d cands skip_list
              (normalized_name ("auto" :: d :: cands) skip_list name_input))
    as r eqn:Hr. clear Hr.
  rewrite Hvalue, Hafter. cbn [ld_preload with_ld_preload].
  destruct (landing_preload w name_map cands l r)
    as [-> | (m & Hin & _ & Hfind & ->)].
  - exists r, []. split; [reflexivity|]. split; [reflexivity|].
    rewrite app_nil_r. split; [apply cleaned_sublist|].
    split; [now left|].
    intros entry He Hother. now apply cleaned_keeps.
  - exists r, [m]. split; [reflexivity|]. split; [reflexivity|].
    cbn [ld_preload with_ld_preload]. split; [apply cleaned_sublist|].
    split; [right; now exists m|].
    intros entry He Hother. apply cleaned_keeps; [|exact Hother].
    apply elem_of_app. now left.
Qed.

Lemma preload_list_frame_witness :
  let l := with_ld_preload ["/opt/libiomp5.so"; "/a/libtcmalloc.so"]
             (init jemalloc_world false) in
  let o := set_lib_bin_from_list jemalloc_world "jemalloc" ma_lib_name
             "memory allocator" ["auto"; "default"; "tcmalloc"; "jemalloc"]
             preload_probe [] "" l in
  ld_preload (after o) = ["/opt/libiomp5.so"; "/usr/lib/libjemalloc.so"]
  /\ exists r added,
       value o = Ok r
       /\ ld_preload (after o) `sublist_of` ld_preload l ++ added.
Proof.
  intros l o. split; [reflexivity|].
  destruct (preload_list_frame jemalloc_world "jemalloc" ma_lib_name
              "memory allocator" "default" ["tcmalloc"; "jemalloc"] [] "" l)
    as (r & added & Hr & _ & Hsub & _).
  - apply not_in_two; discriminate.
  - apply not_in_two; discriminate.
  - discriminate.
  - exact ma_candidates_mapped.
  - exists r, added. split; [exact Hr | exact Hsub].
Defined.

(** X8 -- When [set_lib_bin_from_list] with the preload search returns a
    candidate, a library file of that candidate is in the preload list it
    leaves: the cleanup that follows the choice never removes the chosen
    library.  This needs that the files of two candidates cannot be
    confused and that [glob] reports a file of the name searched for. *)
Theorem chosen_candidate_preloaded (w : World) (name_input : string)
    (name_map : dict lib_entry) (category d : string)
    (cands skip_list : list string) (extra : string) (l : Launcher) :
  "auto" ∉ cands ->
  d ∉ cands ->
  d <> "auto" ->
  (forall c, c ∈ cands -> is_Some (dict_lookup name_map c)) ->
  (forall k v k' v' x,
      (k, v) ∈ name_map -> (k', v') ∈ name_map -> k <> k' ->
      Str.endswith x (lib_so (fst v)) = true ->
      Str.endswith x (lib_so (fst v')) = false) ->
  (forall k v m,
      (k, v) ∈ name_map ->
      find_library w (library_paths l) (fst v) = Some m ->
      Str.endswith m (lib_so (fst v)) = true) ->
  let o := set_lib_bin_from_list w name_input name_map category
             ("auto" :: d :: cands) preload_probe skip_list extra l in
  forall r,
    value o = Ok r -> r ∈ cands ->
    preloaded (after o) (token_of name_map r) = true.
Proof.
  intros Hauto Hdcand Hd Hkeys Hapart Hglob. cbv zeta.
  destruct (set_lib_bin_from_list_preload w name_map category d cands skip_list
              extra Hauto Hdcand Hkeys name_input l Hd) as [Hvalue Hafter].
  cbv zeta in Hvalue, Hafter.
  pose proof (policy_candidate_available d cands skip_list Hdcand
                (fun c => available w l (token_of name_map c))
                (normalized_name ("auto" :: d :: cands) skip_list name_input))
    as Hchosen.
  cbv zeta in Hchosen.
  remember (resolution_policy
              (fun c => available w l (token_of name_map c)) d cands skip_list
              (normalized_name ("auto" :: d :: cands) skip_list name_input))
    as r0 eqn:Hr0. clear Hr0.
  intros r Hr Hin. rewrite Hvalue in Hr. injection Hr as ->.
  rewrite Hafter. unfold preloaded. cbn [ld_preload with_ld_preload].
  destruct (Hkeys r Hin) as [entry Hentry].
  pose proof (token_of_entry name_map r entry Hentry) as Htoken.
  apply dict_lookup_elem in Hentry.
  destruct (landing_chosen w name_map cands l r Hin (Hchosen Hin))
    as (x & Hx & Hends).
  { rewrite Htoken. intros m. now apply (Hglob r entry m). }
  apply existsb_exists. exists x. split; [|exact Hends].
  apply list_elem_of_In, cleaned_keeps; [exact Hx|].
  intros k v Hkv Hne. rewrite Htoken in Hends.
  now apply (Hapart r entry k v x).
Qed.

Lemma chosen_candidate_preloaded_witness :
  preloaded
    (after (set_lib_bin_from_list mixed_world "jemalloc" ma_lib_name
              "memory allocator" ["auto"; "default"; "tcmalloc"; "jemalloc"]
              preload_probe [] "" (init mixed_world false)))
    (token_of ma_lib_name "jemalloc") = true.
Proof.
  apply (chosen_candidate_preloaded mixed_world "jemalloc" ma_lib_name
           "memory allocator" "default" ["tcmalloc"; "jemalloc"] [] ""
           (init mixed_world false)).
  - apply not_in_two; discriminate.
  - apply not_in_two; discriminate.
  - discriminate.
  - exact ma_candidates_mapped.
  - exact ma_lib_name_apart.
  - intros k v m Hkv.
    apply elem_of_cons in Hkv as [Hkv|Hkv];
      [|apply elem_of_cons in Hkv as [Hkv|Hkv]; [|inversion Hkv]];
      injection Hkv as -> ->; vm_compute; intros Hm;
      [now injection Hm as <- | discriminate Hm].
  - reflexivity.
  - repeat constructor.
Defined.

(** ** What the composers write to the overlay *)

Section Overlay.

Variable w : World.

Lemma settled_ambient (name desired : string) :
  settled w name desired = ambient_or w name desired.
Proof.
  unfold settled, conflicting, getenv, ambient_or.
  destruct (environ w !! name) as [a|]; cbn [default from_option]; unfold id.
  - destruct (String.eqb a "") eqn:Hempty; cbn [negb andb]; [reflexivity|].
    destruct (String.eqb a desired) eqn:Hsame; cbn [negb]; [|reflexivity].
    now apply String.eqb_eq in Hsame.
  - reflexivity.
Qed.

Lemma ambient_or_agrees (name preset a : string) :
  environ w !! name = Some a -> a <> "" -> ambient_or w name preset = a.
Proof.
  intros H Ha. unfold ambient_or. rewrite H.
  destruct (String.eqb a "") eqn:He; [|reflexivity].
  now apply String.eqb_eq in He.
Qed.

Lemma agrees_insert (E : gmap string string) (name preset : string) :
  agrees w E -> agrees w (<[name := ambient_or w name preset]> E).
Proof.
  intros HE k v a Hk Ha Hne.
  destruct (decide (name = k)) as [-> | Hdiff].
  - rewrite lookup_insert_eq in Hk. injection Hk as <-.
    now apply ambient_or_agrees.
  - rewrite lookup_insert_ne in Hk by exact Hdiff. now apply (HE k v a).
Qed.

Lemma policy_range (av : string -> bool) (d : string)
    (cands skip_list : list string) (n : string) :
  resolution_policy av d cands skip_list n ∈ d :: cands.
Proof.
  unfold resolution_policy.
  destruct (String.eqb n "auto").
  - destruct (first_available av (allowed skip_list cands)) as [c|] eqn:Hc;
      cbn [default from_option]; unfold id; [|apply list_elem_of_here].
    apply first_available_elem in Hc as [Hc _].
    apply allowed_elem in Hc as [Hc _]. now apply list_elem_of_further.
  - destruct (py_in n cands) eqn:Hn; [|apply list_elem_of_here].
    apply py_in_true in Hn.
    destruct (av n); [now apply list_elem_of_further | apply list_elem_of_here].
Qed.

Lemma tuned_allocator_overlay (benchmark : bool) (r : string) (l : Launcher) :
  tuned_allocator w benchmark r l
  = with_environ_set
      (if String.eqb r "jemalloc" then
         <["MALLOC_CONF" := ambient_or w "MALLOC_CONF" (malloc_conf benchmark)]>
           (environ_set l)
       else environ_set l) l.
Proof.
  unfold tuned_allocator, recorded. rewrite settled_ambient.
  destruct (String.eqb r "jemalloc"); [reflexivity|]. now destruct l.
Qed.

Lemma tuned_runtime_overlay (set_kmp_affinity : bool) (r : string)
    (l : Launcher) :
  tuned_runtime w set_kmp_affinity r l
  = with_environ_set
      (if String.eqb r "intel" then
         <["KMP_BLOCKTIME" := ambient_or w "KMP_BLOCKTIME" "1"]>
           (if set_kmp_affinity then
              <["KMP_AFFINITY" :=
                  ambient_or w "KMP_AFFINITY" "granularity=fine,compact,1,0"]>
                (environ_set l)
            else environ_set l)
       else if String.eqb r "default" then
         <["OMP_PROC_BIND" := ambient_or w "OMP_PROC_BIND" "CLOSE"]>
           (<["OMP_SCHEDULE" := ambient_or w "OMP_SCHEDULE" "STATIC"]>
              (environ_set l))
       else environ_set l) l.
Proof.
  unfold tuned_runtime, recorded. rewrite !settled_ambient.
  destruct (String.eqb r "intel");
    [destruct set_kmp_affinity; reflexivity|].
  destruct (String.eqb r "default"); [reflexivity|]. now destruct l.
Qed.

Lemma set_memory_allocator_after (memory_allocator : string) (benchmark : bool)
    (skip_list : list string) (l : Launcher) :
  ma_supported l = ["auto"; "default"; "tcmalloc"; "jemalloc"] ->
  let av name := available w l (token_of ma_lib_name name) in
  let r := resolution_policy av "default" ["tcmalloc"; "jemalloc"] skip_list
             (normalized_name ["auto"; "default"; "tcmalloc"; "jemalloc"]
                skip_list memory_allocator) in
  let o := set_memory_allocator w memory_allocator benchmark skip_list l in
  value o = Ok r
  /\ after o
     = with_environ_set
         (if String.eqb r "jemalloc" then
            <["MALLOC_CONF" :=
                ambient_or w "MALLOC_CONF" (malloc_conf benchmark)]>
              (environ_set l)
          else environ_set l)
         (with_ld_preload (ld_preload (after o)) l).
Proof.
  intros Hma. cbv zeta.
  assert (Hauto : "auto" ∉ ["tcmalloc"; "jemalloc"])
    by (apply not_in_two; discriminate).
  assert (Hdef : "default" ∉ ["tcmalloc"; "jemalloc"])
    by (apply not_in_two; discriminate).
  assert (Hd : "default" <> "auto") by discriminate.
  destruct (set_lib_bin_from_list_preload w ma_lib_name "memory allocator"
              "default" ["tcmalloc"; "jemalloc"] skip_list
              "This may drop the performance." Hauto Hdef
              ma_candidates_mapped memory_allocator l Hd)
    as [Hvalue Hafter].
  cbv zeta in Hvalue, Hafter.
  rewrite set_memory_allocator_spec. cbv zeta. rewrite Hma, Hvalue, Hafter.
  cbn [value after]. split; [reflexivity|].
  rewrite tuned_allocator_overlay. reflexivity.
Qed.

Lemma set_omp_runtime_after (omp_runtime : string) (set_kmp_affinity : bool)
    (l : Launcher) :
  omp_supported l = ["auto"; "default"; "intel"] ->
  let av name := available w l (token_of omp_lib_name name) in
  let r := resolution_policy av "default" ["intel"] []
             (normalized_name ["auto"; "default"; "intel"] [] omp_runtime) in
  let o := set_omp_runtime w omp_runtime set_kmp_affinity l in
  value o = Ok r
  /\ after o
     = with_environ_set
         (if String.eqb r "intel" then
            <["KMP_BLOCKTIME" := ambient_or w "KMP_BLOCKTIME" "1"]>
              (if set_kmp_affinity then
                 <["KMP_AFFINITY" :=
                     ambient_or w "KMP_AFFINITY" "granularity=fine,compact,1,0"]>
                   (environ_set l)
               else environ_set l)
          else if String.eqb r "default" then
            <["OMP_PROC_BIND" := ambient_or w "OMP_PROC_BIND" "CLOSE"]>
              (<["OMP_SCHEDULE" := ambient_or w "OMP_SCHEDULE" "STATIC"]>
                 (environ_set l))
          else environ_set l)
         (with_ld_preload (ld_preload (after o)) l).
Proof.
  intros Homp. cbv zeta.
  assert (Hauto : "auto" ∉ ["intel"]) by (apply not_in_one; discriminate).
  assert (Hdef : "default" ∉ ["intel"]) by (apply not_in_one; discriminate).
  assert (Hd : "default" <> "auto") by discriminate.
  destruct (set_lib_bin_from_list_preload w omp_lib_name "OpenMP runtime"
              "default" ["intel"] [] "" Hauto Hdef
              omp_candidates_mapped omp_runtime l Hd)
    as [Hvalue Hafter].
  cbv zeta in Hvalue, Hafter.
  destruct (set_omp_runtime_spec w omp_runtime set_kmp_affinity l) as [Hv Ha].
  rewrite Homp in Hv, Ha. rewrite Hv, Ha, Hvalue, Hafter.
  split; [reflexivity|].
  rewrite tuned_runtime_overlay. reflexivity.
Qed.

End Overlay.

(** X9 -- [set_memory_allocator] returns what the resolution policy gives
    for the request: one of [default], [tcmalloc] and [jemalloc].  It
    writes to the overlay only when that is [jemalloc], and then only
    [MALLOC_CONF]: the value of the process environment when that is set
    and not empty, and otherwise the preset that [benchmark] selects.  For
    [tcmalloc] and [default] the overlay stays as it was. *)
Theorem set_memory_allocator_effect (w : World) (memory_allocator : string)
    (benchmark : bool) (skip_list : list string) (l : Launcher) :
  ma_supported l = ["auto"; "default"; "tcmalloc"; "jemalloc"] ->
  let av name := available w l (token_of ma_lib_name name) in
  let r := resolution_policy av "default" ["tcmalloc"; "jemalloc"] skip_list
             (normalized_name ["auto"; "default"; "tcmalloc"; "jemalloc"]
                skip_list memory_allocator) in
  let o := set_memory_allocator w memory_allocator benchmark skip_list l in
  value o = Ok r
  /\ r ∈ ["default"; "tcmalloc"; "jemalloc"]
  /\ (r <> "jemalloc" -> environ_set (after o) = environ_set l)
  /\ (r = "jemalloc" ->
      environ_set (after o)
      = <["MALLOC_CONF" := ambient_or w "MALLOC_CONF" (malloc_conf benchmark)]>
          (environ_set l))
  /\ (forall name,
         name <> "MALLOC_CONF" ->
         environ_set (after o) !! name = environ_set l !! name).
Proof.
  intros Hma.
  destruct (set_memory_allocator_after w memory_allocator benchmark skip_list
              l Hma) as [Hvalue Hafter].
  cbv zeta in Hvalue, Hafter. cbv zeta.
  remember (resolution_policy
              (fun name => available w l (token_of ma_lib_name name)) "default"
              ["tcmalloc"; "jemalloc"] skip_list
              (normalized_name ["auto"; "default"; "tcmalloc"; "jemalloc"]
                 skip_list memory_allocator)) as r eqn:Hr.
  assert (Hrange : r ∈ ["default"; "tcmalloc"; "jemalloc"])
    by (rewrite Hr; apply policy_range).
  clear Hr.
  split; [exact Hvalue|]. split; [exact Hrange|].
  rewrite Hafter. cbn [environ_set with_environ_set].
  destruct (String.eqb r "jemalloc") eqn:Hje.
  - apply String.eqb_eq in Hje. split; [contradiction|].
    split; [reflexivity|]. intros name Hname.
    now rewrite lookup_insert_ne by congruence.
  - apply String.eqb_neq in Hje. split; [reflexivity|].
    split; [contradiction | reflexivity].
Qed.

Lemma set_memory_allocator_effect_witness :
  let o := set_memory_allocator tuned_world "auto" true []
             (init tuned_world false) in
  value o = Ok "jemalloc"
  /\ environ_set (after o) = {[ "MALLOC_CONF" := "narenas:1" ]}.
Proof.
  intros o.
  destruct (set_memory_allocator_effect tuned_world "auto" true []
              (init tuned_world false) eq_refl) as (Hv & _ & _ & He & _).
  split; [exact Hv|]. exact (He eq_refl).
Defined.

(** X10 -- [set_omp_runtime] returns [intel] or [default], never anything
    else, so that one of its two groups of settings is always written.  It
    returns [intel] exactly when the request in lower case is not [default]
    and [libiomp5.so] is preloaded or found: it then records
    [KMP_BLOCKTIME], and [KMP_AFFINITY] when [set_kmp_affinity] holds.
    Otherwise it returns [default] and records [OMP_SCHEDULE] and
    [OMP_PROC_BIND].  Each value is the one of the process environment when
    that is set and not empty, and the preset otherwise. *)
Theorem set_omp_runtime_effect (w : World) (omp_runtime : string)
    (set_kmp_affinity : bool) (l : Launcher) :
  omp_supported l = ["auto"; "default"; "intel"] ->
  let o := set_omp_runtime w omp_runtime set_kmp_affinity l in
  (Str.lower omp_runtime <> "default"
   /\ available w l "iomp5" = true
   /\ value o = Ok "intel"
   /\ environ_set (after o)
      = <["KMP_BLOCKTIME" := ambient_or w "KMP_BLOCKTIME" "1"]>
          (if set_kmp_affinity then
             <["KMP_AFFINITY" :=
                 ambient_or w "KMP_AFFINITY" "granularity=fine,compact,1,0"]>
               (environ_set l)
           else environ_set l))
  \/ ((Str.lower omp_runtime = "default" \/ available w l "iomp5" = false)
      /\ value o = Ok "default"
      /\ environ_set (after o)
         = <["OMP_PROC_BIND" := ambient_or w "OMP_PROC_BIND" "CLOSE"]>
             (<["OMP_SCHEDULE" := ambient_or w "OMP_SCHEDULE" "STATIC"]>
                (environ_set l))).
Proof.
  intros Homp.
  destruct (set_omp_runtime_after w omp_runtime set_kmp_affinity l Homp)
    as [Hvalue Hafter].
  cbv zeta in Hvalue, Hafter. cbv zeta.
  remember (resolution_policy
              (fun name => available w l (token_of omp_lib_name name)) "default"
              ["intel"] []
              (normalized_name ["auto"; "default"; "intel"] [] omp_runtime))
    as r eqn:Hr.
  assert (Hcases :
            (Str.lower omp_runtime <> "default"
             /\ available w l "iomp5" = true /\ r = "intel")
            \/ ((Str.lower omp_runtime = "default"
                 \/ available w l "iomp5" = false) /\ r = "default")).
  { rewrite Hr. unfold normalized_name, resolution_policy.
    change (allowed [] ["intel"]) with ["intel"].
    change (py_in (Str.lower omp_runtime) []) with false.
    cbn [negb first_available]. rewrite andb_true_r.
    destruct (py_in (Str.lower omp_runtime) ["auto"; "default"; "intel"])
      eqn:Hin.
    - apply py_in_true in Hin.
      repeat (apply elem_of_cons in Hin as [Hin | Hin]);
        [rewrite Hin .. | inversion Hin].
      + change (String.eqb "auto" "auto") with true. cbv iota beta.
        change (token_of omp_lib_name "intel") with "iomp5".
        destruct (available w l "iomp5"); cbn [default from_option];
          unfold id; [left | right]; (split; [|tauto]); [discriminate | tauto].
      + change (String.eqb "default" "auto") with false.
        change (py_in "default" ["intel"]) with false. cbv iota.
        right. tauto.
      + change (String.eqb "intel" "auto") with false.
        change (py_in "intel" ["intel"]) with true. cbv iota beta.
        change (token_of omp_lib_name "intel") with "iomp5".
        destruct (available w l "iomp5"); [left | right];
          (split; [|tauto]); [discriminate | tauto].
    - apply py_in_false in Hin.
      change (String.eqb "auto" "auto") with true. cbv iota beta.
      change (token_of omp_lib_name "intel") with "iomp5".
      assert (Hnot : Str.lower omp_runtime <> "default").
      { intros Heq. apply Hin. rewrite Heq. repeat constructor. }
      destruct (available w l "iomp5"); cbn [default from_option];
        unfold id; [left | right]; tauto. }
  clear Hr. rewrite Hvalue, Hafter. cbn [environ_set with_environ_set].
  destruct Hcases as [(Hlow & Hav & ->) | (Hwhy & ->)]; [left | right].
  - change (String.eqb "intel" "intel") with true. cbv iota. tauto.
  - change (String.eqb "default" "intel") with false.
    change (String.eqb "default" "default") with true. cbv iota. tauto.
Qed.

Lemma set_omp_runtime_effect_witness :
  let o := set_omp_runtime dynamic_world "Intel" true
             (init dynamic_world false) in
  value o = Ok "default"
  /\ environ_set (after o)
     = <["OMP_PROC_BIND" := "CLOSE"]> {[ "OMP_SCHEDULE" := "DYNAMIC" ]}.
Proof.
  intros o.
  destruct (set_omp_runtime_effect dynamic_world "Intel" true
              (init dynamic_world false) eq_refl)
    as [(_ & Hav & _) | (_ & Hv & He)].
  - discriminate Hav.
  - split; [exact Hv | exact He].
Defined.

(** ** Invariants of the launcher *)

Section Invariant.

Variable w : World.

Lemma probed_launcher_frame (l : Launcher) (token : string) :
  probed_launcher w l token
  = with_ld_preload (ld_preload (probed_launcher w l token)) l.
Proof.
  unfold probed_launcher.
  destruct (preloaded l token); [now destruct l|].
  destruct (find_library w (library_paths l) token); [reflexivity|].
  now destruct l.
Qed.

Lemma sound_with_ld_preload (p : list string) (l : Launcher) :
  sound w l -> sound w (with_ld_preload p l).
Proof. intros H. exact H. Qed.

Lemma sound_overlay (E : gmap string string) (p : list string) (l : Launcher) :
  sound w l -> agrees w E ->
  sound w (with_environ_set E (with_ld_preload p l)).
Proof. intros (Hma & Homp & Hpaths & _) HE. now repeat split. Qed.

Lemma sound_insert (name preset : string) (l : Launcher) :
  sound w l ->
  sound w (with_environ_set
             (<[name := ambient_or w name preset]> (environ_set l)) l).
Proof.
  intros (Hma & Homp & Hpaths & Hagrees).
  repeat split; try assumption.
  cbn [environ_set with_environ_set]. now apply agrees_insert.
Qed.

End Invariant.

(** X11 -- Whatever sequence of [add_lib_preload], [add_env],
    [set_memory_allocator] and [set_omp_runtime] is run on a fresh
    launcher, its two preference lists and its search directories stay as
    [__init__] set them, and its overlay never contradicts the process
    environment: a variable that the environment sets to a value that is
    not empty is recorded with that value or not at all.  So the two
    resolvers always find their preference list in the expected shape and
    always return a name. *)
Theorem reachable_sound (w : World) (l : Launcher) :
  reachable w l ->
  sound w l
  /\ (forall memory_allocator benchmark skip_list,
         exists r,
           value (set_memory_allocator w memory_allocator benchmark
                    skip_list l) = Ok r)
  /\ (forall omp_runtime set_kmp_affinity,
         exists r,
           value (set_omp_runtime w omp_runtime set_kmp_affinity l) = Ok r).
Proof.
  intros Hreach.
  assert (Hsound : sound w l).
  { induction Hreach as [lg | token l _ IH | name desired l _ IH
                        | name benchmark skip_list l _ IH
                        | name flag l _ IH].
    - repeat split. intros k v a Hk. cbn [environ_set init] in Hk.
      now rewrite lookup_empty in Hk.
    - rewrite add_lib_preload_spec. cbn [after].
      rewrite probed_launcher_frame. now apply sound_with_ld_preload.
    - rewrite add_env_spec. cbn [after]. unfold recorded.
      rewrite settled_ambient. now apply sound_insert.
    - destruct (set_memory_allocator_after w name benchmark skip_list l
                  (proj1 IH)) as [_ Hafter].
      cbv zeta in Hafter. rewrite Hafter.
      apply sound_overlay; [exact IH|].
      destruct (String.eqb _ "jemalloc");
        repeat apply agrees_insert; apply IH.
    - destruct (set_omp_runtime_after w name flag l (proj1 (proj2 IH)))
        as [_ Hafter].
      cbv zeta in Hafter. rewrite Hafter.
      apply sound_overlay; [exact IH|].
      destruct (String.eqb _ "intel"); [|destruct (String.eqb _ "default")];
        try destruct flag; repeat apply agrees_insert; apply IH. }
  split; [exact Hsound|].
  destruct Hsound as (Hma & Homp & _).
  split.
  - intros name benchmark skip_list.
    now apply set_memory_allocator_returns.
  - intros name flag. now apply set_omp_runtime_returns.
Qed.

Lemma reachable_sound_witness :
  let l := after (set_omp_runtime dynamic_world "auto" true
                    (after (add_env dynamic_world "OMP_SCHEDULE" "GUIDED"
                              (init dynamic_world false)))) in
  sound dynamic_world l
  /\ environ_set l !! "OMP_SCHEDULE" = Some "DYNAMIC".
Proof.
  intros l. split; [|reflexivity].
  apply (reachable_sound dynamic_world l).
  apply reach_set_omp_runtime, reach_add_env, reach_init.
Defined.

(** X12 -- [add_env] touches one entry of the overlay and nothing else of
    the launcher: the entry of its name, which becomes the value of the
    process environment when that is set and not empty, and the desired
    value otherwise.  Repeating the call changes nothing more, a later call
    for the same name overrides an earlier one, and calls for two different
    names give the same launcher in either order. *)
Theorem add_env_frame (w : World) (name desired : string) (l : Launcher) :
  let o := add_env w name desired l in
  after o
  = with_environ_set (<[name := ambient_or w name desired]> (environ_set l)) l
  /\ (forall other,
         other <> name ->
         environ_set (after o) !! other = environ_set l !! other)
  /\ after (add_env w name desired (after o)) = after o
  /\ (forall desired',
         after (add_env w name desired' (after o))
         = after (add_env w name desired' l))
  /\ (forall name' desired',
         name <> name' ->
         after (add_env w name' desired' (after o))
         = after (add_env w name desired (after (add_env w name' desired' l)))).
Proof.
  cbv zeta. repeat (rewrite !add_env_spec; cbn [after]).
  unfold recorded, with_environ_set.
  cbn [environ_set logger library_paths ma_supported omp_supported ld_preload].
  rewrite !settled_ambient.
  split; [reflexivity|]. split; [|split; [|split]].
  - intros other Hother. now rewrite lookup_insert_ne by congruence.
  - now rewrite insert_insert_eq.
  - intros desired'. rewrite !add_env_spec. cbn [after].
    unfold recorded, with_environ_set.
    cbn [environ_set logger library_paths ma_supported omp_supported
         ld_preload].
    now rewrite insert_insert_eq.
  - intros name' desired' Hne. repeat (rewrite !add_env_spec; cbn [after]).
    unfold recorded, with_environ_set.
    cbn [environ_set logger library_paths ma_supported omp_supported
         ld_preload].
    rewrite !settled_ambient.
    now rewrite (insert_insert_ne _ name' name) by congruence.
Qed.

Lemma add_env_frame_witness :
  let o := add_env dynamic_world "OMP_PROC_BIND" "CLOSE"
             (init dynamic_world false) in
  after (add_env dynamic_world "OMP_SCHEDULE" "STATIC" (after o))
  = after (add_env dynamic_world "OMP_PROC_BIND" "CLOSE"
             (after (add_env dynamic_world "OMP_SCHEDULE" "STATIC"
                       (init dynamic_world false)))).
Proof.
  intros o.
  destruct (add_env_frame dynamic_world "OMP_PROC_BIND" "CLOSE"
              (init dynamic_world false)) as (_ & _ & _ & _ & Hswap).
  apply (Hswap "OMP_SCHEDULE" "STATIC"). discriminate.
Defined.

(** ** Errors of the resolver *)

Section Errors.

Variable w : World.
Variables (name_map : dict lib_entry) (category : string).
Variable skip_list : list string.

Lemma resolve_single (s0 : string) (fn : probe_fn) (extra : string)
    (l : Launcher) :
  resolve w s0 name_map category [s0] fn skip_list extra l
  = {| value := Raise IndexError; after := l; emitted := [] |}.
Proof.
  unfold resolve. run. rewrite String.eqb_refl.
  cbn [drop probe_candidates]. run. rewrite String.eqb_refl.
  unfold getitem at 1. cbn [lookup list_lookup]. run. reflexivity.
Qed.

Lemma probe_candidates_unmapped (name_local : string) (names pre post : list string)
    (c : string) (l : Launcher) :
  allowed skip_list names = pre ++ c :: post ->
  (forall x, x ∈ pre ->
             is_Some (dict_lookup name_map x)
             /\ available w l (token_of name_map x) = false) ->
  dict_lookup name_map c = None ->
  probe_candidates w name_map category preload_probe skip_list name_local
    names l
  = {| value := Raise (KeyError c); after := l;
       emitted := map (fun x => Probe (token_of name_map x) false) pre |}.
Proof.
  revert pre. induction names as [|name names IH]; intros pre Hsplit Hpre Hc.
  - destruct pre; discriminate Hsplit.
  - cbn [probe_candidates].
    destruct (py_in name skip_list) eqn:Hskip.
    + apply py_in_true in Hskip. rewrite (allowed_skip _ _ _ Hskip) in Hsplit.
      now apply IH.
    + apply py_in_false in Hskip. rewrite (allowed_keep _ _ _ Hskip) in Hsplit.
      destruct pre as [|x pre]; cbn [app] in Hsplit;
        injection Hsplit as -> Hsplit.
      * unfold dict_getitem. rewrite Hc. run. reflexivity.
      * destruct (Hpre x (list_elem_of_here _ _)) as [[entry Hentry] Hav].
        rewrite (token_of_entry _ _ _ Hentry) in Hav.
        unfold dict_getitem. rewrite Hentry. run.
        rewrite (bind_ok _ _ _ _ _ _ (call_fn_preload w (fst entry) l)).
        rewrite Hav, (probed_launcher_unavailable w l _ Hav).
        rewrite (IH pre Hsplit); [|intros y Hy; apply Hpre;
                                   now apply list_elem_of_further | exact Hc].
        unfold prepend. cbn [value after emitted map app].
        now rewrite (token_of_entry _ _ _ Hentry).
Qed.

End Errors.

(** X13 -- A preference list with fewer than two entries makes
    [set_lib_bin_from_list] raise [IndexError], whatever is requested: the
    list must hold at least the automatic and the default choice.  The
    probe is not called and the launcher is left as it was. *)
Theorem short_supported_raises (w : World) (name_input : string)
    (name_map : dict lib_entry) (category : string)
    (supported : list string) (fn : probe_fn) (skip_list : list string)
    (extra : string) (l : Launcher) :
  (length supported < 2)%nat ->
  let o := set_lib_bin_from_list w name_input name_map category supported fn
             skip_list extra l in
  value o = Raise IndexError /\ after o = l /\ probed (emitted o) = [].
Proof.
  intros Hshort. cbv zeta.
  destruct supported as [|s0 [|d rest]]; [| |cbn [length] in Hshort; lia].
  - unfold set_lib_bin_from_list, normalize.
    rewrite (proj2 (py_in_false (Str.lower name_input) [])
               (not_elem_of_nil _)).
    cbn [negb]. unfold getitem. cbn [lookup list_lookup]. run.
    now repeat split.
  - destruct (normalize_to_first name_input category s0 [] skip_list l)
      as (evs & Hn & Hp).
    { destruct (decide (Str.lower name_input = s0)) as [-> | Hne];
        [now left | right; left; now apply not_in_one]. }
    destruct (set_lib_bin_from_list_steps w name_input name_map category [s0]
                fn skip_list extra l s0 evs Hn) as (Hv & He & Ha).
    rewrite resolve_single in Hv, He, Ha. cbn [value after emitted] in *.
    rewrite Hv, He, Ha, app_nil_r. now repeat split.
Qed.

Lemma short_supported_raises_witness :
  value (set_lib_bin_from_list jemalloc_world "auto" ma_lib_name
           "memory allocator" ["auto"] preload_probe [] ""
           (init jemalloc_world false)) = Raise IndexError.
Proof.
  apply (short_supported_raises jemalloc_world "auto" ma_lib_name
           "memory allocator" ["auto"] preload_probe [] ""
           (init jemalloc_world false)).
  cbn [length]. lia.
Defined.

(** X14 -- A candidate that [name_map] does not describe makes
    [set_lib_bin_from_list] raise [KeyError] with that name as soon as it
    has to be probed: at once when it is requested by name, and in the
    automatic mode after the candidates before it were probed without
    success.  Nothing is printed, the cleanup of the preload list does not
    run and the launcher is left as it was. *)
Theorem unmapped_candidate_raises (w : World) (name_input : string)
    (name_map : dict lib_entry) (category s0 d : string)
    (cands skip_list : list string) (extra : string) (l : Launcher) :
  (forall fn,
      Str.lower name_input <> s0 ->
      Str.lower name_input ∈ cands ->
      Str.lower name_input ∉ skip_list ->
      dict_lookup name_map (Str.lower name_input) = None ->
      set_lib_bin_from_list w name_input name_map category (s0 :: d :: cands)
        fn skip_list extra l
      = {| value := Raise (KeyError (Str.lower name_input)); after := l;
           emitted := [] |})
  /\ (forall pre c post,
         Str.lower name_input = s0 ->
         s0 ∉ skip_list ->
         allowed skip_list cands = pre ++ c :: post ->
         (forall x, x ∈ pre ->
                    is_Some (dict_lookup name_map x)
                    /\ available w l (token_of name_map x) = false) ->
         dict_lookup name_map c = None ->
         set_lib_bin_from_list w name_input name_map category
           (s0 :: d :: cands) preload_probe skip_list extra l
         = {| value := Raise (KeyError c); after := l;
              emitted := map (fun x => Probe (token_of name_map x) false) pre |}).
Proof.
  split.
  - intros fn Hne Hin Hskip Hnone.
    assert (Hn := normalize_known name_input category s0 (d :: cands)
                    skip_list l).
    unfold set_lib_bin_from_list.
    rewrite (bind_ok _ _ _ _ _ _
               (Hn (list_elem_of_further _ _ _
                      (list_elem_of_further _ _ _ Hin)) Hskip)).
    rewrite prepend_nil.
    rewrite (bind_fail _ _ _ _ _ _
               (resolve_explicit_missing w name_map category s0 d cands
                  skip_list extra fn _ l Hne Hin Hnone)).
    reflexivity.
  - intros pre c post Hlow Hs0 Hsplit Hpre Hnone.
    assert (Hn := normalize_known name_input category s0 (d :: cands)
                    skip_list l).
    rewrite Hlow in Hn.
    unfold set_lib_bin_from_list.
    rewrite (bind_ok _ _ _ _ _ _ (Hn (list_elem_of_here _ _) Hs0)).
    rewrite prepend_nil.
    rewrite (bind_fail _ _ _ _ _ _
               (resolve_loop_fails w name_map category s0 d cands skip_list
                  extra preload_probe l l _ _
                  (probe_candidates_unmapped w name_map category skip_list s0
                     cands pre post c l Hsplit Hpre Hnone))).
    reflexivity.
Qed.

Lemma unmapped_candidate_raises_witness :
  set_lib_bin_from_list bare_world "auto" omp_lib_name "OpenMP runtime"
    ["auto"; "default"; "intel"; "gnu"] preload_probe [] ""
    (init bare_world false)
  = {| value := Raise (KeyError "gnu"); after := init bare_world false;
       emitted := [Probe "iomp5" false] |}.
Proof.
  destruct (unmapped_candidate_raises bare_world "auto" omp_lib_name
              "OpenMP runtime" "auto" "default" ["intel"; "gnu"] [] ""
              (init bare_world false)) as [_ Hauto].
  apply (Hauto ["intel"] "gnu" []).
  - reflexivity.
  - apply not_elem_of_nil.
  - reflexivity.
  - intros x Hx. apply list_elem_of_singleton in Hx as ->.
    split; [now eexists | reflexivity].
  - reflexivity.
Defined.

(** X15 -- A request for the default choice, when [skip_list] does not
    name it, is granted without a single call to the probe: the call
    returns the default, prints one line that names it, without the extra
    warning of a fallback, and adds nothing to the preload list, from which
    the preload search only removes libraries of the candidates. *)
Theorem default_request_probes_nothing (w : World) (name_input : string)
    (name_map : dict lib_entry) (category s0 d : string)
    (cands skip_list : list string) (fn : probe_fn) (extra : string)
    (l : Launcher) :
  Str.lower name_input = d ->
  d <> s0 ->
  d ∉ cands ->
  d ∉ skip_list ->
  let o := set_lib_bin_from_list w name_input name_map category
             (s0 :: d :: cands) fn skip_list extra l in
  value o = Ok d
  /\ emitted o = [said l "info" (use_msg d category "")]
  /\ probed (emitted o) = []
  /\ after o
     = (if is_add_lib_preload fn then
          with_ld_preload (cleaned name_map d (ld_preload l)) l
        else l)
  /\ ld_preload (after o) `sublist_of` ld_preload l.
Proof.
  intros Hlow Hne Hcand Hskip. cbv zeta.
  assert (Hn := normalize_known name_input category s0 (d :: cands)
                  skip_list l).
  rewrite Hlow in Hn.
  specialize (Hn (list_elem_of_further _ _ _ (list_elem_of_here _ _)) Hskip).
  destruct (set_lib_bin_from_list_steps w name_input name_map category
              (s0 :: d :: cands) fn skip_list extra l d [] Hn)
    as (Hv & He & Ha).
  rewrite (resolve_default w name_map category s0 d cands skip_list extra fn
             d l Hne Hcand) in Hv, He, Ha.
  cbn [value after emitted app] in Hv, He, Ha.
  rewrite Hv, He, Ha, probed_said.
  repeat (split; [reflexivity|]).
  destruct (is_add_lib_preload fn); [apply cleaned_sublist | reflexivity].
Qed.

Lemma default_request_probes_nothing_witness :
  let o := set_lib_bin_from_list mixed_world "Default" ma_lib_name
             "memory allocator" ["auto"; "default"; "tcmalloc"; "jemalloc"]
             preload_probe [] "This may drop the performance."
             (init mixed_world false) in
  value o = Ok "default"
  /\ emitted o = [Print "Use 'default' memory allocator."]
  /\ ld_preload (after o) = [].
Proof.
  intros o.
  destruct (default_request_probes_nothing mixed_world "Default" ma_lib_name
              "memory allocator" "auto" "default" ["tcmalloc"; "jemalloc"] []
              preload_probe "This may drop the performance."
              (init mixed_world false))
    as (Hv & He & _ & Ha & _).
  - reflexivity.
  - discriminate.
  - apply not_in_two; discriminate.
  - apply not_elem_of_nil.
  - split; [exact Hv|]. split; [exact He|]. fold o in Ha. now rewrite Ha.
Defined.

(** X16 -- For a range list whose pairs are in order,
    [parse_list_argument] returns exactly the integers that some token
    names or spans: a token [n] gives [n], and a token [lo-hi] gives every
    integer from [lo] to [hi], both bounds included.  Nothing else is in
    the result, and nothing in it is negative. *)
Theorem parse_list_argument_members (toks : list token) :
  Forall ordered toks ->
  exists ret,
    Parse.parse_list_argument (render toks) = Ok ret
    /\ (forall z, z ∈ ret <-> exists t, t ∈ toks /\ covers t z)
    /\ (forall z, z ∈ ret -> 0 <= z).
Proof.
  intros Hord. exists (denoted toks).
  split; [now apply parse_render_denoted|].
  split; [apply denoted_covers|].
  intros z Hz. apply denoted_covers in Hz as (t & _ & Hz).
  destruct t; cbn [covers] in Hz; lia.
Qed.

Lemma parse_list_argument_members_witness :
  exists ret,
    Parse.parse_list_argument "0,2-4,7" = Ok ret
    /\ (4 ∈ ret <-> exists t, t ∈ [Single 0; Span 2 4; Single 7] /\ covers t 4)
    /\ 4 ∈ ret.
Proof.
  destruct (parse_list_argument_members [Single 0; Span 2 4; Single 7])
    as (ret & Hret & Hin & _).
  - repeat constructor.
  - exists ret. split; [exact Hret|]. split; [apply Hin|].
    apply Hin. exists (Span 2 4). split; [repeat constructor|].
    cbn [covers]. lia.
Defined.

(** X17 -- The result of [parse_list_argument] depends neither on the
    order of the tokens nor on repetitions: the list made of two range
    lists one after the other gives the union of what each gives, and two
    lists with the same tokens in another order give the same set. *)
Theorem parse_list_argument_union (a b : list token) :
  Forall ordered a ->
  Forall ordered b ->
  exists ra rb,
    Parse.parse_list_argument (render a) = Ok ra
    /\ Parse.parse_list_argument (render b) = Ok rb
    /\ Parse.parse_list_argument (render (a ++ b)) = Ok (ra ∪ rb)
    /\ Parse.parse_list_argument (render (b ++ a)) = Ok (ra ∪ rb)
    /\ Parse.parse_list_argument (render (a ++ a)) = Ok ra
    /\ (forall c, c ≡ₚ a -> Parse.parse_list_argument (render c) = Ok ra).
Proof.
  intros Ha Hb. exists (denoted a), (denoted b).
  split; [now apply parse_render_denoted|].
  split; [now apply parse_render_denoted|].
  split; [|split; [|split]].
  - rewrite parse_render_denoted by (apply Forall_app; now split).
    now rewrite denoted_app.
  - rewrite parse_render_denoted by (apply Forall_app; now split).
    rewrite denoted_app. f_equal. apply union_comm_L.
  - rewrite parse_render_denoted by (apply Forall_app; now split).
    rewrite denoted_app. f_equal. apply union_idemp_L.
  - intros c Hperm.
    rewrite parse_render_denoted by (now rewrite Hperm).
    f_equal. now apply denoted_perm.
Qed.

Lemma parse_list_argument_union_witness :
  Parse.parse_list_argument "2-4,7,0" = Parse.parse_list_argument "0,2-4,7"
  /\ exists ra rb,
       Parse.parse_list_argument "0,2-4,7" = Ok ra
       /\ Parse.parse_list_argument "3-5" = Ok rb
       /\ Parse.parse_list_argument "0,2-4,7,3-5" = Ok (ra ∪ rb).
Proof.
  destruct (parse_list_argument_union [Single 0; Span 2 4; Single 7]
              [Span 3 5]) as (ra & rb & Ha & Hb & Hab & _ & _ & Hperm);
    [repeat constructor .. |].
  split.
  - transitivity (Ok ra : result (gset Z)); [|symmetry; exact Ha].
    apply (Hperm [Span 2 4; Single 7; Single 0]).
    apply Permutation_sym, Permutation_cons_append.
  - exists ra, rb. split; [exact Ha|]. split; [exact Hb | exact Hab].
Defined.

(** ** White space in a range list *)

Section Stripping.

Lemma lstrip_nonspace (c : ascii) (s : string) :
  Str.is_space c = false -> Str.lstrip (String c s) = String c s.
Proof. intros H. cbn [Str.lstrip]. now rewrite H. Qed.

Lemma rstrip_nonspace (c : ascii) (s : string) :
  Str.is_space c = false -> Str.rstrip (String c s) = String c (Str.rstrip s).
Proof.
  intros H. cbn [Str.rstrip]. destruct (Str.rstrip s); [now rewrite H | reflexivity].
Qed.

Lemma lstrip_spaces (b : string) :
  every Str.is_space b = true -> Str.lstrip b = "".
Proof.
  induction b as [|c b IH]; [reflexivity|]. cbn [every Str.lstrip].
  intros H. apply andb_true_iff in H as [-> Hb]. now apply IH.
Qed.

Lemma rstrip_spaces (b : string) :
  every Str.is_space b = true -> Str.rstrip b = "".
Proof.
  induction b as [|c b IH]; [reflexivity|]. cbn [every Str.rstrip].
  intros H. apply andb_true_iff in H as [-> Hb]. now rewrite (IH Hb).
Qed.

Lemma lstrip_append (s b : string) :
  Str.lstrip (s +:+ b)
  = match Str.lstrip s with
    | EmptyString => Str.lstrip b
    | r => r +:+ b
    end.
Proof.
  induction s as [|c s IH]; [now rewrite append_nil|].
  rewrite append_cons. cbn [Str.lstrip].
  destruct (Str.is_space c); [exact IH | now rewrite append_cons].
Qed.

Lemma rstrip_pad (s b : string) :
  every Str.is_space b = true -> Str.rstrip (s +:+ b) = Str.rstrip s.
Proof.
  intros Hb. induction s as [|c s IH].
  - rewrite append_nil. now apply rstrip_spaces.
  - rewrite append_cons. cbn [Str.rstrip]. now rewrite IH.
Qed.

Lemma append_not_empty (a b : string) : b <> "" -> a +:+ b <> "".
Proof.
  intros Hb. destruct a; [now rewrite append_nil|].
  rewrite append_cons. discriminate.
Qed.

Lemma rstrip_append (a b : string) :
  Str.rstrip b <> "" -> Str.rstrip (a +:+ b) = a +:+ Str.rstrip b.
Proof.
  intros Hb. induction a as [|c a IH]; [now rewrite !append_nil|].
  rewrite !append_cons. cbn [Str.rstrip]. rewrite IH.
  pose proof (append_not_empty a _ Hb) as Hne.
  now destruct (a +:+ Str.rstrip b).
Qed.

Lemma strip_pad (a s b : string) :
  every Str.is_space a = true -> every Str.is_space b = true ->
  Str.strip (a +:+ s +:+ b) = Str.strip s.
Proof.
  intros Ha Hb. unfold Str.strip.
  rewrite (lstrip_append a), (lstrip_spaces a Ha), (lstrip_append s).
  destruct (Str.lstrip s) as [|c r] eqn:Hs.
  - now rewrite (lstrip_spaces b Hb).
  - now apply rstrip_pad.
Qed.

Lemma lstrip_idem (s : string) : Str.lstrip (Str.lstrip s) = Str.lstrip s.
Proof.
  induction s as [|c s IH]; [reflexivity|]. cbn [Str.lstrip].
  destruct (Str.is_space c) eqn:Hc; [exact IH | now apply lstrip_nonspace].
Qed.

Lemma rstrip_idem (s : string) : Str.rstrip (Str.rstrip s) = Str.rstrip s.
Proof.
  induction s as [|c s IH]; [reflexivity|]. cbn [Str.rstrip].
  destruct (Str.rstrip s) as [|x r] eqn:Hs.
  - destruct (Str.is_space c) eqn:Hc; [reflexivity|].
    now rewrite (rstrip_nonspace c "" Hc).
  - cbn [Str.rstrip]. cbn [Str.rstrip] in IH. now rewrite IH.
Qed.

Lemma lstrip_rstrip (s : string) :
  Str.lstrip (Str.rstrip s) = Str.rstrip (Str.lstrip s).
Proof.
  induction s as [|c s IH]; [reflexivity|].
  destruct (Str.is_space c) eqn:Hc.
  - cbn [Str.lstrip Str.rstrip]. rewrite Hc.
    destruct (Str.rstrip s) as [|x r] eqn:Hs.
    + now rewrite <- IH.
    + cbn [Str.lstrip]. rewrite Hc. exact IH.
  - rewrite (lstrip_nonspace c s Hc), (rstrip_nonspace c s Hc).
    now apply lstrip_nonspace.
Qed.

Lemma strip_idem (s : string) : Str.strip (Str.strip s) = Str.strip s.
Proof.
  unfold Str.strip.
  now rewrite lstrip_rstrip, lstrip_idem, rstrip_idem.
Qed.

Lemma strip_lstrip (s : string) : Str.strip (Str.lstrip s) = Str.strip s.
Proof. unfold Str.strip. now rewrite lstrip_idem. Qed.

Lemma strip_rstrip (s : string) : Str.strip (Str.rstrip s) = Str.strip s.
Proof. unfold Str.strip. now rewrite lstrip_rstrip, rstrip_idem. Qed.

Lemma every_lstrip (f : ascii -> bool) (s : string) :
  every f s = true -> every f (Str.lstrip s) = true.
Proof.
  induction s as [|c s IH]; [reflexivity|]. intros H. cbn [Str.lstrip].
  destruct (Str.is_space c); [|exact H].
  cbn [every] in H. apply andb_true_iff in H as [_ H]. now apply IH.
Qed.

Lemma every_rstrip (f : ascii -> bool) (s : string) :
  every f s = true -> every f (Str.rstrip s) = true.
Proof.
  induction s as [|c s IH]; [reflexivity|]. cbn [every]. intros H.
  apply andb_true_iff in H as [Hc H]. cbn [Str.rstrip].
  specialize (IH H).
  destruct (Str.rstrip s) as [|x r].
  - destruct (Str.is_space c); [reflexivity|]. cbn [every]. now rewrite Hc.
  - cbn [every] in *. now rewrite Hc.
Qed.

Lemma every_strip (f : ascii -> bool) (s : string) :
  every f s = true -> every f (Str.strip s) = true.
Proof. intros H. now apply every_rstrip, every_lstrip. Qed.

End Stripping.

Section Elements.

Local Abbreviation comma_free := (every (fun c => negb (Ascii.eqb c ","))).

Lemma comma_join_cons (e e' : string) (es : list string) :
  Str.join "," (e :: e' :: es) = e +:+ String "," (Str.join "," (e' :: es)).
Proof. reflexivity. Qed.

Lemma comma_join_snoc (x : string) (xs : list string) (y : string) :
  Str.join "," (x :: xs ++ [y]) = x +:+ String "," (Str.join "," (xs ++ [y])).
Proof. destruct xs; reflexivity. Qed.

Lemma comma_join_split (txt : string) : Str.join "," (Str.split "," txt) = txt.
Proof. exact (join_split "," txt). Qed.

Lemma split_join (elems : list string) :
  elems <> [] ->
  Forall (fun e => comma_free e = true) elems ->
  Str.split "," (Str.join "," elems) = elems.
Proof.
  induction elems as [|e es IH]; [congruence|]. intros _ Hfree.
  apply Forall_cons in Hfree as [He Hes].
  destruct es as [|e' es].
  - cbn [Str.join]. now apply split_plain.
  - rewrite comma_join_cons, (split_append "," _ _ He).
    now rewrite IH.
Qed.

Lemma lstrip_join (e e' : string) (es : list string) :
  Str.lstrip (Str.join "," (e :: e' :: es))
  = Str.join "," (Str.lstrip e :: e' :: es).
Proof.
  rewrite !comma_join_cons, lstrip_append.
  destruct (Str.lstrip e); [|reflexivity].
  now rewrite append_nil, lstrip_nonspace.
Qed.

Lemma rstrip_join (xs : list string) (y : string) :
  Str.rstrip (Str.join "," (xs ++ [y])) = Str.join "," (xs ++ [Str.rstrip y]).
Proof.
  induction xs as [|x xs IH]; [reflexivity|].
  cbn [app]. rewrite !comma_join_snoc.
  rewrite rstrip_append; rewrite (rstrip_nonspace "," _ eq_refl);
    [now rewrite IH | discriminate].
Qed.

Lemma join_pair_not_empty (e e' : string) (es : list string) :
  String.eqb (Str.join "," (e :: e' :: es)) "" = false.
Proof.
  rewrite comma_join_cons. apply String.eqb_neq, append_not_empty.
  discriminate.
Qed.

Lemma parse_elem_strip (elem : string) :
  Parse.parse_elem (Str.strip elem) = Parse.parse_elem elem.
Proof. unfold Parse.parse_elem. now rewrite strip_idem. Qed.

Lemma parse_elems_strip (elems : list string) (ret : list Z) :
  Parse.parse_elems (map Str.strip elems) ret = Parse.parse_elems elems ret.
Proof.
  revert ret. induction elems as [|e es IH]; intros ret; [reflexivity|].
  cbn [map Parse.parse_elems]. rewrite parse_elem_strip.
  destruct (Parse.parse_elem e); cbn [Parse.bind]; [apply IH | reflexivity].
Qed.

Lemma parse_join_pair (e e' : string) (es : list string) :
  Forall (fun e => comma_free e = true) (e :: e' :: es) ->
  Parse.parse_list_argument (Str.join "," (e :: e' :: es))
  = Parse.bind (Parse.parse_elems (e :: e' :: es) [])
      (fun ret => Ok (list_to_set ret)).
Proof.
  intros Hfree. unfold Parse.parse_list_argument, Str.strip.
  rewrite lstrip_join.
  apply Forall_cons in Hfree as [He Hrest].
  destruct (exists_last (l := e' :: es)) as (mid & y & Hlast); [discriminate|].
  rewrite Hlast in *. apply Forall_app in Hrest as [Hmid Hy].
  apply Forall_cons in Hy as [Hy _].
  change (Str.lstrip e :: mid ++ [y]) with ((Str.lstrip e :: mid) ++ [y]).
  rewrite rstrip_join. cbn [app].
  assert (Hshape : exists z zs, mid ++ [Str.rstrip y] = z :: zs)
    by (destruct mid; now eexists _, _).
  destruct Hshape as (z & zs & Hshape).
  rewrite Hshape, join_pair_not_empty, <- Hshape.
  rewrite split_join; [|discriminate|].
  - rewrite <- (parse_elems_strip (Str.lstrip e :: mid ++ [Str.rstrip y])).
    rewrite <- (parse_elems_strip (e :: mid ++ [y])).
    cbn [map]. rewrite !map_app. cbn [map].
    now rewrite strip_lstrip, strip_rstrip.
  - apply Forall_cons. split; [now apply every_lstrip|].
    apply Forall_app. split; [exact Hmid|].
    apply Forall_cons. split; [now apply every_rstrip | constructor].
Qed.

Lemma parse_join_single (e : string) :
  comma_free e = true -> Str.strip e <> "" ->
  Parse.parse_list_argument e
  = Parse.bind (Parse.parse_elems [e] []) (fun ret => Ok (list_to_set ret)).
Proof.
  intros He Hne. unfold Parse.parse_list_argument.
  rewrite (proj2 (String.eqb_neq _ _) Hne).
  rewrite (split_plain "," _ (every_strip _ _ He)).
  now rewrite <- (parse_elems_strip [e]).
Qed.

Lemma parse_join (elems : list string) (e : string) :
  Forall (fun e => comma_free e = true) elems ->
  e ∈ elems -> Str.strip e <> "" ->
  Parse.parse_list_argument (Str.join "," elems)
  = Parse.bind (Parse.parse_elems elems []) (fun ret => Ok (list_to_set ret)).
Proof.
  intros Hfree He Hne. destruct elems as [|x [|x' xs]].
  - inversion He.
  - apply list_elem_of_singleton in He as ->. cbn [Str.join].
    apply Forall_cons in Hfree as [Hx _]. now apply parse_join_single.
  - now apply parse_join_pair.
Qed.

Lemma parse_join_strip (elems : list string) :
  Forall (fun e => comma_free e = true) elems ->
  Parse.parse_list_argument (Str.join "," elems)
  = Parse.parse_list_argument (Str.join "," (map Str.strip elems)).
Proof.
  intros Hfree. destruct elems as [|e [|e' es]].
  - reflexivity.
  - cbn [map Str.join]. unfold Parse.parse_list_argument.
    now rewrite strip_idem.
  - cbn [map]. rewrite !parse_join_pair.
    + now rewrite <- (parse_elems_strip (e :: e' :: es)).
    + change (Forall (fun e => comma_free e = true)
                (map Str.strip (e :: e' :: es))).
      apply Forall_fmap. eapply Forall_impl; [exact Hfree|].
      intros x Hx. cbn. now apply every_strip.
    + exact Hfree.
Qed.

Lemma parse_elem_minus (elem s : string) :
  Str.strip elem = String "-" s -> Parse.parse_elem elem = Raise ValueError.
Proof. intros H. unfold Parse.parse_elem. rewrite H. reflexivity. Qed.

End Elements.

(** X18 -- [parse_list_argument] cannot read a negative number: an element
    that, white space apart, begins with a minus sign raises [ValueError],
    because the text before the hyphen is empty.  This holds wherever the
    element stands in the list, provided that the elements before it are
    read without an error; in particular every text that begins with a
    minus sign raises [ValueError]. *)
Theorem minus_sign_rejected :
  (forall pre post elem s,
      Forall (fun e => every (fun c => negb (Ascii.eqb c ",")) e = true)
        (pre ++ elem :: post) ->
      (forall x, x ∈ pre -> is_ok (Parse.parse_elem x) = true) ->
      Str.strip elem = String "-" s ->
      Parse.parse_list_argument (Str.join "," (pre ++ elem :: post))
      = Raise ValueError)
  /\ (forall s, Parse.parse_list_argument (String "-" s) = Raise ValueError).
Proof.
  assert (Hmain : forall pre post elem s,
      Forall (fun e => every (fun c => negb (Ascii.eqb c ",")) e = true)
        (pre ++ elem :: post) ->
      (forall x, x ∈ pre -> is_ok (Parse.parse_elem x) = true) ->
      Str.strip elem = String "-" s ->
      Parse.parse_list_argument (Str.join "," (pre ++ elem :: post))
      = Raise ValueError).
  { intros pre post elem s Hfree Hpre Hminus.
    rewrite (parse_join (pre ++ elem :: post) elem Hfree).
    - now rewrite (parse_elems_raises pre post elem ValueError [] Hpre
                     (parse_elem_minus elem s Hminus)).
    - rewrite elem_of_app, elem_of_cons. tauto.
    - rewrite Hminus. discriminate. }
  split; [exact Hmain|].
  intros s.
  pose proof (comma_join_split (String "-" s)) as Hjoin.
  pose proof (split_pieces_free "," (String "-" s)) as Hfree.
  cbn [Str.split] in Hjoin, Hfree.
  change (Ascii.eqb "-" ",") with false in Hjoin, Hfree. cbv iota in Hjoin, Hfree.
  destruct (Str.split "," s) as [|piece pieces] eqn:Hs;
    [now apply split_not_nil in Hs|].
  rewrite <- Hjoin.
  apply (Hmain [] pieces (String "-" piece) (Str.rstrip piece)).
  - apply Forall_forall. intros x Hx. now apply Hfree.
  - intros x Hx. inversion Hx.
  - unfold Str.strip.
    now rewrite (lstrip_nonspace "-" _ eq_refl), (rstrip_nonspace "-" _ eq_refl).
Qed.

Lemma minus_sign_rejected_witness :
  Parse.parse_list_argument "0,2-4, -7,9" = Raise ValueError.
Proof.
  destruct minus_sign_rejected as [Hmain _].
  apply (Hmain ["0"; "2-4"] ["9"] " -7" "7").
  - repeat constructor.
  - intros x Hx.
    apply elem_of_cons in Hx as [-> | Hx]; [reflexivity|].
    apply list_elem_of_singleton in Hx as ->. reflexivity.
  - reflexivity.
Defined.

(** X19 -- White space around the elements of a range list never matters:
    [parse_list_argument] gives for a text what it gives for the text whose
    comma-separated elements are stripped, so two texts whose elements
    agree once stripped give the same result or raise the same error.
    White space around the whole text is ignored as well, and a text of
    white space only gives the empty result without an error. *)
Theorem parse_list_argument_white_space :
  (forall txt,
      Parse.parse_list_argument txt
      = Parse.parse_list_argument
          (Str.join "," (map Str.strip (Str.split "," txt))))
  /\ (forall elems elems',
         Forall (fun e => every (fun c => negb (Ascii.eqb c ",")) e = true)
           elems ->
         Forall (fun e => every (fun c => negb (Ascii.eqb c ",")) e = true)
           elems' ->
         map Str.strip elems = map Str.strip elems' ->
         Parse.parse_list_argument (Str.join "," elems)
         = Parse.parse_list_argument (Str.join "," elems'))
  /\ (forall a txt b,
         every Str.is_space a = true -> every Str.is_space b = true ->
         Parse.parse_list_argument (a +:+ txt +:+ b)
         = Parse.parse_list_argument txt)
  /\ (forall a,
         every Str.is_space a = true ->
         Parse.parse_list_argument a = Ok (∅ : gset Z)).
Proof.
  split; [|split; [|split]].
  - intros txt. rewrite <- (comma_join_split txt) at 1.
    apply parse_join_strip, Forall_forall. intros x Hx.
    now apply (split_pieces_free "," txt).
  - intros elems elems' Hfree Hfree' Hsame.
    rewrite (parse_join_strip elems Hfree), (parse_join_strip elems' Hfree').
    now rewrite Hsame.
  - intros a txt b Ha Hb. unfold Parse.parse_list_argument.
    now rewrite (strip_pad a txt b Ha Hb).
  - intros a Ha. unfold Parse.parse_list_argument, Str.strip.
    now rewrite (lstrip_spaces a Ha).
Qed.

Lemma parse_list_argument_white_space_witness :
  Parse.parse_list_argument " 0 , 2-4 ,7 " = Parse.parse_list_argument "0,2-4,7"
  /\ Parse.parse_list_argument "   " = Ok (∅ : gset Z).
Proof.
  destruct parse_list_argument_white_space as (_ & Hsame & _ & Hblank).
  split.
  - apply (Hsame [" 0 "; " 2-4 "; "7 "] ["0"; "2-4"; "7"]);
      [repeat constructor .. | reflexivity].
  - apply (Hblank "   "). reflexivity.
Defined.

(** ** The allocator and the OpenMP runtime together *)

Section Suffix.

Lemma substring_skip (p a : string) (n k : nat) :
  substring (String.length p + n) k (p +:+ a) = substring n k a.
Proof.
  induction p as [|c p IH]; [now rewrite append_nil|].
  rewrite append_cons. cbn [String.length Nat.add substring]. exact IH.
Qed.

Lemma substring_tail (x : string) (n : nat) :
  (n <= String.length x)%nat ->
  exists p, x = p +:+ substring n (String.length x - n) x.
Proof.
  revert x. induction n as [|n IH]; intros x Hn.
  - exists ""%string. now rewrite Nat.sub_0_r, substring_all, append_nil.
  - destruct x as [|c x]; cbn [String.length] in Hn; [lia|].
    destruct (IH x) as [p Hp]; [lia|].
    exists (String c p). rewrite append_cons.
    cbn [String.length Nat.sub substring]. now rewrite <- Hp.
Qed.

Lemma endswith_split (x a : string) :
  Str.endswith x a = true -> exists p, x = p +:+ a.
Proof.
  unfold Str.endswith. intros H. apply andb_true_iff in H as [Hle Heq].
  apply Nat.leb_le in Hle. apply String.eqb_eq in Heq.
  destruct (substring_tail x (String.length x - String.length a)) as [p Hp];
    [lia|].
  exists p.
  replace (String.length x - (String.length x - String.length a))%nat
    with (String.length a) in Hp by lia.
  now rewrite Heq in Hp.
Qed.

Lemma endswith_longer (p a b : string) :
  (String.length b <= String.length a)%nat ->
  Str.endswith (p +:+ a) b = Str.endswith a b.
Proof.
  intros Hle. unfold Str.endswith. rewrite length_append.
  replace (String.length p + String.length a - String.length b)%nat
    with (String.length p + (String.length a - String.length b))%nat by lia.
  rewrite substring_skip.
  rewrite (proj2 (Nat.leb_le _ _) Hle).
  now rewrite (proj2 (Nat.leb_le (String.length b)
                        (String.length p + String.length a)%nat)) by lia.
Qed.

Lemma endswith_other (x a b : string) :
  Str.endswith x a = true ->
  (String.length b <= String.length a)%nat ->
  Str.endswith a b = false ->
  Str.endswith x b = false.
Proof.
  intros Ha Hle Hab. destruct (endswith_split x a Ha) as [p ->].
  now rewrite endswith_longer.
Qed.

Lemma allocator_not_runtime (k : string) (v : lib_entry) (x : string) :
  (k, v) ∈ ma_lib_name ->
  Str.endswith x (lib_so (fst v)) = true ->
  Str.endswith x (lib_so "iomp5") = false.
Proof.
  intros Hkv Hx.
  apply elem_of_cons in Hkv as [Hkv | Hkv];
    [|apply elem_of_cons in Hkv as [Hkv | Hkv]; [|inversion Hkv]];
    injection Hkv as -> ->;
    apply (endswith_other x _ _ Hx); try reflexivity; vm_compute; lia.
Qed.

Lemma runtime_not_allocator (k : string) (v : lib_entry) (x : string) :
  (k, v) ∈ ma_lib_name ->
  Str.endswith x (lib_so "iomp5") = true ->
  Str.endswith x (lib_so (fst v)) = false.
Proof.
  intros Hkv Hx.
  destruct (Str.endswith x (lib_so (fst v))) eqn:Hv; [|reflexivity].
  rewrite (allocator_not_runtime k v x Hkv Hv) in Hx. discriminate Hx.
Qed.

End Suffix.

Section Together.

Variable w : World.

Lemma landing_keeps (name_map : dict lib_entry) (cands : list string)
    (l : Launcher) (r x : string) :
  x ∈ ld_preload l -> x ∈ ld_preload (landing w l name_map cands r).
Proof.
  intros Hx.
  destruct (landing_preload w name_map cands l r) as [-> | (m & _ & _ & _ & ->)];
    [exact Hx|].
  cbn [ld_preload with_ld_preload]. apply elem_of_app. now left.
Qed.

Lemma set_memory_allocator_preload (memory_allocator : string)
    (benchmark : bool) (skip_list : list string) (l : Launcher) :
  ma_supported l = ["auto"; "default"; "tcmalloc"; "jemalloc"] ->
  let av name := available w l (token_of ma_lib_name name) in
  let r := resolution_policy av "default" ["tcmalloc"; "jemalloc"] skip_list
             (normalized_name ["auto"; "default"; "tcmalloc"; "jemalloc"]
                skip_list memory_allocator) in
  let o := set_memory_allocator w memory_allocator benchmark skip_list l in
  value o = Ok r
  /\ ld_preload (after o)
     = cleaned ma_lib_name r
         (ld_preload (landing w l ma_lib_name ["tcmalloc"; "jemalloc"] r))
  /\ library_paths (after o) = library_paths l
  /\ omp_supported (after o) = omp_supported l.
Proof.
  intros Hma. cbv zeta.
  assert (Hauto : "auto" ∉ ["tcmalloc"; "jemalloc"])
    by (apply not_in_two; discriminate).
  assert (Hdef : "default" ∉ ["tcmalloc"; "jemalloc"])
    by (apply not_in_two; discriminate).
  assert (Hd : "default" <> "auto") by discriminate.
  destruct (set_lib_bin_from_list_preload w ma_lib_name "memory allocator"
              "default" ["tcmalloc"; "jemalloc"] skip_list
              "This may drop the performance." Hauto Hdef
              ma_candidates_mapped memory_allocator l Hd)
    as [Hvalue Hafter].
  cbv zeta in Hvalue, Hafter.
  rewrite set_memory_allocator_spec. cbv zeta. rewrite Hma, Hvalue, Hafter.
  cbn [value after]. rewrite tuned_allocator_overlay.
  now repeat split.
Qed.

Lemma set_omp_runtime_preload (omp_runtime : string) (set_kmp_affinity : bool)
    (l : Launcher) :
  omp_supported l = ["auto"; "default"; "intel"] ->
  let av name := available w l (token_of omp_lib_name name) in
  let r := resolution_policy av "default" ["intel"] []
             (normalized_name ["auto"; "default"; "intel"] [] omp_runtime) in
  let o := set_omp_runtime w omp_runtime set_kmp_affinity l in
  value o = Ok r
  /\ ld_preload (after o)
     = cleaned omp_lib_name r
         (ld_preload (landing w l omp_lib_name ["intel"] r)).
Proof.
  intros Homp. cbv zeta.
  assert (Hauto : "auto" ∉ ["intel"]) by (apply not_in_one; discriminate).
  assert (Hdef : "default" ∉ ["intel"]) by (apply not_in_one; discriminate).
  assert (Hd : "default" <> "auto") by discriminate.
  destruct (set_lib_bin_from_list_preload w omp_lib_name "OpenMP runtime"
              "default" ["intel"] [] "" Hauto Hdef
              omp_candidates_mapped omp_runtime l Hd)
    as [Hvalue Hafter].
  cbv zeta in Hvalue, Hafter.
  destruct (set_omp_runtime_spec w omp_runtime set_kmp_affinity l) as [Hv Ha].
  rewrite Homp in Hv, Ha. rewrite Hv, Ha, Hvalue, Hafter.
  rewrite tuned_runtime_overlay. now split.
Qed.

Lemma runtime_library_kept (memory_allocator : string) (benchmark : bool)
    (skip_list : list string) (l : Launcher) (x : string) :
  ma_supported l = ["auto"; "default"; "tcmalloc"; "jemalloc"] ->
  x ∈ ld_preload l ->
  Str.endswith x (lib_so "iomp5") = true ->
  x ∈ ld_preload
        (after (set_memory_allocator w memory_allocator benchmark skip_list l)).
Proof.
  intros Hma Hx Hends.
  destruct (set_memory_allocator_preload memory_allocator benchmark skip_list
              l Hma) as (_ & -> & _).
  apply cleaned_keeps; [now apply landing_keeps|].
  intros k v Hkv _. now apply (runtime_not_allocator k v x).
Qed.

Lemma allocator_library_kept (omp_runtime : string) (set_kmp_affinity : bool)
    (l : Launcher) (k : string) (v : lib_entry) (x : string) :
  omp_supported l = ["auto"; "default"; "intel"] ->
  x ∈ ld_preload l ->
  (k, v) ∈ ma_lib_name ->
  Str.endswith x (lib_so (fst v)) = true ->
  x ∈ ld_preload (after (set_omp_runtime w omp_runtime set_kmp_affinity l)).
Proof.
  intros Homp Hx Hkv Hends.
  destruct (set_omp_runtime_preload omp_runtime set_kmp_affinity l Homp)
    as (_ & ->).
  apply cleaned_keeps; [now apply landing_keeps|].
  intros k' v' Hkv' _.
  apply list_elem_of_singleton in Hkv'. injection Hkv' as -> ->.
  now apply (allocator_not_runtime k v x).
Qed.

Lemma chosen_kept (name_map : dict lib_entry) (cands : list string)
    (l : Launcher) (r : string) :
  (forall c, c ∈ cands -> is_Some (dict_lookup name_map c)) ->
  (forall k v k' v' x,
      (k, v) ∈ name_map -> (k', v') ∈ name_map -> k <> k' ->
      Str.endswith x (lib_so (fst v)) = true ->
      Str.endswith x (lib_so (fst v')) = false) ->
  (forall token m,
      find_library w (library_paths l) token = Some m ->
      Str.endswith m (lib_so token) = true) ->
  r ∈ cands ->
  available w l (token_of name_map r) = true ->
  exists x,
    x ∈ cleaned name_map r (ld_preload (landing w l name_map cands r))
    /\ Str.endswith x (lib_so (token_of name_map r)) = true
    /\ exists entry, (r, entry) ∈ name_map /\ token_of name_map r = fst entry.
Proof.
  intros Hkeys Hapart Hglob Hin Hav.
  destruct (Hkeys r Hin) as [entry Hentry].
  pose proof (token_of_entry name_map r entry Hentry) as Htoken.
  apply dict_lookup_elem in Hentry.
  destruct (landing_chosen w name_map cands l r Hin Hav (Hglob _))
    as (x & Hx & Hends).
  exists x. split; [|split; [exact Hends | now exists entry]].
  apply cleaned_keeps; [exact Hx|].
  intros k v Hkv Hne. rewrite Htoken in Hends.
  now apply (Hapart r entry k v x).
Qed.

End Together.

Section Names.

Lemma library_file_endswith (lib_path lib_type : string) :
  Str.endswith (library_file lib_path lib_type) (lib_so lib_type) = true.
Proof.
  unfold library_file, lib_so.
  change ("/lib" +:+ lib_type +:+ ".so")
    with ("/" +:+ ("lib" +:+ lib_type +:+ ".so")).
  rewrite <- append_assoc. apply endswith_append.
Qed.

Lemma glob_of_files_names (w : World) (files paths : list string)
    (lib_type m : string) :
  glob w = glob_of_files files ->
  find_library w paths lib_type = Some m ->
  Str.endswith m (lib_so lib_type) = true.
Proof.
  intros Hw Hm.
  apply find_library_found in Hm as (pre & p & post & rest & _ & _ & Hg).
  rewrite Hw in Hg. unfold glob_of_files in Hg.
  destruct (bool_decide _); [|discriminate Hg].
  injection Hg as <- _. apply library_file_endswith.
Qed.

End Names.

(** X20 -- The two resolvers do not undo each other's work on the preload
    list: [set_memory_allocator] never removes a file [libiomp5.so], and
    [set_omp_runtime] never removes a file [libtcmalloc.so] or
    [libjemalloc.so].  So after [set_memory_allocator] followed by
    [set_omp_runtime], the preload list holds a library of the allocator
    that was chosen, unless that is the default, and [libiomp5.so] when the
    runtime chosen is [intel].  The last part needs that [glob] reports a
    file of the name searched for. *)
Theorem allocator_and_runtime_together (w : World) (l : Launcher) :
  ma_supported l = ["auto"; "default"; "tcmalloc"; "jemalloc"] ->
  omp_supported l = ["auto"; "default"; "intel"] ->
  (forall entry memory_allocator benchmark skip_list,
      entry ∈ ld_preload l ->
      Str.endswith entry "libiomp5.so" = true ->
      entry ∈ ld_preload
                (after (set_memory_allocator w memory_allocator benchmark
                          skip_list l)))
  /\ (forall entry omp_runtime set_kmp_affinity,
         entry ∈ ld_preload l ->
         Str.endswith entry "libtcmalloc.so" = true
         \/ Str.endswith entry "libjemalloc.so" = true ->
         entry ∈ ld_preload
                   (after (set_omp_runtime w omp_runtime set_kmp_affinity l)))
  /\ ((forall token m,
          find_library w (library_paths l) token = Some m ->
          Str.endswith m (lib_so token) = true) ->
      forall memory_allocator benchmark skip_list omp_runtime set_kmp_affinity
             r1 r2,
        let o1 := set_memory_allocator w memory_allocator benchmark skip_list
                    l in
        let o2 := set_omp_runtime w omp_runtime set_kmp_affinity (after o1) in
        value o1 = Ok r1 ->
        value o2 = Ok r2 ->
        (r1 <> "default" -> preloaded (after o2) r1 = true)
        /\ (r2 = "intel" -> preloaded (after o2) "iomp5" = true)).
Proof.
  intros Hma Homp. split; [|split].
  - intros entry name benchmark skip_list Hin Hends.
    now apply runtime_library_kept.
  - intros entry name flag Hin [Hends | Hends].
    + apply (allocator_library_kept w name flag l "tcmalloc"
               ("tcmalloc", "conda install -c conda-forge gperftools") entry);
        try assumption.
      apply list_elem_of_further, list_elem_of_here.
    + apply (allocator_library_kept w name flag l "jemalloc"
               ("jemalloc", "conda install -c conda-forge jemalloc") entry);
        try assumption.
      apply list_elem_of_here.
  - intros Hglob name benchmark skip_list name' flag r1 r2 o1 o2 Hr1 Hr2.
    subst o1 o2.
    destruct (set_memory_allocator_preload w name benchmark skip_list l Hma)
      as (Hv1 & Hp1 & Hpaths1 & Homp1).
    cbv zeta in Hv1, Hp1.
    pose proof (policy_candidate_available "default" ["tcmalloc"; "jemalloc"]
                  skip_list
                  ltac:(apply not_in_two; discriminate)
                  (fun c => available w l (token_of ma_lib_name c))
                  (normalized_name ["auto"; "default"; "tcmalloc"; "jemalloc"]
                     skip_list name)) as Hchosen1.
    pose proof (policy_range
                  (fun c => available w l (token_of ma_lib_name c)) "default"
                  ["tcmalloc"; "jemalloc"] skip_list
                  (normalized_name ["auto"; "default"; "tcmalloc"; "jemalloc"]
                     skip_list name)) as Hrange1.
    cbv zeta in Hchosen1.
    rewrite Hv1 in Hr1. injection Hr1 as Hr1. rewrite Hr1 in *. clear Hr1 Hv1.
    set (l1 := after (set_memory_allocator w name benchmark skip_list l)) in *.
    rewrite Homp in Homp1.
    destruct (set_omp_runtime_preload w name' flag l1 Homp1) as (Hv2 & Hp2).
    cbv zeta in Hv2, Hp2.
    pose proof (policy_candidate_available "default" ["intel"] []
                  ltac:(apply not_in_one; discriminate)
                  (fun c => available w l1 (token_of omp_lib_name c))
                  (normalized_name ["auto"; "default"; "intel"] [] name'))
      as Hchosen2.
    cbv zeta in Hchosen2.
    rewrite Hv2 in Hr2. injection Hr2 as Hr2. rewrite Hr2 in *. clear Hr2 Hv2.
    split.
    + intros Hnd.
      apply elem_of_cons in Hrange1 as [? | Hcand]; [contradiction|].
      destruct (chosen_kept w ma_lib_name ["tcmalloc"; "jemalloc"] l r1
                  ma_candidates_mapped ma_lib_name_apart Hglob Hcand
                  (Hchosen1 Hcand))
        as (x & Hx & Hends & entry & Hentry & Htoken).
      rewrite <- Hp1 in Hx.
      assert (Hname : token_of ma_lib_name r1 = r1).
      { apply elem_of_cons in Hcand as [-> | Hcand]; [reflexivity|].
        apply list_elem_of_singleton in Hcand as ->. reflexivity. }
      unfold preloaded. apply existsb_exists. exists x.
      split; [|now rewrite Hname in Hends].
      apply list_elem_of_In.
      apply (allocator_library_kept w name' flag l1 r1 entry x Homp1 Hx Hentry).
      now rewrite <- Htoken.
    + intros ->.
      assert (Hcand : "intel" ∈ ["intel"]) by apply list_elem_of_here.
      destruct (chosen_kept w omp_lib_name ["intel"] l1 "intel"
                  omp_candidates_mapped omp_lib_name_apart)
        as (x & Hx & Hends & _); [| exact Hcand | exact (Hchosen2 Hcand) |].
      { intros token m. rewrite Hpaths1. apply Hglob. }
      rewrite <- Hp2 in Hx.
      unfold preloaded. apply existsb_exists. exists x.
      split; [now apply list_elem_of_In | exact Hends].
Qed.

Lemma allocator_and_runtime_together_witness :
  let l := init conda_world false in
  let o1 := set_memory_allocator conda_world "auto" false [] l in
  let o2 := set_omp_runtime conda_world "auto" true (after o1) in
  value o2 = Ok "intel"
  /\ preloaded (after o2) "iomp5" = true
  /\ "/a/libx.so" ∈ ld_preload (after o2).
Proof.
  intros l o1 o2.
  destruct (allocator_and_runtime_together conda_world l eq_refl eq_refl)
    as (_ & _ & Hboth).
  split; [reflexivity|]. split; [|vm_compute; repeat constructor].
  apply (Hboth (fun token m =>
                  glob_of_files_names conda_world _ _ token m eq_refl)
           "auto" false [] "auto" true "default" "intel");
    reflexivity.
Defined.
